(** * A progressive-rehashing hash map (hashtable.hpp), embedded in Rocq

    The development follows the three layers of the C++ header:
    [hash_string] (FNV-1a digest), [HTable] (one chained table) and
    [HMap] (two tables with incremental migration).

    Conventions of the embedding.
    - [uint32_t] and [size_t]/[uint64_t] values are integers of [Z], every
      arithmetic operation of the source being followed by its reduction
      modulo 2^32 or 2^64.
    - A [std::unique_ptr<HNode>] chain is a [list] of nodes: [nullptr] is
      [[]], and a node whose [next_] owns the chain [c] is [n :: c].
    - [std::vector<std::unique_ptr<HNode>>] is a [list] of chains, indexed
      with stdpp's lookup; an index outside of the vector is undefined
      behaviour in C++ and the fault [Undefined] here.
    - Loops run on fuel; running out of it is the fault [OutOfFuel]. *)

From Stdlib Require Import ZArith Lia List.
From Stdlib.Strings Require Import Byte.
From stdpp Require Import base tactics option list relations.

Local Open Scope Z_scope.

(** ** Faults and the result monad *)

Inductive fault : Type :=
| Undefined      (* undefined behaviour: index out of range, division by 0 *)
| AssertFailed   (* a failed [assert] *)
| OutOfFuel.     (* the loop did not finish within the fuel given *)

Inductive result (A : Type) : Type :=
| Ok (a : A)
| Fail (f : fault).
Arguments Ok {A} a.
Arguments Fail {A} f.

#[global] Instance result_ret : MRet result := fun A a => Ok a.
#[global] Instance result_bind : MBind result := fun A B k m =>
  match m with
  | Ok a => k a
  | Fail f => Fail f
  end.

(** ** Machine integers *)

Definition wrap32 (x : Z) : Z := x mod 2 ^ 32.
Definition wrap64 (x : Z) : Z := x mod 2 ^ 64.

(** [v[i]] on a [std::vector] or a raw array. *)
Definition at_ {A : Type} (v : list A) (i : Z) : result A :=
  if 0 <=? i then
    match v !! Z.to_nat i with
    | Some x => Ok x
    | None => Fail Undefined
    end
  else Fail Undefined.

(** [std::has_single_bit] and [std::bit_ceil] on [size_t]. The latter is
    undefined when the result is not representable. *)
Definition has_single_bit (x : Z) : bool :=
  (0 <? x) && (Z.land x (x - 1) =? 0).

Definition bit_ceil (x : Z) : result Z :=
  if x <=? 1 then Ok 1
  else if x <=? 2 ^ 63 then Ok (2 ^ Z.log2_up x)
  else Fail Undefined.

(** ** hash_string *)

Definition INITIAL : Z := 0x811C9DC5.
Definition MULTIPLIER : Z := 0x01000193.

Definition byte_val (b : byte) : Z := Z.of_N (Byte.to_N b).

(** One statement [hash = (hash ^ data[i]) * MULTIPLIER] on [uint32_t]. *)
Definition mix (hash : Z) (b : byte) : Z :=
  wrap32 (Z.lxor hash (byte_val b) * MULTIPLIER).

(** The loop [for (; i + 4 <= len; i += 4)]; it returns [i] and [hash]. *)
Fixpoint hash_unrolled (fuel : nat) (data : list byte) (len i hash : Z)
  : result (Z * Z) :=
  if wrap64 (i + 4) <=? len then
    match fuel with
    | O => Fail OutOfFuel
    | S fuel' =>
        b0 ← at_ data i;
        b1 ← at_ data (wrap64 (i + 1));
        b2 ← at_ data (wrap64 (i + 2));
        b3 ← at_ data (wrap64 (i + 3));
        hash_unrolled fuel' data len (wrap64 (i + 4))
          (mix (mix (mix (mix hash b0) b1) b2) b3)
    end
  else Ok (i, hash).

(** The loop [for (; i < len; i++)]. *)
Fixpoint hash_tail (fuel : nat) (data : list byte) (len i hash : Z)
  : result Z :=
  if i <? len then
    match fuel with
    | O => Fail OutOfFuel
    | S fuel' =>
        b ← at_ data i;
        hash_tail fuel' data len (wrap64 (i + 1)) (mix hash b)
    end
  else Ok hash.

(** Both loops advance [i] towards [len], so [len + 1] rounds of fuel are
    enough for each of them. The [uint32_t] result is widened on return. *)
Definition hash_string (data : list byte) (len : Z) : result Z :=
  let fuel := S (Z.to_nat len) in
  '(i, hash) ← hash_unrolled fuel data len 0 INITIAL;
  hash_tail fuel data len i hash.

(** The digest in the words of the specification: 32-bit FNV-1a, one byte
    at a time, from the offset basis. *)
Definition fnv1a_32_spec (data : list byte) : Z :=
  fold_left (fun h b => (Z.lxor h (byte_val b) * 0x01000193) mod 2 ^ 32)
            data 0x811C9DC5.

(** ** HNode

    The class holds the chain link [next_] and the digest [hcode_]; the
    link is the tail of the list the node heads. Callers attach their key
    and value by derivation, here the field [payload]. *)

Record HNode (T : Type) : Type := mkHNode { hcode_ : Z; payload : T }.
Arguments mkHNode {T} hcode_ payload.
Arguments hcode_ {T} _.
Arguments payload {T} _.

(** ** HTable *)

Module HTable.

Record t (T : Type) : Type := mk {
  buckets_ : list (list (HNode T));
  mask_ : Z;
  size_ : Z
}.
Arguments mk {T} buckets_ mask_ size_.
Arguments buckets_ {T} _.
Arguments mask_ {T} _.
Arguments size_ {T} _.

Definition k_min_cap : Z := 4.

(** A table whose fields hold their default member initialisers. *)
Definition default {T : Type} : t T := mk [] 0 0.

Definition size {T : Type} (tb : t T) : Z := size_ tb.
Definition capacity {T : Type} (tb : t T) : Z := wrap64 (mask_ tb + 1).
Definition empty {T : Type} (tb : t T) : bool := size_ tb =? 0.

(** [buckets_.resize(capacity)] keeps the slots it has and appends empty
    ones. *)
Definition initialize {T : Type} (tb : t T) (capacity : Z) : result (t T) :=
  if has_single_bit capacity then
    let capacity := Z.max capacity k_min_cap in
    Ok (mk (resize (Z.to_nat capacity) [] (buckets_ tb))
           (wrap64 (capacity - 1))
           0)
  else Fail AssertFailed.

(** The constructor [HTable(size_t initial_size = 0)]. *)
Definition make {T : Type} (initial_size : Z) : result (t T) :=
  if 0 <? initial_size then
    capacity ← bit_ceil initial_size;
    initialize default capacity
  else Ok default.

Definition insert {T : Type} (tb : t T) (node : HNode T) : result (t T) :=
  tb ← match buckets_ tb with
       | [] => initialize tb k_min_cap
       | _ :: _ => Ok tb
       end;
  let pos := Z.land (hcode_ node) (mask_ tb) in
  head ← at_ (buckets_ tb) pos;
  Ok (mk (<[Z.to_nat pos := node :: head]> (buckets_ tb))
         (mask_ tb)
         (wrap64 (size_ tb + 1))).

(** The [while (current)] walk of [lookup]. *)
Fixpoint lookup_chain {T : Type} (comparator : HNode T → HNode T → bool)
    (key : HNode T) (current : list (HNode T)) : option (HNode T) :=
  match current with
  | [] => None
  | node :: next =>
      if comparator node key then Some node
      else lookup_chain comparator key next
  end.

Definition lookup {T : Type} (tb : t T) (key : HNode T)
    (comparator : HNode T → HNode T → bool) : result (option (HNode T)) :=
  match buckets_ tb with
  | [] => Ok None
  | _ :: _ =>
      let pos := Z.land (hcode_ key) (mask_ tb) in
      head ← at_ (buckets_ tb) pos;
      Ok (lookup_chain comparator key head)
  end.

(** The walk of [remove]: the detached node and the relinked chain, the
    nodes before the match keeping their place. *)
Fixpoint remove_chain {T : Type} (comparator : HNode T → HNode T → bool)
    (key : HNode T) (current : list (HNode T))
  : option (HNode T * list (HNode T)) :=
  match current with
  | [] => None
  | node :: next =>
      if comparator node key then Some (node, next)
      else match remove_chain comparator key next with
           | Some (found, next') => Some (found, node :: next')
           | None => None
           end
  end.

(** [remove] returns the detached node (or [nullptr]) and leaves [size_]
    as it was: the body has no statement on [size_]. *)
Definition remove {T : Type} (tb : t T) (key : HNode T)
    (comparator : HNode T → HNode T → bool)
  : result (option (HNode T) * t T) :=
  match buckets_ tb with
  | [] => Ok (None, tb)
  | _ :: _ =>
      let pos := Z.land (hcode_ key) (mask_ tb) in
      head ← at_ (buckets_ tb) pos;
      match remove_chain comparator key head with
      | Some (node, relinked) =>
          Ok (Some node,
              mk (<[Z.to_nat pos := relinked]> (buckets_ tb))
                 (mask_ tb) (size_ tb))
      | None => Ok (None, tb)
      end
  end.

End HTable.

(** ** HMap *)

Module HMap.

Record t (T : Type) : Type := mk {
  primary_table_ : HTable.t T;
  temporary_table_ : option (HTable.t T);
  resizing_pos_ : Z
}.
Arguments mk {T} primary_table_ temporary_table_ resizing_pos_.
Arguments primary_table_ {T} _.
Arguments temporary_table_ {T} _.
Arguments resizing_pos_ {T} _.

Definition max_work : Z := 15.
Definition k_max_load_factor : Z := 8.
Definition k_min_cap : Z := 4.

(** [HMap() = default]. *)
Definition default {T : Type} : t T := mk HTable.default None 0.

Definition size {T : Type} (m : t T) : Z :=
  wrap64 (HTable.size (primary_table_ m)
          + match temporary_table_ m with
            | Some tmp => HTable.size tmp
            | None => 0
            end).

Definition empty {T : Type} (m : t T) : bool := size m =? 0.

(** One round of the [while] loop of [help_resize], on the loop's four
    variables: the two tables, [resizing_pos_] and [work_done]. *)
Definition help_resize_body {T : Type}
    (primary tmp : HTable.t T) (pos work_done : Z)
  : result (HTable.t T * HTable.t T * Z * Z) :=
  let pos := if HTable.capacity tmp <=? pos then 0 else pos in
  bucket ← at_ (HTable.buckets_ tmp) pos;
  match bucket with
  | node :: next =>
      let tmp := HTable.mk (<[Z.to_nat pos := next]> (HTable.buckets_ tmp))
                           (HTable.mask_ tmp) (HTable.size_ tmp) in
      primary ← HTable.insert primary node;
      let tmp := HTable.mk (HTable.buckets_ tmp) (HTable.mask_ tmp)
                           (wrap64 (HTable.size_ tmp - 1)) in
      Ok (primary, tmp, pos, wrap64 (work_done + 1))
  | [] => Ok (primary, tmp, wrap64 (pos + 1), work_done)
  end.

(** The loop condition. *)
Definition help_resize_guard {T : Type} (tmp : HTable.t T) (work_done : Z)
  : bool :=
  (work_done <? max_work) && negb (HTable.empty tmp).

Fixpoint help_resize_loop {T : Type} (fuel : nat)
    (primary tmp : HTable.t T) (pos work_done : Z)
  : result (HTable.t T * HTable.t T * Z * Z) :=
  if help_resize_guard tmp work_done then
    match fuel with
    | O => Fail OutOfFuel
    | S fuel' =>
        '(primary, tmp, pos, work_done) ←
          help_resize_body primary tmp pos work_done;
        help_resize_loop fuel' primary tmp pos work_done
    end
  else Ok (primary, tmp, pos, work_done).

Definition help_resize {T : Type} (fuel : nat) (m : t T) : result (t T) :=
  match temporary_table_ m with
  | None => Ok m
  | Some tmp =>
      '(primary, tmp, pos, _) ←
        help_resize_loop fuel (primary_table_ m) tmp (resizing_pos_ m) 0;
      if HTable.empty tmp then Ok (mk primary None 0)
      else Ok (mk primary (Some tmp) pos)
  end.

Definition start_resize {T : Type} (m : t T) : result (t T) :=
  match temporary_table_ m with
  | Some _ => Fail AssertFailed
  | None =>
      let new_capacity := wrap64 (HTable.capacity (primary_table_ m) * 2) in
      let tmp := primary_table_ m in
      primary ← HTable.make new_capacity;
      Ok (mk primary (Some tmp) 0)
  end.

(** [insert] up to its last statement, the call of [help_resize]. *)
Definition insert_before_migration {T : Type} (m : t T) (node : HNode T)
  : result (t T) :=
  primary ← (if HTable.empty (primary_table_ m) then HTable.make k_min_cap
             else Ok (primary_table_ m));
  primary ← HTable.insert primary node;
  let m := mk primary (temporary_table_ m) (resizing_pos_ m) in
  match temporary_table_ m with
  | Some _ => Ok m
  | None =>
      if HTable.capacity primary =? 0 then Fail Undefined
      else
        let load_factor := HTable.size primary / HTable.capacity primary in
        if k_max_load_factor <=? load_factor then start_resize m
        else Ok m
  end.

Definition insert {T : Type} (fuel : nat) (m : t T) (node : HNode T)
  : result (t T) :=
  m ← insert_before_migration m node;
  help_resize fuel m.

Definition find {T : Type} (fuel : nat) (m : t T) (key : HNode T)
    (comparator : HNode T → HNode T → bool)
  : result (option (HNode T) * t T) :=
  m ← help_resize fuel m;
  found ← HTable.lookup (primary_table_ m) key comparator;
  match found with
  | Some node => Ok (Some node, m)
  | None =>
      match temporary_table_ m with
      | Some tmp =>
          found ← HTable.lookup tmp key comparator;
          match found with
          | Some node => Ok (Some node, m)
          | None => Ok (None, m)
          end
      | None => Ok (None, m)
      end
  end.

Definition remove {T : Type} (fuel : nat) (m : t T) (key : HNode T)
    (comparator : HNode T → HNode T → bool)
  : result (option (HNode T) * t T) :=
  m ← help_resize fuel m;
  '(found, primary) ← HTable.remove (primary_table_ m) key comparator;
  match found with
  | Some node =>
      Ok (Some node, mk primary (temporary_table_ m) (resizing_pos_ m))
  | None =>
      match temporary_table_ m with
      | Some tmp =>
          '(found, tmp) ← HTable.remove tmp key comparator;
          match found with
          | Some node =>
              Ok (Some node, mk primary (Some tmp) (resizing_pos_ m))
          | None => Ok (None, mk primary (Some tmp) (resizing_pos_ m))
          end
      | None => Ok (None, mk primary None (resizing_pos_ m))
      end
  end.

End HMap.

(** ** Sequences of dictionary operations *)

Inductive op (T : Type) : Type :=
| Insert (node : HNode T)
| Find (key : HNode T) (comparator : HNode T → HNode T → bool)
| Remove (key : HNode T) (comparator : HNode T → HNode T → bool).
Arguments Insert {T} node.
Arguments Find {T} key comparator.
Arguments Remove {T} key comparator.

Definition is_insert {T : Type} (o : op T) : bool :=
  match o with
  | Insert _ => true
  | _ => false
  end.

(** One call on the dictionary; the value a lookup or a removal hands
    back is dropped. *)
Definition call {T : Type} (fuel : nat) (m : HMap.t T) (o : op T)
  : result (HMap.t T) :=
  match o with
  | Insert node => HMap.insert fuel m node
  | Find key comparator =>
      '(_, m) ← HMap.find fuel m key comparator; Ok m
  | Remove key comparator =>
      '(_, m) ← HMap.remove fuel m key comparator; Ok m
  end.

Fixpoint run {T : Type} (fuel : nat) (m : HMap.t T) (ops : list (op T))
  : result (HMap.t T) :=
  match ops with
  | [] => Ok m
  | o :: ops => m ← call fuel m o; run fuel m ops
  end.

(** The states a caller can bring a fresh dictionary into with fewer than
    2^64 calls. *)
Definition reachable {T : Type} (m : HMap.t T) : Prop :=
  ∃ fuel ops,
    Z.of_nat (length ops) < 2 ^ 64 ∧ run fuel HMap.default ops = Ok m.

(** ** Observations *)

(** The nodes a table owns, bucket after bucket. *)
Definition entries {T : Type} (tb : HTable.t T) : list (HNode T) :=
  mjoin (HTable.buckets_ tb).

Definition retiring_entries {T : Type} (m : HMap.t T) : list (HNode T) :=
  match HMap.temporary_table_ m with
  | Some tmp => entries tmp
  | None => []
  end.

Definition all_entries {T : Type} (m : HMap.t T) : list (HNode T) :=
  entries (HMap.primary_table_ m) ++ retiring_entries m.

Definition is_pow2 (c : Z) : Prop := ∃ k, 0 ≤ k ∧ c = 2 ^ k.

(** "A power of two greater than or equal to 4". *)
Definition capacity_ok (c : Z) : Prop := is_pow2 c ∧ 4 ≤ c.

(** ** Representation invariants *)

(** An initialised table: as many slots as [mask_ + 1], a power of two
    from 4 up, every node in the slot its digest selects, and a counter
    that is a [size_t]. *)
Record table_ok {T : Type} (tb : HTable.t T) : Prop := mk_table_ok {
  ok_length : Z.of_nat (length (HTable.buckets_ tb)) = HTable.mask_ tb + 1;
  ok_pow2 : is_pow2 (HTable.mask_ tb + 1);
  ok_min : 4 ≤ HTable.mask_ tb + 1;
  ok_max : HTable.mask_ tb + 1 ≤ 2 ^ 62;
  ok_slot : ∀ (i : nat) chain node,
      HTable.buckets_ tb !! i = Some chain → node ∈ chain →
      Z.land (hcode_ node) (HTable.mask_ tb) = Z.of_nat i;
  ok_size : 0 ≤ HTable.size_ tb < 2 ^ 64
}.

(** The current table is initialised by the first insertion. *)
Definition primary_ok {T : Type} (tb : HTable.t T) : Prop :=
  tb = HTable.default ∨ table_ok tb.

Definition map_ok {T : Type} (m : HMap.t T) : Prop :=
  0 ≤ HMap.resizing_pos_ m ∧
  match HMap.temporary_table_ m with
  | Some tmp => table_ok (HMap.primary_table_ m) ∧ table_ok tmp
  | None => primary_ok (HMap.primary_table_ m)
  end.

(** The counter of a table has not fallen below the nodes it owns. *)
Definition sized {T : Type} (tb : HTable.t T) : Prop :=
  Z.of_nat (length (entries tb)) ≤ HTable.size_ tb.

(** The counter of a table is the number of nodes it owns. *)
Definition counted {T : Type} (tb : HTable.t T) : Prop :=
  HTable.size_ tb = Z.of_nat (length (entries tb)).

(** Every slot the migration cursor has left behind is drained. *)
Definition drained_before {T : Type} (tb : HTable.t T) (pos : Z) : Prop :=
  ∀ (i : nat) chain,
    HTable.buckets_ tb !! i = Some chain → Z.of_nat i < pos → chain = [].

(** The sum [size()] wraps around. *)
Definition total_size {T : Type} (m : HMap.t T) : Z :=
  HTable.size_ (HMap.primary_table_ m)
  + match HMap.temporary_table_ m with
    | Some tmp => HTable.size_ tmp
    | None => 0
    end.

Definition map_sized {T : Type} (m : HMap.t T) : Prop :=
  map_ok m ∧ sized (HMap.primary_table_ m) ∧
  match HMap.temporary_table_ m with
  | Some tmp => sized tmp
  | None => True
  end ∧
  total_size m < 2 ^ 64.

Definition map_counted {T : Type} (m : HMap.t T) : Prop :=
  map_ok m ∧ counted (HMap.primary_table_ m) ∧
  match HMap.temporary_table_ m with
  | Some tmp => counted tmp ∧ drained_before tmp (HMap.resizing_pos_ m)
  | None => True
  end ∧
  total_size m < 2 ^ 64.

(** The comparator answers [true] on [key] only for nodes of the digest
    of [key]. *)
Definition digest_consistent {T : Type}
    (comparator : HNode T → HNode T → bool) (key : HNode T) : Prop :=
  ∀ node, comparator node key = true → hcode_ node = hcode_ key.

(** ** Notions used in the statements and proofs *)

Section Notions.
Context {T : Type}.
Implicit Types (p tmp tb : HTable.t T) (m : HMap.t T).

(** The table [initialize] builds from nothing: [c] empty slots. *)
Definition fresh (c : Z) : HTable.t T :=
  HTable.mk (replicate (Z.to_nat c) []) (c - 1) 0.

(** The current table once [insert] has made sure there is one. *)
Definition ensured m : HTable.t T :=
  if HTable.empty (HMap.primary_table_ m) then fresh 4
  else HMap.primary_table_ m.

(** The state [insert] hands to [help_resize], given the table [p1] that
    holds the new node. *)
Definition before_migration m p1 : HMap.t T :=
  match HMap.temporary_table_ m with
  | Some tmp => HMap.mk p1 (Some tmp) (HMap.resizing_pos_ m)
  | None =>
      if 8 <=? HTable.size_ p1 / (HTable.mask_ p1 + 1)
      then HMap.mk (fresh (2 * (HTable.mask_ p1 + 1))) (Some p1) 0
      else HMap.mk p1 None (HMap.resizing_pos_ m)
  end.

(** The slot a round of the migration loop looks at. *)
Definition cursor tmp (pos : Z) : Z :=
  if HTable.capacity tmp <=? pos then 0 else pos.

(** The two ways a round of the loop can go. *)
Inductive round p tmp (pos work_done : Z)
  : HTable.t T → HTable.t T → Z → Z → Prop :=
| round_transfer node next p' :
    HTable.buckets_ tmp !! Z.to_nat (cursor tmp pos) = Some (node :: next) →
    HTable.insert p node = Ok p' →
    round p tmp pos work_done
      p'
      (HTable.mk (<[Z.to_nat (cursor tmp pos) := next]> (HTable.buckets_ tmp))
                 (HTable.mask_ tmp) (wrap64 (HTable.size_ tmp - 1)))
      (cursor tmp pos) (wrap64 (work_done + 1))
| round_advance :
    HTable.buckets_ tmp !! Z.to_nat (cursor tmp pos) = Some [] →
    round p tmp pos work_done p tmp (wrap64 (cursor tmp pos + 1)) work_done.

(** The nodes a run of rounds has moved, as seen from both tables. *)
Definition gained p0 tmp0 (w0 : Z) p tmp (w : Z) : Prop :=
  ∃ moved,
    entries p ≡ₚ moved ++ entries p0 ∧
    entries tmp0 ≡ₚ moved ++ entries tmp ∧
    Z.of_nat (length moved) = w - w0 ∧
    w0 ≤ w ≤ 15.

(** The same, with what the run has done to the retiring table. *)
Definition moved_between p0 tmp0 (w0 : Z) p tmp (w : Z) : Prop :=
  gained p0 tmp0 w0 p tmp w ∧
  Forall2 sublist (HTable.buckets_ tmp) (HTable.buckets_ tmp0) ∧
  HTable.mask_ tmp = HTable.mask_ tmp0 ∧
  HTable.size_ tmp = HTable.size_ tmp0 - (w - w0) ∧
  0 ≤ HTable.size_ tmp.

(** From [m] to [m'] at most [n] nodes went from the retiring table to
    the current one, and nothing else happened to the current one. *)
Definition migrated_at_most (n : nat) m m' : Prop :=
  ∃ moved,
    (length moved ≤ n)%nat ∧
    entries (HMap.primary_table_ m')
      ≡ₚ moved ++ entries (HMap.primary_table_ m) ∧
    match HMap.temporary_table_ m' with
    | Some tmp' => retiring_entries m ≡ₚ moved ++ entries tmp'
    | None => True
    end.

(** The retiring table of [m'], if there is one, is [tmp] with nodes
    taken out of its chains, under a counter that has not gone up. *)
Definition retiring_not_grown tmp m' : Prop :=
  match HMap.temporary_table_ m' with
  | Some tmp' =>
      HTable.size tmp' ≤ HTable.size tmp ∧
      Forall2 sublist (HTable.buckets_ tmp') (HTable.buckets_ tmp)
  | None => True
  end.

(** How many nodes of a list the comparator matches with [key]. *)
Fixpoint count_matching (comparator : HNode T → HNode T → bool)
    (key : HNode T) (l : list (HNode T)) : nat :=
  match l with
  | [] => 0
  | node :: l =>
      (if comparator node key then 1 else 0)
      + count_matching comparator key l
  end.

(** Exactly one node of the dictionary matches [key]. *)
Definition stored_once m (key : HNode T)
    (comparator : HNode T → HNode T → bool) : Prop :=
  count_matching comparator key (all_entries m) = 1%nat.

Definition in_primary m (key : HNode T)
    (comparator : HNode T → HNode T → bool) : Prop :=
  ∃ node, HTable.lookup (HMap.primary_table_ m) key comparator = Ok (Some node).

Definition in_retiring m (key : HNode T)
    (comparator : HNode T → HNode T → bool) : Prop :=
  ∃ tmp node, HMap.temporary_table_ m = Some tmp ∧
              HTable.lookup tmp key comparator = Ok (Some node).

(** [lookup] finds a match for [key] in one of the two tables and not in
    the other. *)
Definition in_one_table m (key : HNode T)
    (comparator : HNode T → HNode T → bool) : Prop :=
  (in_primary m key comparator ∧ ¬ in_retiring m key comparator) ∨
  (¬ in_primary m key comparator ∧ in_retiring m key comparator).

(** A call that neither stores nor detaches a node matching [key]; the
    two halves of [insert], before and after [start_resize] has had its
    chance, are steps of their own. *)
Inductive keeps (key : HNode T) (comparator : HNode T → HNode T → bool)
  : HMap.t T → HMap.t T → Prop :=
| keeps_help_resize fuel m m' :
    HMap.help_resize fuel m = Ok m' → keeps key comparator m m'
| keeps_before_migration m node m' :
    comparator node key = false → total_size m + 1 < 2 ^ 64 →
    HMap.insert_before_migration m node = Ok m' → keeps key comparator m m'
| keeps_insert fuel m node m' :
    comparator node key = false → total_size m + 1 < 2 ^ 64 →
    HMap.insert fuel m node = Ok m' → keeps key comparator m m'
| keeps_find fuel m key' comparator' r m' :
    HMap.find fuel m key' comparator' = Ok (r, m') → keeps key comparator m m'
| keeps_remove fuel m key' comparator' r m' :
    HMap.remove fuel m key' comparator' = Ok (r, m') →
    (∀ node, r = Some node → comparator node key = false) →
    keeps key comparator m m'.

(** No resize in progress, [n] nodes in a current table of capacity 4
    (or in none yet), under counters that count. *)
Definition stable_at_4 m (n : Z) : Prop :=
  map_counted m ∧ HMap.temporary_table_ m = None ∧ total_size m = n ∧
  HTable.mask_ (ensured m) = 3.

(** [insert] calls [start_resize] on [node]. *)
Definition starts_resize m (node : HNode T) : Prop :=
  HMap.temporary_table_ m = None ∧
  match HMap.insert_before_migration m node with
  | Ok m1 => is_Some (HMap.temporary_table_ m1)
  | Fail _ => False
  end.

End Notions.

(** ** A caller: integer keys *)

(** The node of key [k] under the caller's digest function. *)
Definition digest_node (digest : Z → Z) (k : Z) : HNode Z :=
  mkHNode (digest k) k.

(** The node of a key that is its own digest. *)
Definition key_node (k : Z) : HNode Z := mkHNode k k.

Definition same_key (a b : HNode Z) : bool :=
  (hcode_ a =? hcode_ b) && (payload a =? payload b).

(** The keys [0 .. n-1]. *)
Definition keys_upto (n : nat) : list Z := Z.of_nat <$> seq 0 n.

Definition insert_keys (ks : list Z) : list (op Z) :=
  (λ k, Insert (key_node k)) <$> ks.

(** The specification's count: the distinct keys inserted and not
    removed since, over a sequence of calls. *)
Fixpoint keys_present (ops : list (op Z)) (present : list Z) : list Z :=
  match ops with
  | [] => present
  | Insert node :: ops =>
      keys_present ops
        (if bool_decide (payload node ∈ present) then present
         else payload node :: present)
  | Find _ _ :: ops => keys_present ops present
  | Remove key _ :: ops =>
      keys_present ops (List.filter (λ k, negb (k =? payload key)) present)
  end.

Definition spec_size (ops : list (op Z)) : Z :=
  Z.of_nat (length (keys_present ops [])).

(** The state a sequence of calls leaves a fresh dictionary in. *)
Definition state_after (fuel : nat) (ops : list (op Z)) : HMap.t Z :=
  match run fuel HMap.default ops with
  | Ok m => m
  | Fail _ => HMap.default
  end.
Arguments state_after : simpl never.

(** Its retiring table, or an empty table when it has none. *)
Definition retiring_of (m : HMap.t Z) : HTable.t Z :=
  match HMap.temporary_table_ m with
  | Some tmp => tmp
  | None => HTable.default
  end.

(** Two keys inserted and removed, thirty keys inserted, one lookup. *)
Definition removals_then_resize : list (op Z) :=
  [Insert (key_node 100); Insert (key_node 101);
   Remove (key_node 100) same_key; Remove (key_node 101) same_key]
  ++ insert_keys (keys_upto 30) ++ [Find (key_node 0) same_key].

(** ** Notions of the invariants of reachable states *)

Definition is_find {T : Type} (o : op T) : bool :=
  match o with
  | Find _ _ => true
  | _ => false
  end.

Section Invariants.
Context {T : Type}.
Implicit Types (m : HMap.t T).

(** What the two counters say about the load. Without a retiring table
    the current one is untouched or counts at least one node, and fewer
    than eight per slot. With one, of capacity [c], the current table has
    capacity [2 * c]; the retiring counter started from [8 * c], what is
    missing from it has been moved over, and the current counter exceeds
    that by one for every fifteen nodes moved, at most. [slack] is 1 in
    the middle of [insert], between its two halves, and 0 elsewhere. *)
Definition balanced (slack : Z) m : Prop :=
  match HMap.temporary_table_ m with
  | None =>
      (HMap.primary_table_ m = HTable.default ∨
       0 < HTable.size_ (HMap.primary_table_ m)) ∧
      HTable.size_ (HMap.primary_table_ m)
        < 8 * (HTable.mask_ (HMap.primary_table_ m) + 1)
  | Some tmp =>
      HTable.mask_ (HMap.primary_table_ m) + 1 = 2 * (HTable.mask_ tmp + 1) ∧
      1 - slack ≤ HTable.size_ (HMap.primary_table_ m) ∧
      0 < HTable.size_ tmp ≤ 8 * (HTable.mask_ tmp + 1) ∧
      15 * (HTable.size_ (HMap.primary_table_ m) + HTable.size_ tmp
            - 8 * (HTable.mask_ tmp + 1))
        ≤ 8 * (HTable.mask_ tmp + 1) - HTable.size_ tmp + 15 * slack
  end.

(** Where [resizing_pos_] stands between two calls: at 0 without a
    retiring table, and otherwise on a slot of the retiring table, with
    nothing but drained slots behind it. *)
Definition cursor_ok m : Prop :=
  match HMap.temporary_table_ m with
  | None => HMap.resizing_pos_ m = 0
  | Some tmp =>
      0 ≤ HMap.resizing_pos_ m < HTable.capacity tmp ∧
      drained_before tmp (HMap.resizing_pos_ m)
  end.

End Invariants.

(** The dictionary after the insertion of the keys 0..31, in the middle of
    its first migration. *)
Definition mid_migration : HMap.t Z :=
  state_after 64 (insert_keys (keys_upto 32)).
Arguments mid_migration : simpl never.

(** * Proofs *)

(** ** hash_string *)

Lemma wrap64_small x : 0 ≤ x < 2 ^ 64 → wrap64 x = x.
Proof. intros. unfold wrap64. by apply Z.mod_small. Qed.

Lemma wrap64_range x : 0 ≤ wrap64 x < 2 ^ 64.
Proof. unfold wrap64. apply Z.mod_pos_bound. lia. Qed.

Lemma at_lookup {A} (v : list A) (i : nat) x :
  v !! i = Some x → at_ v (Z.of_nat i) = Ok x.
Proof.
  intros H. unfold at_. rewrite Nat2Z.id, H.
  destruct (Z.leb_spec 0 (Z.of_nat i)); [done | lia].
Qed.

Lemma at_middle {A} (pre suf : list A) x :
  at_ (pre ++ x :: suf) (Z.of_nat (length pre)) = Ok x.
Proof. apply at_lookup. by rewrite list_lookup_middle. Qed.

Lemma fnv1a_32_spec_fold data : fnv1a_32_spec data = fold_left mix data INITIAL.
Proof. reflexivity. Qed.

Lemma fold_mix_range data h :
  0 ≤ h < 2 ^ 32 → 0 ≤ fold_left mix data h < 2 ^ 32.
Proof.
  revert h. induction data as [|b data IH]; intros h Hh; simpl; [done |].
  apply IH. unfold mix, wrap32. apply Z.mod_pos_bound. lia.
Qed.

Lemma hash_tail_spec suf : ∀ fuel pre hash len,
  len = Z.of_nat (length (pre ++ suf)) → len < 2 ^ 64 →
  (length suf ≤ fuel)%nat →
  hash_tail fuel (pre ++ suf) len (Z.of_nat (length pre)) hash
  = Ok (fold_left mix suf hash).
Proof.
  induction suf as [|b suf IH]; intros fuel pre hash len Hlen Hmax Hfuel.
  - rewrite app_nil_r in *. destruct fuel; simpl;
      (destruct (Z.ltb_spec (Z.of_nat (length pre)) len); [lia | done]).
  - destruct fuel as [|fuel]; [simpl in Hfuel; lia |].
    rewrite length_app in Hlen. simpl in Hlen, Hfuel. simpl.
    destruct (Z.ltb_spec (Z.of_nat (length pre)) len); [| lia].
    rewrite at_middle. simpl.
    rewrite wrap64_small by lia.
    replace (Z.of_nat (length pre) + 1) with (Z.of_nat (length (pre ++ [b])))
      by (rewrite length_app; simpl; lia).
    rewrite (cons_middle b pre suf), app_assoc.
    apply IH; [| done | lia].
    rewrite !length_app. simpl. lia.
Qed.

Lemma hash_unrolled_spec fuel : ∀ suf pre hash len,
  len = Z.of_nat (length (pre ++ suf)) → len + 4 < 2 ^ 64 →
  (length suf < 4 * fuel + 4)%nat →
  ∃ mid rest, suf = mid ++ rest ∧ (length rest < 4)%nat ∧
    hash_unrolled fuel (pre ++ suf) len (Z.of_nat (length pre)) hash
    = Ok (Z.of_nat (length (pre ++ mid)), fold_left mix mid hash).
Proof.
  induction fuel as [|fuel IH]; intros suf pre hash len Hlen Hmax Hfuel.
  - exists [], suf. rewrite app_nil_r. split; [done |]. split; [lia |].
    rewrite length_app in Hlen. simpl.
    rewrite wrap64_small by lia.
    destruct (Z.leb_spec (Z.of_nat (length pre) + 4) len); [lia | done].
  - rewrite length_app in Hlen.
    destruct (decide (length suf < 4)%nat) as [Hshort | Hlong].
    + exists [], suf. rewrite app_nil_r. split; [done |]. split; [lia |].
      simpl. rewrite wrap64_small by lia.
      destruct (Z.leb_spec (Z.of_nat (length pre) + 4) len); [lia | done].
    + destruct suf as [|b0 [|b1 [|b2 [|b3 suf]]]]; simpl in Hlong; try lia.
      simpl in Hlen, Hfuel.
      destruct (IH suf (pre ++ [b0; b1; b2; b3]) (mix (mix (mix (mix hash b0) b1) b2) b3) len)
        as (mid & rest & -> & Hrest & Hrun).
      { rewrite !length_app. simpl. lia. }
      { done. }
      { lia. }
      exists (b0 :: b1 :: b2 :: b3 :: mid), rest.
      split; [done |]. split; [done |].
      cbn [hash_unrolled].
      rewrite !wrap64_small by lia.
      destruct (Z.leb_spec (Z.of_nat (length pre) + 4) len); [| lia].
      rewrite at_middle. cbn [mbind result_bind].
      replace (Z.of_nat (length pre) + 1) with (Z.of_nat (length (pre ++ [b0])))
        by (rewrite length_app; simpl; lia).
      rewrite (cons_middle b0 pre), app_assoc, at_middle. cbn [mbind result_bind].
      replace (Z.of_nat (length pre) + 2) with (Z.of_nat (length (pre ++ [b0; b1])))
        by (rewrite length_app; simpl; lia).
      replace ((pre ++ [b0]) ++ b1 :: b2 :: b3 :: mid ++ rest)
        with ((pre ++ [b0; b1]) ++ b2 :: b3 :: mid ++ rest)
        by (by rewrite <- !app_assoc).
      rewrite at_middle. cbn [mbind result_bind].
      replace (Z.of_nat (length pre) + 3) with (Z.of_nat (length (pre ++ [b0; b1; b2])))
        by (rewrite length_app; simpl; lia).
      replace ((pre ++ [b0; b1]) ++ b2 :: b3 :: mid ++ rest)
        with ((pre ++ [b0; b1; b2]) ++ b3 :: mid ++ rest)
        by (by rewrite <- !app_assoc).
      rewrite at_middle. cbn [mbind result_bind].
      replace (Z.of_nat (length pre) + 4) with (Z.of_nat (length (pre ++ [b0; b1; b2; b3])))
        by (rewrite length_app; simpl; lia).
      replace ((pre ++ [b0; b1; b2]) ++ b3 :: mid ++ rest)
        with ((pre ++ [b0; b1; b2; b3]) ++ mid ++ rest)
        by (by rewrite <- !app_assoc).
      rewrite Hrun. f_equal. f_equal.
      rewrite !length_app. simpl. lia.
Qed.

(** C4 — For every buffer [data] of [len] bytes (with [len + 4] below
    2^64, as for any buffer in a 64-bit address space), [hash_string]
    returns, and what it returns is a function of the bytes alone: the
    32-bit FNV-1a digest of the sequence, from the offset basis 0x811C9DC5
    with the prime 0x01000193, one byte at a time. The loop unrolled four
    times and the tail loop together compute the plain byte-wise fold, and
    the 64-bit result is below 2^32. *)
Theorem hash_string_fnv1a (data : list byte) (len : Z) :
  len = Z.of_nat (length data) → len + 4 < 2 ^ 64 →
  hash_string data len = Ok (fnv1a_32_spec data)
  ∧ 0 ≤ fnv1a_32_spec data < 2 ^ 32.
Proof.
  intros Hlen Hmax. split.
  - unfold hash_string.
    destruct (hash_unrolled_spec (S (Z.to_nat len)) data [] INITIAL len)
      as (mid & rest & -> & Hrest & Hrun); [done | done | lia |].
    simpl app in Hrun. simpl length in Hrun at 1. change (Z.of_nat 0) with 0 in Hrun.
    rewrite Hrun. cbn [mbind result_bind].
    rewrite hash_tail_spec;
      [| done | lia | rewrite length_app in Hlen; lia].
    by rewrite fnv1a_32_spec_fold, fold_left_app.
  - rewrite fnv1a_32_spec_fold. apply fold_mix_range. by compute.
Qed.

Lemma hash_string_fnv1a_witness :
  5 = Z.of_nat (length ["a"; "b"; "c"; "d"; "e"]%byte) ∧ 5 + 4 < 2 ^ 64 ∧
  hash_string ["a"; "b"; "c"; "d"; "e"]%byte 5 = Ok (fnv1a_32_spec ["a"; "b"; "c"; "d"; "e"]%byte)
  ∧ 0 ≤ fnv1a_32_spec ["a"; "b"; "c"; "d"; "e"]%byte < 2 ^ 32.
Proof.
  split; [reflexivity |]. split; [lia |].
  apply (hash_string_fnv1a ["a"; "b"; "c"; "d"; "e"]%byte 5); [reflexivity | lia].
Defined.

(** ** Arithmetic of capacities *)

Lemma bind_Ok {A B} (m : result A) (k : A → result B) b :
  m ≫= k = Ok b → ∃ a, m = Ok a ∧ k a = Ok b.
Proof. destruct m as [a|f]; simpl; [eauto | done]. Qed.

Lemma land_mask_range h m : is_pow2 (m + 1) → 0 ≤ Z.land h m < m + 1.
Proof.
  intros (k & Hk & Hm).
  replace m with (Z.ones k) by (rewrite Z.ones_equiv; lia).
  rewrite Z.land_ones by done. rewrite Z.ones_equiv.
  pose proof (Z.mod_pos_bound h (2 ^ k)). lia.
Qed.

Lemma has_single_bit_pow2 k : 0 ≤ k → has_single_bit (2 ^ k) = true.
Proof.
  intros Hk. unfold has_single_bit.
  assert (0 < 2 ^ k) by (apply Z.pow_pos_nonneg; lia).
  apply andb_true_iff. split; [by apply Z.ltb_lt |].
  apply Z.eqb_eq.
  replace (2 ^ k - 1) with (Z.ones k) by (rewrite Z.ones_equiv; lia).
  rewrite Z.land_ones by done. apply Z_mod_same_full.
Qed.

Lemma is_pow2_double c : is_pow2 c → is_pow2 (c * 2).
Proof.
  intros (k & Hk & ->). exists (k + 1). split; [lia |].
  rewrite Z.pow_add_r by lia. lia.
Qed.

Lemma is_pow2_4 : is_pow2 4.
Proof. by exists 2. Qed.

Lemma bit_ceil_pow2 c : is_pow2 c → c ≤ 2 ^ 63 → bit_ceil c = Ok c.
Proof.
  intros (k & Hk & ->) Hmax. unfold bit_ceil.
  destruct (Z.leb_spec (2 ^ k) 1) as [Hle | Hgt].
  - assert (0 < 2 ^ k) by (apply Z.pow_pos_nonneg; lia).
    f_equal. lia.
  - destruct (Z.leb_spec (2 ^ k) (2 ^ 63)); [| lia].
    by rewrite Z.log2_up_pow2.
Qed.

(** ** Bucket arithmetic *)

Section Table.
Context {T : Type}.
Implicit Types (tb : HTable.t T) (node key : HNode T).
Implicit Types (chain : list (HNode T)).
Implicit Types (comparator : HNode T → HNode T → bool).

Lemma entries_insert_cons (bs : list (list (HNode T))) i chain node :
  bs !! i = Some chain →
  mjoin (<[i := node :: chain]> bs) ≡ₚ node :: mjoin bs.
Proof.
  intros Hi.
  rewrite insert_take_drop by (by eapply lookup_lt_Some).
  generalize (take_drop_middle bs i chain Hi).
  generalize (take i bs) (drop (S i) bs). intros pre suf <-.
  rewrite !join_app. simpl.
  symmetry. apply Permutation_middle.
Qed.

Lemma entries_insert_tail (bs : list (list (HNode T))) i chain node :
  bs !! i = Some (node :: chain) →
  node :: mjoin (<[i := chain]> bs) ≡ₚ mjoin bs.
Proof.
  intros Hi.
  rewrite insert_take_drop by (by eapply lookup_lt_Some).
  generalize (take_drop_middle bs i _ Hi).
  generalize (take i bs) (drop (S i) bs). intros pre suf <-.
  rewrite !join_app. simpl.
  apply Permutation_middle.
Qed.

Lemma slot_in_range tb h :
  table_ok tb →
  ∃ chain, HTable.buckets_ tb !! Z.to_nat (Z.land h (HTable.mask_ tb)) = Some chain
           ∧ at_ (HTable.buckets_ tb) (Z.land h (HTable.mask_ tb)) = Ok chain.
Proof.
  intros Hok.
  pose proof (land_mask_range h _ (ok_pow2 _ Hok)) as Hr.
  pose proof (ok_length _ Hok) as Hl.
  destruct (lookup_lt_is_Some_2 (HTable.buckets_ tb)
              (Z.to_nat (Z.land h (HTable.mask_ tb)))) as [chain Hc]; [lia |].
  exists chain. split; [done |].
  rewrite <- (Z2Nat.id (Z.land h (HTable.mask_ tb))) at 1 by lia.
  by apply at_lookup.
Qed.

Lemma table_ok_nonempty tb : table_ok tb → ∃ b bs, HTable.buckets_ tb = b :: bs.
Proof.
  intros Hok. pose proof (ok_length _ Hok). pose proof (ok_min _ Hok).
  destruct (HTable.buckets_ tb) as [|b bs]; [simpl in *; lia | eauto].
Qed.

Lemma table_ok_capacity tb :
  table_ok tb → HTable.capacity tb = HTable.mask_ tb + 1.
Proof.
  intros Hok. unfold HTable.capacity.
  pose proof (ok_min _ Hok). pose proof (ok_max _ Hok).
  apply wrap64_small. lia.
Qed.

End Table.

Section TableOps.
Context {T : Type}.
Implicit Types (tb : HTable.t T) (node key : HNode T).
Implicit Types (chain : list (HNode T)).
Implicit Types (comparator : HNode T → HNode T → bool).

(** *** Fresh tables *)

Lemma entries_fresh c : entries (@fresh T c) = [].
Proof.
  unfold entries, fresh. simpl. apply join_nil_2, Forall_replicate. done.
Qed.

Lemma table_ok_fresh c : is_pow2 c → 4 ≤ c → c ≤ 2 ^ 62 → table_ok (@fresh T c).
Proof.
  intros Hp Hmin Hmax. unfold fresh. split; simpl.
  - rewrite length_replicate. lia.
  - by replace (c - 1 + 1) with c by lia.
  - lia.
  - lia.
  - intros i chain node [-> _]%lookup_replicate Hin. by apply elem_of_nil in Hin.
  - lia.
Qed.

Lemma make_pow2 c :
  is_pow2 c → 4 ≤ c → c ≤ 2 ^ 62 → HTable.make c = Ok (@fresh T c).
Proof.
  intros Hp Hmin Hmax. unfold HTable.make.
  destruct (Z.ltb_spec 0 c); [| lia].
  rewrite bit_ceil_pow2 by (done || lia). simpl.
  unfold HTable.initialize.
  destruct Hp as (k & Hk & ->). rewrite has_single_bit_pow2 by done.
  unfold HTable.k_min_cap. rewrite Z.max_l by lia.
  unfold fresh. simpl. rewrite resize_nil.
  rewrite wrap64_small by lia. done.
Qed.

(** *** insert *)

Lemma insert_spec tb node :
  table_ok tb →
  ∃ chain,
    HTable.buckets_ tb !! Z.to_nat (Z.land (hcode_ node) (HTable.mask_ tb))
      = Some chain ∧
    HTable.insert tb node =
      Ok (HTable.mk
            (<[Z.to_nat (Z.land (hcode_ node) (HTable.mask_ tb)) := node :: chain]>
               (HTable.buckets_ tb))
            (HTable.mask_ tb) (wrap64 (HTable.size_ tb + 1))).
Proof.
  intros Hok.
  destruct (slot_in_range tb (hcode_ node) Hok) as (chain & Hc & Hat).
  exists chain. split; [done |].
  unfold HTable.insert.
  destruct (table_ok_nonempty tb Hok) as (b & bs & Hbs).
  rewrite Hbs. simpl. rewrite <- Hbs. by rewrite Hat.
Qed.

Lemma table_ok_cons tb node chain sz :
  table_ok tb →
  HTable.buckets_ tb !! Z.to_nat (Z.land (hcode_ node) (HTable.mask_ tb))
    = Some chain →
  0 ≤ sz < 2 ^ 64 →
  table_ok (HTable.mk
              (<[Z.to_nat (Z.land (hcode_ node) (HTable.mask_ tb)) := node :: chain]>
                 (HTable.buckets_ tb))
              (HTable.mask_ tb) sz).
Proof.
  intros Hok Hc Hsz.
  pose proof (land_mask_range (hcode_ node) _ (ok_pow2 _ Hok)) as Hr.
  split; simpl; try (by destruct Hok).
  - rewrite length_insert. by destruct Hok.
  - intros i c n Hi Hn.
    destruct (decide (i = Z.to_nat (Z.land (hcode_ node) (HTable.mask_ tb)))) as [-> | Hne].
    + rewrite list_lookup_insert_eq in Hi by (by eapply lookup_lt_Some).
      injection Hi as <-.
      apply elem_of_cons in Hn as [-> | Hn]; [lia |].
      by apply (ok_slot _ Hok _ chain).
    + rewrite list_lookup_insert_ne in Hi by done.
      by apply (ok_slot _ Hok _ c).
Qed.

Lemma insert_ok tb node :
  table_ok tb →
  ∃ tb', HTable.insert tb node = Ok tb' ∧ table_ok tb' ∧
         entries tb' ≡ₚ node :: entries tb ∧
         HTable.mask_ tb' = HTable.mask_ tb ∧
         HTable.size_ tb' = wrap64 (HTable.size_ tb + 1).
Proof.
  intros Hok. destruct (insert_spec tb node Hok) as (chain & Hc & ->).
  eexists. split; [done |]. split; [| split; [| done]].
  - apply table_ok_cons; [done | done | apply wrap64_range].
  - by apply entries_insert_cons.
Qed.

(** *** lookup *)

Lemma lookup_chain_Some comparator key chain node :
  HTable.lookup_chain comparator key chain = Some node →
  node ∈ chain ∧ comparator node key = true.
Proof.
  induction chain as [|n chain IH]; simpl; [done |].
  destruct (comparator n key) eqn:E.
  - intros [= <-]. split; [left | done].
  - intros [Hin Hc]%IH. split; [by right | done].
Qed.

Lemma lookup_chain_None comparator key chain :
  HTable.lookup_chain comparator key chain = None ↔
  ∀ node, node ∈ chain → comparator node key = false.
Proof.
  induction chain as [|n chain IH]; simpl.
  - split; [| done]. intros _ node Hin. by apply elem_of_nil in Hin.
  - destruct (comparator n key) eqn:E.
    + split; [done |]. intros H. specialize (H n (list_elem_of_here _ _)). congruence.
    + rewrite IH. split.
      * intros H node [-> | Hin]%elem_of_cons; auto.
      * intros H node Hin. apply H. by right.
Qed.

Lemma lookup_spec tb key comparator :
  table_ok tb →
  ∃ chain,
    HTable.buckets_ tb !! Z.to_nat (Z.land (hcode_ key) (HTable.mask_ tb))
      = Some chain ∧
    HTable.lookup tb key comparator
      = Ok (HTable.lookup_chain comparator key chain).
Proof.
  intros Hok.
  destruct (slot_in_range tb (hcode_ key) Hok) as (chain & Hc & Hat).
  exists chain. split; [done |].
  unfold HTable.lookup.
  destruct (table_ok_nonempty tb Hok) as (b & bs & Hbs).
  rewrite Hbs. simpl. rewrite <- Hbs. by rewrite Hat.
Qed.

Lemma elem_of_entries tb node :
  node ∈ entries tb ↔
  ∃ (i : nat) chain, HTable.buckets_ tb !! i = Some chain ∧ node ∈ chain.
Proof.
  unfold entries. rewrite list_elem_of_join. split.
  - intros (chain & Hn & (i & Hi)%list_elem_of_lookup_1). eauto.
  - intros (i & chain & Hi & Hn). exists chain. split; [done |].
    by eapply list_elem_of_lookup_2.
Qed.

Lemma lookup_Some tb key comparator node :
  table_ok tb →
  HTable.lookup tb key comparator = Ok (Some node) →
  node ∈ entries tb ∧ comparator node key = true.
Proof.
  intros Hok Hl.
  destruct (lookup_spec tb key comparator Hok) as (chain & Hc & Heq).
  rewrite Heq in Hl. injection Hl as Hl.
  apply lookup_chain_Some in Hl as [Hin Hcmp]. split; [| done].
  apply elem_of_entries. eauto.
Qed.

Lemma lookup_None tb key comparator :
  table_ok tb → digest_consistent comparator key →
  HTable.lookup tb key comparator = Ok None ↔
  ∀ node, node ∈ entries tb → comparator node key = false.
Proof.
  intros Hok Hcons.
  destruct (lookup_spec tb key comparator Hok) as (chain & Hc & Heq).
  rewrite Heq. split.
  - intros [= Hnone] node (i & c & Hi & Hn)%elem_of_entries.
    destruct (comparator node key) eqn:E; [| done].
    pose proof (ok_slot _ Hok i c node Hi Hn) as Hslot.
    rewrite (Hcons node E) in Hslot.
    rewrite Hslot, Nat2Z.id in Hc.
    assert (c = chain) as -> by congruence.
    rewrite lookup_chain_None in Hnone. rewrite (Hnone node Hn) in E. done.
  - intros Hall. f_equal. apply lookup_chain_None.
    intros node Hn. apply Hall, elem_of_entries. eauto.
Qed.

Lemma lookup_total tb key comparator :
  table_ok tb → ∃ r, HTable.lookup tb key comparator = Ok r.
Proof.
  intros Hok. destruct (lookup_spec tb key comparator Hok) as (chain & _ & ->).
  eauto.
Qed.

(** *** remove *)

Lemma remove_chain_Some comparator key chain node relinked :
  HTable.remove_chain comparator key chain = Some (node, relinked) →
  HTable.lookup_chain comparator key chain = Some node ∧
  chain ≡ₚ node :: relinked ∧ sublist relinked chain.
Proof.
  revert node relinked.
  induction chain as [|n chain IH]; intros node relinked; simpl; [done |].
  destruct (comparator n key) eqn:E.
  - intros [= <- <-]. split; [done |]. split; [done |]. by apply sublist_cons.
  - destruct (HTable.remove_chain comparator key chain) as [[found next']|] eqn:Er; [| done].
    intros [= <- <-].
    destruct (IH found next' eq_refl) as (Hl & Hp & Hs).
    split; [done |]. split.
    + rewrite Hp. apply perm_swap.
    + by apply sublist_skip.
Qed.

Lemma remove_chain_None comparator key chain :
  HTable.remove_chain comparator key chain = None ↔
  HTable.lookup_chain comparator key chain = None.
Proof.
  induction chain as [|n chain IH]; simpl; [done |].
  destruct (comparator n key) eqn:E; [done |].
  rewrite <- IH.
  destruct (HTable.remove_chain comparator key chain) as [[found next']|]; done.
Qed.

Lemma remove_spec tb key comparator :
  table_ok tb →
  ∃ chain,
    HTable.buckets_ tb !! Z.to_nat (Z.land (hcode_ key) (HTable.mask_ tb))
      = Some chain ∧
    HTable.remove tb key comparator =
      match HTable.remove_chain comparator key chain with
      | Some (node, relinked) =>
          Ok (Some node,
              HTable.mk
                (<[Z.to_nat (Z.land (hcode_ key) (HTable.mask_ tb)) := relinked]>
                   (HTable.buckets_ tb))
                (HTable.mask_ tb) (HTable.size_ tb))
      | None => Ok (None, tb)
      end.
Proof.
  intros Hok.
  destruct (slot_in_range tb (hcode_ key) Hok) as (chain & Hc & Hat).
  exists chain. split; [done |].
  unfold HTable.remove.
  destruct (table_ok_nonempty tb Hok) as (b & bs & Hbs).
  rewrite Hbs. simpl. rewrite <- Hbs. rewrite Hat. simpl.
  by destruct (HTable.remove_chain comparator key chain) as [[??]|].
Qed.

Lemma table_ok_relink tb (i : nat) chain relinked sz :
  table_ok tb → HTable.buckets_ tb !! i = Some chain →
  sublist relinked chain → 0 ≤ sz < 2 ^ 64 →
  table_ok (HTable.mk (<[i := relinked]> (HTable.buckets_ tb))
                      (HTable.mask_ tb) sz).
Proof.
  intros Hok Hc Hsub Hsz.
  split; simpl; try (by destruct Hok).
  - rewrite length_insert. by destruct Hok.
  - intros j c n Hj Hn.
    destruct (decide (j = i)) as [-> | Hne].
    + rewrite list_lookup_insert_eq in Hj by (by eapply lookup_lt_Some).
      injection Hj as <-.
      apply (ok_slot _ Hok _ chain); [done |].
      by eapply elem_of_sublist.
    + rewrite list_lookup_insert_ne in Hj by done.
      by apply (ok_slot _ Hok _ c).
Qed.

Lemma entries_relink (bs : list (list (HNode T))) (i : nat) chain node relinked :
  bs !! i = Some chain → chain ≡ₚ node :: relinked →
  mjoin bs ≡ₚ node :: mjoin (<[i := relinked]> bs).
Proof.
  intros Hi Hp.
  rewrite insert_take_drop by (by eapply lookup_lt_Some).
  generalize (take_drop_middle bs i chain Hi).
  generalize (take i bs) (drop (S i) bs). intros pre suf <-.
  rewrite !join_app. simpl. rewrite Hp. simpl.
  symmetry. apply Permutation_middle.
Qed.

Lemma remove_ok tb key comparator :
  table_ok tb →
  ∃ r tb', HTable.remove tb key comparator = Ok (r, tb') ∧
    HTable.lookup tb key comparator = Ok r ∧
    table_ok tb' ∧
    HTable.size_ tb' = HTable.size_ tb ∧ HTable.mask_ tb' = HTable.mask_ tb ∧
    Forall2 sublist (HTable.buckets_ tb') (HTable.buckets_ tb) ∧
    match r with
    | Some node => entries tb ≡ₚ node :: entries tb'
    | None => tb' = tb
    end.
Proof.
  intros Hok.
  destruct (remove_spec tb key comparator Hok) as (chain & Hc & ->).
  destruct (lookup_spec tb key comparator Hok) as (chain' & Hc' & ->).
  assert (chain' = chain) as -> by congruence.
  destruct (HTable.remove_chain comparator key chain) as [[node relinked]|] eqn:Er.
  - apply remove_chain_Some in Er as (Hl & Hp & Hs).
    eexists _, _. split; [done |]. split; [by rewrite Hl |].
    split; [eapply table_ok_relink; eauto; by destruct Hok |].
    split; [done |]. split; [done |]. split.
    + simpl. apply Forall2_same_length_lookup_2.
      { by rewrite length_insert. }
      intros j x y Hx Hy.
      destruct (decide (j = Z.to_nat (Z.land (hcode_ key) (HTable.mask_ tb)))) as [-> | Hne].
      * rewrite list_lookup_insert_eq in Hx by (by eapply lookup_lt_Some).
        congruence.
      * rewrite list_lookup_insert_ne in Hx by done.
        assert (x = y) as -> by congruence. done.
    + by eapply entries_relink.
  - apply remove_chain_None in Er.
    eexists _, _. split; [done |]. split; [by rewrite Er |].
    split; [done |]. split; [done |]. split; [done |]. split; [| done].
    apply Forall2_same_length_lookup_2; [done |].
    intros j x y Hx Hy. assert (x = y) as -> by congruence. done.
Qed.

Lemma remove_default key comparator :
  HTable.remove (@HTable.default T) key comparator = Ok (None, HTable.default).
Proof. reflexivity. Qed.

Lemma lookup_default key comparator :
  HTable.lookup (@HTable.default T) key comparator = Ok None.
Proof. reflexivity. Qed.

End TableOps.

Section Migration.
Context {T : Type}.
Implicit Types (p tmp tb : HTable.t T) (node key : HNode T).
Implicit Types (m : HMap.t T).

Lemma at_Ok {A} (v : list A) i x :
  at_ v i = Ok x → 0 ≤ i ∧ v !! Z.to_nat i = Some x.
Proof.
  unfold at_. destruct (Z.leb_spec 0 i); [| done].
  destruct (v !! Z.to_nat i); [| done]. by intros [= ->].
Qed.

(** Whatever the table, an insertion that returns has added the node. *)
Lemma insert_entries tb node tb' :
  HTable.insert tb node = Ok tb' → entries tb' ≡ₚ node :: entries tb.
Proof.
  unfold HTable.insert. intros (tb0 & H0 & H)%bind_Ok.
  apply bind_Ok in H as (head & [_ Hhead]%at_Ok & [= <-]).
  unfold entries. simpl.
  destruct (HTable.buckets_ tb) as [|b bs] eqn:Hb.
  - unfold HTable.initialize in H0. simpl in H0. injection H0 as <-.
    simpl in *. rewrite Hb in *. simpl.
    etrans; [by apply entries_insert_cons |].
    done.
  - injection H0 as <-. rewrite Hb in *. by apply entries_insert_cons.
Qed.

(** *** One round of the loop *)

Lemma body_round p tmp pos w p' tmp' pos' w' :
  HMap.help_resize_body p tmp pos w = Ok (p', tmp', pos', w') →
  0 ≤ cursor tmp pos ∧ round p tmp pos w p' tmp' pos' w'.
Proof.
  unfold HMap.help_resize_body. fold (cursor tmp pos).
  intros (bucket & [Hq Hb]%at_Ok & H)%bind_Ok. split; [done |].
  destruct bucket as [|node next].
  - injection H as <- <- <- <-. by constructor.
  - apply bind_Ok in H as (p1 & Hins & [= <- <- <- <-]).
    simpl. by eapply round_transfer.
Qed.

Lemma guard_true tmp w :
  HMap.help_resize_guard tmp w = true ↔ w < 15 ∧ HTable.size_ tmp ≠ 0.
Proof.
  unfold HMap.help_resize_guard, HMap.max_work, HTable.empty.
  rewrite andb_true_iff, negb_true_iff, Z.ltb_lt, Z.eqb_neq. done.
Qed.

Lemma guard_false tmp w :
  HMap.help_resize_guard tmp w = false ↔ 15 ≤ w ∨ HTable.size_ tmp = 0.
Proof.
  unfold HMap.help_resize_guard, HMap.max_work, HTable.empty.
  rewrite andb_false_iff, negb_false_iff, Z.ltb_ge, Z.eqb_eq. done.
Qed.

(** *** The invariant rule of the loop *)

Lemma loop_invariant (I : HTable.t T → HTable.t T → Z → Z → Prop) :
  (∀ p tmp pos w p' tmp' pos' w',
      I p tmp pos w → w < 15 → HTable.size_ tmp ≠ 0 →
      0 ≤ cursor tmp pos →
      round p tmp pos w p' tmp' pos' w' → I p' tmp' pos' w') →
  ∀ fuel p tmp pos w p' tmp' pos' w',
    I p tmp pos w →
    HMap.help_resize_loop fuel p tmp pos w = Ok (p', tmp', pos', w') →
    I p' tmp' pos' w' ∧ (15 ≤ w' ∨ HTable.size_ tmp' = 0).
Proof.
  intros Hstep fuel.
  induction fuel as [|fuel IH]; intros p tmp pos w p' tmp' pos' w' HI; simpl;
    destruct (HMap.help_resize_guard tmp w) eqn:Hg; try done.
  - intros [= <- <- <- <-]. by apply guard_false in Hg.
  - intros ([[[p1 tmp1] pos1] w1] & Hbody & Hloop)%bind_Ok.
    apply body_round in Hbody as [Hq Hr].
    apply guard_true in Hg as [Hw Hs].
    eapply IH; [| done]. eapply Hstep; eauto.
  - intros [= <- <- <- <-]. by apply guard_false in Hg.
Qed.

Lemma loop_fuel_mono fuel : ∀ fuel' p tmp pos w r,
  (fuel ≤ fuel')%nat →
  HMap.help_resize_loop fuel p tmp pos w = Ok r →
  HMap.help_resize_loop fuel' p tmp pos w = Ok r.
Proof.
  induction fuel as [|fuel IH]; intros fuel' p tmp pos w r Hle; simpl;
    destruct (HMap.help_resize_guard tmp w) eqn:Hg; try done.
  - intros [= <-]. destruct fuel'; simpl; by rewrite Hg.
  - destruct fuel' as [|fuel']; [lia |]. simpl. rewrite Hg.
    intros ([[[p1 tmp1] pos1] w1] & -> & Hloop)%bind_Ok. simpl.
    apply IH; [lia | done].
  - intros [= <-]. destruct fuel'; simpl; by rewrite Hg.
Qed.

End Migration.

Section Rounds.
Context {T : Type}.
Implicit Types (p tmp tb : HTable.t T) (node key : HNode T).
Implicit Types (m : HMap.t T).

Lemma Forall2_sublist_refl (bs : list (list (HNode T))) : Forall2 sublist bs bs.
Proof. apply Forall2_same_length_lookup_2; [done |]. intros i x y ??. by simplify_eq. Qed.

Lemma Forall2_sublist_insert (bs bs0 : list (list (HNode T))) (i : nat) c c' :
  Forall2 sublist bs bs0 → bs !! i = Some c → sublist c' c →
  Forall2 sublist (<[i := c']> bs) bs0.
Proof.
  intros HF Hi Hs.
  apply Forall2_same_length_lookup_2.
  { rewrite length_insert. by eapply Forall2_length. }
  intros j x y Hx Hy.
  destruct (decide (j = i)) as [-> | Hne].
  - rewrite list_lookup_insert_eq in Hx by (by eapply lookup_lt_Some).
    injection Hx as <-.
    etrans; [done |]. by eapply Forall2_lookup_lr.
  - rewrite list_lookup_insert_ne in Hx by done.
    by eapply Forall2_lookup_lr.
Qed.

(** *** Work of a run of rounds, in any state *)

Lemma round_gained p0 tmp0 w0 p tmp pos w p' tmp' pos' w' :
  0 ≤ w0 → gained p0 tmp0 w0 p tmp w → w < 15 →
  round p tmp pos w p' tmp' pos' w' →
  gained p0 tmp0 w0 p' tmp' w'.
Proof.
  intros Hw0 (moved & Hp & Ht & Hlen & Hw) Hlt Hr.
  destruct Hr as [node next p' Hb Hins | Hb]; [| by exists moved].
  exists (node :: moved). simpl.
  rewrite (wrap64_small (w + 1)) by lia.
  split; [by rewrite (insert_entries _ _ _ Hins), Hp |].
  split; [| lia].
  rewrite Ht. unfold entries at 1. simpl.
  rewrite <- (entries_insert_tail _ _ _ _ Hb).
  symmetry. apply Permutation_middle.
Qed.

Lemma gained_refl p tmp w : 0 ≤ w ≤ 15 → gained p tmp w p tmp w.
Proof. intros Hw. exists []. simpl. split; [done |]. split; [done |]. lia. Qed.

Lemma loop_gain fuel p tmp pos w p' tmp' pos' w' :
  0 ≤ w ≤ 15 →
  HMap.help_resize_loop fuel p tmp pos w = Ok (p', tmp', pos', w') →
  gained p tmp w p' tmp' w'.
Proof.
  intros Hw Hloop.
  eapply (loop_invariant (λ p1 tmp1 _ w1, gained p tmp w p1 tmp1 w1));
    [| by apply gained_refl | exact Hloop].
  intros. eapply round_gained; eauto; lia.
Qed.

(** *** The same on a counter that is a [size_t] *)

Lemma moved_between_refl p tmp w :
  0 ≤ w ≤ 15 → 0 ≤ HTable.size_ tmp → moved_between p tmp w p tmp w.
Proof.
  intros Hw Hs. split; [by apply gained_refl |].
  split; [apply Forall2_sublist_refl |]. split; [done |]. lia.
Qed.

Lemma round_moved p0 tmp0 w0 p tmp pos w p' tmp' pos' w' :
  0 ≤ w0 → HTable.size_ tmp0 < 2 ^ 64 →
  moved_between p0 tmp0 w0 p tmp w →
  w < 15 → HTable.size_ tmp ≠ 0 →
  round p tmp pos w p' tmp' pos' w' →
  moved_between p0 tmp0 w0 p' tmp' w'.
Proof.
  intros Hw0 Hmax (Hg & Hsub & Hmask & Hsize & Hpos) Hlt Hne Hr.
  split; [by eapply round_gained |].
  destruct Hg as (_ & _ & _ & _ & Hw).
  destruct Hr as [node next p' Hb Hins | Hb]; [| done]. simpl.
  rewrite (wrap64_small (w + 1)) by lia.
  rewrite (wrap64_small (HTable.size_ tmp - 1)) by lia.
  split.
  { eapply Forall2_sublist_insert; [done | done |]. by apply sublist_cons. }
  split; [done |]. lia.
Qed.

Lemma loop_moved fuel p tmp pos w p' tmp' pos' w' :
  0 ≤ w ≤ 15 → 0 ≤ HTable.size_ tmp < 2 ^ 64 →
  HMap.help_resize_loop fuel p tmp pos w = Ok (p', tmp', pos', w') →
  moved_between p tmp w p' tmp' w' ∧ (15 ≤ w' ∨ HTable.size_ tmp' = 0).
Proof.
  intros Hw Hs Hloop.
  eapply (loop_invariant (λ p1 tmp1 _ w1, moved_between p tmp w p1 tmp1 w1));
    [| | exact Hloop].
  - intros. eapply round_moved; eauto; lia.
  - apply moved_between_refl; lia.
Qed.

(** *** Structure *)

Lemma round_table_ok p tmp pos w p' tmp' pos' w' :
  table_ok p → table_ok tmp →
  HTable.size_ tmp ≠ 0 →
  round p tmp pos w p' tmp' pos' w' →
  table_ok p' ∧ table_ok tmp' ∧
  HTable.mask_ p' = HTable.mask_ p ∧ HTable.mask_ tmp' = HTable.mask_ tmp ∧
  wrap64 (HTable.size_ p' + HTable.size_ tmp')
    = wrap64 (HTable.size_ p + HTable.size_ tmp).
Proof.
  intros Hp Ht Hne Hr.
  destruct Hr as [node next p' Hb Hins | Hb]; [| done].
  destruct (insert_ok p node Hp) as (p1 & Hins' & Hok1 & _ & Hmask & Hsize).
  assert (p1 = p') as -> by congruence.
  pose proof (ok_size _ Ht) as Hst.
  split; [done |]. split.
  { eapply table_ok_relink; [done | done | by apply sublist_cons | apply wrap64_range]. }
  split; [done |]. split; [done |]. simpl.
  rewrite Hsize. rewrite (wrap64_small (HTable.size_ tmp - 1)) by lia.
  unfold wrap64. rewrite Zplus_mod_idemp_l. f_equal. lia.
Qed.

Lemma loop_table_ok fuel p tmp pos w p' tmp' pos' w' :
  table_ok p → table_ok tmp →
  HMap.help_resize_loop fuel p tmp pos w = Ok (p', tmp', pos', w') →
  table_ok p' ∧ table_ok tmp' ∧
  HTable.mask_ p' = HTable.mask_ p ∧ HTable.mask_ tmp' = HTable.mask_ tmp ∧
  wrap64 (HTable.size_ p' + HTable.size_ tmp')
    = wrap64 (HTable.size_ p + HTable.size_ tmp).
Proof.
  intros Hp Ht Hloop.
  eapply (loop_invariant (λ p1 tmp1 _ _,
            table_ok p1 ∧ table_ok tmp1 ∧
            HTable.mask_ p1 = HTable.mask_ p ∧ HTable.mask_ tmp1 = HTable.mask_ tmp ∧
            wrap64 (HTable.size_ p1 + HTable.size_ tmp1)
              = wrap64 (HTable.size_ p + HTable.size_ tmp)));
    [| | exact Hloop]; [| done].
  intros p1 tmp1 pos1 w1 p2 tmp2 pos2 w2 (Hp1 & Ht1 & Hm1 & Hm2 & Hs1) _ Hne _ Hr.
  destruct (round_table_ok _ _ _ _ _ _ _ _ Hp1 Ht1 Hne Hr) as (? & ? & ? & ? & ?).
  split; [done |]. split; [done |]. split; [congruence |]. split; congruence.
Qed.

(** *** The cursor *)

Lemma cursor_cases tmp pos :
  table_ok tmp → 0 ≤ pos →
  (cursor tmp pos = pos ∧ pos < HTable.mask_ tmp + 1) ∨
  (cursor tmp pos = 0 ∧ HTable.mask_ tmp + 1 ≤ pos).
Proof.
  intros Hok Hpos. unfold cursor. rewrite table_ok_capacity by done.
  destruct (Z.leb_spec (HTable.mask_ tmp + 1) pos); [right | left]; done.
Qed.

Lemma drained_before_cursor tmp pos :
  table_ok tmp → 0 ≤ pos → drained_before tmp pos →
  drained_before tmp (cursor tmp pos).
Proof.
  intros Hok Hpos Hd.
  destruct (cursor_cases tmp pos Hok Hpos) as [[-> _] | [-> _]]; [done |].
  intros i c _ ?. lia.
Qed.

Lemma round_cursor p tmp pos w p' tmp' pos' w' :
  table_ok tmp → 0 ≤ pos → drained_before tmp pos →
  round p tmp pos w p' tmp' pos' w' →
  0 ≤ pos' ∧ drained_before tmp' pos'.
Proof.
  intros Hok Hpos Hd Hr.
  pose proof (drained_before_cursor tmp pos Hok Hpos Hd) as Hdc.
  assert (0 ≤ cursor tmp pos) as Hq.
  { destruct (cursor_cases tmp pos Hok Hpos) as [[-> _] | [-> _]]; lia. }
  destruct Hr as [node next p' Hb Hins | Hb].
  - split; [done |]. intros i c Hi Hlt. simpl in Hi.
    rewrite list_lookup_insert_ne in Hi by lia. by eapply Hdc.
  - pose proof (lookup_lt_Some _ _ _ Hb) as Hlen.
    pose proof (ok_length _ Hok). pose proof (ok_max _ Hok).
    rewrite wrap64_small by lia. split; [lia |].
    intros i c Hi Hlt.
    destruct (decide (Z.of_nat i = cursor tmp pos)) as [Heq | Hne].
    + rewrite <- Heq, Nat2Z.id in Hb. congruence.
    + eapply Hdc; [done | lia].
Qed.

Lemma loop_pos_nonneg fuel p tmp pos w p' tmp' pos' w' :
  0 ≤ pos →
  HMap.help_resize_loop fuel p tmp pos w = Ok (p', tmp', pos', w') →
  0 ≤ pos'.
Proof.
  intros Hpos Hloop.
  eapply (loop_invariant (λ _ _ pos1 _, 0 ≤ pos1)); [| exact Hpos | exact Hloop].
  intros p1 tmp1 pos1 w1 p2 tmp2 pos2 w2 _ _ _ Hq Hr.
  destruct Hr; [done | apply wrap64_range].
Qed.

(** Between initialised tables a round has no undefined step. *)
Lemma body_defined p tmp pos w :
  table_ok p → table_ok tmp → 0 ≤ pos →
  ∃ p' tmp' pos' w', HMap.help_resize_body p tmp pos w = Ok (p', tmp', pos', w').
Proof.
  intros Hp Ht Hpos.
  unfold HMap.help_resize_body. fold (cursor tmp pos).
  pose proof (ok_length _ Ht). pose proof (ok_min _ Ht).
  assert (0 ≤ cursor tmp pos < HTable.mask_ tmp + 1) as Hq.
  { destruct (cursor_cases tmp pos Ht Hpos) as [[-> ?] | [-> ?]]; lia. }
  destruct (lookup_lt_is_Some_2 (HTable.buckets_ tmp) (Z.to_nat (cursor tmp pos)))
    as [c Hb]; [lia |].
  assert (at_ (HTable.buckets_ tmp) (cursor tmp pos) = Ok c) as ->.
  { rewrite <- (Z2Nat.id (cursor tmp pos)) at 1 by lia. by apply at_lookup. }
  simpl.
  destruct c as [|node next]; [by eauto |].
  destruct (insert_ok p node Hp) as (p1 & -> & _). simpl. eauto.
Qed.

Lemma loop_defined fuel : ∀ p tmp pos w,
  table_ok p → table_ok tmp → 0 ≤ pos →
  (∃ r, HMap.help_resize_loop fuel p tmp pos w = Ok r) ∨
  HMap.help_resize_loop fuel p tmp pos w = Fail OutOfFuel.
Proof.
  induction fuel as [|fuel IH]; intros p tmp pos w Hp Ht Hpos; simpl;
    destruct (HMap.help_resize_guard tmp w) eqn:Hg; eauto.
  destruct (body_defined p tmp pos w Hp Ht Hpos)
    as (p1 & tmp1 & pos1 & w1 & Hbody).
  rewrite Hbody. simpl.
  apply guard_true in Hg as [_ Hne].
  apply body_round in Hbody as [Hq Hr].
  destruct (round_table_ok _ _ _ _ _ _ _ _ Hp Ht Hne Hr) as (Hp1 & Ht1 & _).
  apply IH; [done | done |].
  destruct Hr; [done | apply wrap64_range].
Qed.

(** *** Counters that count *)

Lemma moved_between_sized p0 tmp0 w0 p tmp w :
  moved_between p0 tmp0 w0 p tmp w → sized tmp0 → sized tmp.
Proof.
  intros ((moved & _ & Ht & Hl & _) & _ & _ & Hs & _). unfold sized.
  rewrite Ht, length_app. lia.
Qed.

Lemma moved_between_counted p0 tmp0 w0 p tmp w :
  moved_between p0 tmp0 w0 p tmp w → counted tmp0 → counted tmp.
Proof.
  intros ((moved & _ & Ht & Hl & _) & _ & _ & Hs & _). unfold counted.
  rewrite Ht, length_app. lia.
Qed.

Lemma drained_all_empty tmp pos :
  table_ok tmp → drained_before tmp pos → HTable.mask_ tmp + 1 ≤ pos →
  entries tmp = [].
Proof.
  intros Hok Hd Hle. unfold entries. apply join_nil_2.
  apply Forall_lookup_2. intros i c Hi. eapply Hd; [done |].
  pose proof (lookup_lt_Some _ _ _ Hi). pose proof (ok_length _ Hok). lia.
Qed.

(** In a table whose counter counts, the loop finds a node before the
    cursor leaves the vector. *)
Lemma body_total p tmp pos w :
  table_ok p → table_ok tmp → counted tmp → 0 ≤ pos →
  drained_before tmp pos → HTable.size_ tmp ≠ 0 →
  pos < HTable.mask_ tmp + 1 ∧ cursor tmp pos = pos ∧
  ∃ p' tmp' pos' w', HMap.help_resize_body p tmp pos w = Ok (p', tmp', pos', w').
Proof.
  intros Hp Ht Hc Hpos Hd Hne.
  destruct (cursor_cases tmp pos Ht Hpos) as [[Hq Hlt] | [_ Hge]].
  2:{ rewrite Hc, (drained_all_empty tmp pos) in Hne by done. done. }
  split; [done |]. split; [done |].
  unfold HMap.help_resize_body. fold (cursor tmp pos). rewrite Hq.
  pose proof (ok_length _ Ht).
  destruct (lookup_lt_is_Some_2 (HTable.buckets_ tmp) (Z.to_nat pos)) as [c Hb]; [lia |].
  assert (at_ (HTable.buckets_ tmp) pos = Ok c) as ->.
  { rewrite <- (Z2Nat.id pos) at 1 by done. by apply at_lookup. }
  simpl.
  destruct c as [|node next]; [by eauto |].
  destruct (insert_ok p node Hp) as (p1 & -> & _). simpl. eauto.
Qed.

Lemma loop_terminates fuel : ∀ p tmp pos w,
  table_ok p → table_ok tmp → counted tmp → 0 ≤ pos →
  drained_before tmp pos → 0 ≤ w ≤ 15 →
  HTable.mask_ tmp + 1 - pos + (15 - w) ≤ Z.of_nat fuel →
  ∃ r, HMap.help_resize_loop fuel p tmp pos w = Ok r.
Proof.
  induction fuel as [|fuel IH]; intros p tmp pos w Hp Ht Hc Hpos Hd Hw Hfuel;
    simpl; destruct (HMap.help_resize_guard tmp w) eqn:Hg; eauto.
  - apply guard_true in Hg as [Hlt Hne].
    destruct (body_total p tmp pos w) as (? & _); try done. lia.
  - apply guard_true in Hg as [Hlt Hne].
    destruct (body_total p tmp pos w) as (Hin & Hq & p1 & tmp1 & pos1 & w1 & Hbody);
      try done.
    rewrite Hbody. simpl.
    apply body_round in Hbody as [_ Hr].
    destruct (round_table_ok _ _ _ _ _ _ _ _ Hp Ht Hne Hr) as (Hp1 & Ht1 & _ & Hm & _).
    destruct (round_cursor _ _ _ _ _ _ _ _ Ht Hpos Hd Hr) as (Hpos1 & Hd1).
    assert (moved_between p tmp w p1 tmp1 w1) as Hmv.
    { eapply round_moved; [| | apply moved_between_refl | | | exact Hr];
        try lia; pose proof (ok_size _ Ht); lia. }
    pose proof (moved_between_counted _ _ _ _ _ _ Hmv Hc) as Hc1.
    destruct Hmv as ((_ & _ & _ & _ & Hw1) & _).
    apply IH; [done | done | done | done | done | lia |].
    rewrite Hm. pose proof (ok_max _ Ht).
    destruct Hr as [node next p' Hb Hins | Hb].
    + rewrite Hq. rewrite wrap64_small by lia. lia.
    + rewrite Hq. rewrite wrap64_small by lia. lia.
Qed.

End Rounds.

Lemma size_transfer a a' b k :
  0 ≤ a' < 2 ^ 64 → 0 ≤ a → 0 ≤ k ≤ b → a + b < 2 ^ 64 →
  wrap64 (a' + (b - k)) = wrap64 (a + b) → a' = a + k.
Proof.
  intros Ha' Ha Hk Hsum. unfold wrap64.
  rewrite (Z.mod_small (a + b)) by lia. intros Hmod.
  pose proof (Z.div_mod (a' + (b - k)) (2 ^ 64)) as Hdm.
  rewrite Hmod in Hdm. lia.
Qed.

Section Slice.
Context {T : Type}.
Implicit Types (p tmp tb : HTable.t T) (node key : HNode T).
Implicit Types (m : HMap.t T).

Lemma help_resize_inv fuel m m' :
  HMap.help_resize fuel m = Ok m' →
  (HMap.temporary_table_ m = None ∧ m' = m) ∨
  (∃ tmp p' tmp' pos' w',
      HMap.temporary_table_ m = Some tmp ∧
      HMap.help_resize_loop fuel (HMap.primary_table_ m) tmp
        (HMap.resizing_pos_ m) 0 = Ok (p', tmp', pos', w') ∧
      ((HTable.size_ tmp' = 0 ∧ m' = HMap.mk p' None 0) ∨
       (HTable.size_ tmp' ≠ 0 ∧ m' = HMap.mk p' (Some tmp') pos'))).
Proof.
  unfold HMap.help_resize.
  destruct (HMap.temporary_table_ m) as [tmp|]; [| intros [= <-]; by left].
  intros ([[[p' tmp'] pos'] w'] & Hloop & H)%bind_Ok. right.
  exists tmp, p', tmp', pos', w'. split; [done |]. split; [done |].
  unfold HTable.empty in H.
  destruct (Z.eqb_spec (HTable.size_ tmp') 0); injection H as <-; eauto.
Qed.

Lemma help_resize_fuel_mono fuel fuel' m m' :
  (fuel ≤ fuel')%nat →
  HMap.help_resize fuel m = Ok m' → HMap.help_resize fuel' m = Ok m'.
Proof.
  intros Hle. unfold HMap.help_resize.
  destruct (HMap.temporary_table_ m) as [tmp|]; [| done].
  intros (r & Hloop & H)%bind_Ok.
  by rewrite (loop_fuel_mono _ _ _ _ _ _ _ Hle Hloop).
Qed.

(** A slice keeps the structure of both tables and the sum of their
    counters. *)
Lemma help_resize_ok fuel m m' :
  map_ok m → HMap.help_resize fuel m = Ok m' →
  map_ok m' ∧ HMap.size m' = HMap.size m ∧
  (table_ok (HMap.primary_table_ m) →
   table_ok (HMap.primary_table_ m') ∧
   HTable.mask_ (HMap.primary_table_ m') = HTable.mask_ (HMap.primary_table_ m)).
Proof.
  intros Hok [[Hnone ->] | Hsome]%help_resize_inv; [done |].
  destruct Hsome as (tmp & p' & tmp' & pos' & w' & Htmp & Hloop & Hend).
  unfold map_ok in Hok. rewrite Htmp in Hok. destruct Hok as (Hpos & Hp & Ht).
  destruct (loop_table_ok _ _ _ _ _ _ _ _ _ Hp Ht Hloop)
    as (Hp' & Ht' & Hmp & Hmt & Hsz).
  pose proof (loop_pos_nonneg _ _ _ _ _ _ _ _ _ Hpos Hloop) as Hpos'.
  unfold HMap.size, HTable.size. rewrite Htmp.
  destruct Hend as [[Hz ->] | [Hnz ->]]; unfold map_ok; simpl.
  - split; [split; [done | by right] |]. split; [| done].
    rewrite <- Hsz, Hz. done.
  - split; [done |]. done.
Qed.

(** The nodes a slice moves leave the retiring table for the current
    one; none is made, lost or copied. *)
Lemma help_resize_entries fuel m m' :
  map_ok m →
  (∀ tmp, HMap.temporary_table_ m = Some tmp → sized tmp) →
  HMap.help_resize fuel m = Ok m' →
  ∃ moved,
    entries (HMap.primary_table_ m')
      ≡ₚ moved ++ entries (HMap.primary_table_ m) ∧
    retiring_entries m ≡ₚ moved ++ retiring_entries m' ∧
    (length moved ≤ 15)%nat ∧
    (∀ tmp', HMap.temporary_table_ m' = Some tmp' → sized tmp').
Proof.
  intros Hok Hsized [[Hnone ->] | Hsome]%help_resize_inv.
  { exists []. simpl. split; [done |]. split; [done |]. split; [lia | done]. }
  destruct Hsome as (tmp & p' & tmp' & pos' & w' & Htmp & Hloop & Hend).
  unfold map_ok in Hok. rewrite Htmp in Hok. destruct Hok as (_ & Hp & Ht).
  pose proof (ok_size _ Ht) as Hst.
  assert (0 ≤ 0 ≤ 15) as Hw0 by lia.
  destruct (loop_moved _ _ _ _ _ _ _ _ _ Hw0 Hst Hloop) as [Hmv _].
  pose proof (moved_between_sized _ _ _ _ _ _ Hmv (Hsized _ Htmp)) as Hsz'.
  destruct Hmv as ((moved & Hpe & Hte & Hlen & Hw) & _).
  exists moved. unfold retiring_entries. rewrite Htmp.
  destruct Hend as [[Hz ->] | [Hnz ->]]; simpl.
  - split; [done |]. split; [| split; [lia | done]].
    rewrite Hte. unfold sized in Hsz'. rewrite Hz in Hsz'.
    by destruct (entries tmp'); [| simpl in Hsz'; lia].
  - split; [done |]. split; [done |]. split; [lia |].
    by intros ? [= <-].
Qed.

Lemma help_resize_all_entries fuel m m' :
  map_ok m →
  (∀ tmp, HMap.temporary_table_ m = Some tmp → sized tmp) →
  HMap.help_resize fuel m = Ok m' →
  all_entries m' ≡ₚ all_entries m.
Proof.
  intros Hok Hs Hr.
  destruct (help_resize_entries _ _ _ Hok Hs Hr) as (moved & Hp & Ht & _).
  unfold all_entries. rewrite Hp, Ht.
  rewrite (assoc_L (++) (entries _) moved).
  apply Permutation_app_tail, Permutation_app_comm.
Qed.

(** The retiring table only ever gives nodes away. *)
Lemma help_resize_retiring fuel m m' tmp :
  HMap.temporary_table_ m = Some tmp → 0 ≤ HTable.size_ tmp < 2 ^ 64 →
  HMap.help_resize fuel m = Ok m' →
  match HMap.temporary_table_ m' with
  | Some tmp' =>
      HTable.size_ tmp' ≤ HTable.size_ tmp ∧ 0 ≤ HTable.size_ tmp' ∧
      Forall2 sublist (HTable.buckets_ tmp') (HTable.buckets_ tmp)
  | None => True
  end ∧
  ∃ moved, entries (HMap.primary_table_ m')
             ≡ₚ moved ++ entries (HMap.primary_table_ m).
Proof.
  intros Htmp Hst [[Hnone ->] | Hsome]%help_resize_inv; [congruence |].
  destruct Hsome as (tmp0 & p' & tmp' & pos' & w' & Htmp' & Hloop & Hend).
  assert (tmp0 = tmp) as -> by congruence.
  assert (0 ≤ 0 ≤ 15) as Hw0 by lia.
  destruct (loop_moved _ _ _ _ _ _ _ _ _ Hw0 Hst Hloop) as [Hmv _].
  destruct Hmv as ((moved & Hpe & Hte & Hlen & Hw) & Hsub & _ & Hsz & Hnn).
  destruct Hend as [[Hz ->] | [Hnz ->]]; simpl; (split; [| by exists moved]).
  - done.
  - split; [lia |]. done.
Qed.

End Slice.

Section SliceCounters.
Context {T : Type}.
Implicit Types (p tmp tb : HTable.t T) (node key : HNode T).
Implicit Types (m : HMap.t T).

(** With counters that do not wrap, a run of rounds moves as many units
    of [size_] as it moves nodes. *)
Lemma loop_sizes fuel p tmp pos p' tmp' pos' w' :
  table_ok p → table_ok tmp →
  HTable.size_ p + HTable.size_ tmp < 2 ^ 64 →
  HMap.help_resize_loop fuel p tmp pos 0 = Ok (p', tmp', pos', w') →
  ∃ moved,
    entries p' ≡ₚ moved ++ entries p ∧
    entries tmp ≡ₚ moved ++ entries tmp' ∧
    HTable.size_ p' = HTable.size_ p + Z.of_nat (length moved) ∧
    HTable.size_ tmp' = HTable.size_ tmp - Z.of_nat (length moved) ∧
    table_ok p' ∧ table_ok tmp'.
Proof.
  intros Hp Ht Hsum Hloop.
  pose proof (ok_size _ Ht) as Hst. pose proof (ok_size _ Hp) as Hsp.
  assert (0 ≤ 0 ≤ 15) as Hw0 by lia.
  destruct (loop_moved _ _ _ _ _ _ _ _ _ Hw0 Hst Hloop) as [Hmv _].
  destruct (loop_table_ok _ _ _ _ _ _ _ _ _ Hp Ht Hloop)
    as (Hp' & Ht' & _ & _ & Hsz).
  destruct Hmv as ((moved & Hpe & Hte & Hlen & Hw) & _ & _ & Hsize & Hnn).
  exists moved. split; [done |]. split; [done |].
  pose proof (ok_size _ Hp') as Hsp'.
  rewrite Hsize in Hsz.
  apply size_transfer in Hsz; [| lia | lia | lia | lia].
  split; [lia |]. split; [lia |]. done.
Qed.

Lemma help_resize_sized fuel m m' :
  map_sized m → HMap.help_resize fuel m = Ok m' →
  map_sized m' ∧ total_size m' = total_size m ∧
  all_entries m' ≡ₚ all_entries m.
Proof.
  intros (Hok & Hsp & Hst & Hsum) Hr.
  assert (all_entries m' ≡ₚ all_entries m) as Hperm.
  { eapply help_resize_all_entries; [done | | done].
    intros tmp Htmp. by rewrite Htmp in Hst. }
  destruct (help_resize_ok _ _ _ Hok Hr) as (Hok' & _ & _).
  apply help_resize_inv in Hr as [[Hnone ->] | Hsome]; [done |].
  destruct Hsome as (tmp & p' & tmp' & pos' & w' & Htmp & Hloop & Hend).
  unfold total_size in *. rewrite Htmp in *.
  unfold map_ok in Hok. rewrite Htmp in Hok. destruct Hok as (_ & Hp & Ht).
  destruct (loop_sizes _ _ _ _ _ _ _ _ Hp Ht Hsum Hloop)
    as (moved & Hpe & Hte & Hs1 & Hs2 & _).
  assert (sized p') as Hsp'.
  { unfold sized in *. rewrite Hpe, length_app. lia. }
  assert (sized tmp') as Hst'.
  { unfold sized in *. rewrite Hte, length_app in Hst. lia. }
  destruct Hend as [[Hz ->] | [Hnz ->]]; unfold map_sized, total_size; simpl in *.
  - split; [| split; [lia | done]].
    split; [done |]. split; [done |]. split; [done | lia].
  - split; [| split; [lia | done]].
    split; [done |]. split; [done |]. split; [done | lia].
Qed.

Lemma help_resize_counted fuel m m' :
  map_counted m → HMap.help_resize fuel m = Ok m' →
  map_counted m' ∧ total_size m' = total_size m ∧
  all_entries m' ≡ₚ all_entries m.
Proof.
  intros (Hok & Hcp & Hct & Hsum) Hr.
  assert (map_sized m) as Hsized.
  { split; [done |]. split; [unfold sized; rewrite Hcp; lia |].
    split; [| done].
    destruct (HMap.temporary_table_ m); [| done].
    destruct Hct as [Hct _]. unfold sized. rewrite Hct. lia. }
  destruct (help_resize_sized _ _ _ Hsized Hr) as ((Hok' & _) & Htot & Hperm).
  split; [| done].
  apply help_resize_inv in Hr as [[Hnone ->] | Hsome]; [done |].
  destruct Hsome as (tmp & p' & tmp' & pos' & w' & Htmp & Hloop & Hend).
  unfold total_size in *. rewrite Htmp in *.
  unfold map_ok in Hok. rewrite Htmp in Hok. destruct Hok as (Hpos & Hp & Ht).
  destruct Hct as (Hct & Hdr).
  destruct (loop_sizes _ _ _ _ _ _ _ _ Hp Ht Hsum Hloop)
    as (moved & Hpe & Hte & Hs1 & Hs2 & _).
  assert (counted p') as Hcp'.
  { unfold counted in *. rewrite Hpe, length_app. lia. }
  assert (counted tmp') as Hct'.
  { unfold counted in *. rewrite Hte, length_app in Hct. lia. }
  assert (0 ≤ pos' ∧ drained_before tmp' pos') as [_ Hdr'].
  { pose proof (loop_invariant
      (λ _ tmp1 pos1 _, table_ok tmp1 ∧ 0 ≤ pos1 ∧ drained_before tmp1 pos1)) as Hinv.
    edestruct Hinv as [(_ & ? & ?) _]; [| | exact Hloop |]; [| done | done].
    intros p1 tmp1 pos1 w1 p2 tmp2 pos2 w2 (Ht1 & Hp1 & Hd1) _ Hne _ Hround.
    destruct (round_cursor _ _ _ _ _ _ _ _ Ht1 Hp1 Hd1 Hround).
    split; [| done].
    destruct Hround as [nd nx p3 Hb Hins | Hb]; [| done].
    eapply table_ok_relink; [done | done | by apply sublist_cons | apply wrap64_range]. }
  destruct Hend as [[Hz ->] | [Hnz ->]]; unfold map_counted, total_size; simpl in *.
  - split; [done |]. split; [done |]. split; [done | lia].
  - split; [done |]. split; [done |]. split; [done | lia].
Qed.

(** On counters that count, a slice returns within the capacity of the
    retiring table plus 15 rounds. *)
Lemma help_resize_returns fuel m :
  map_counted m →
  (∀ tmp, HMap.temporary_table_ m = Some tmp →
          HTable.mask_ tmp + 16 ≤ Z.of_nat fuel) →
  ∃ m', HMap.help_resize fuel m = Ok m'.
Proof.
  intros (Hok & Hcp & Hct & Hsum) Hfuel. unfold HMap.help_resize.
  unfold map_ok in Hok.
  destruct (HMap.temporary_table_ m) as [tmp|]; [| eauto].
  destruct Hok as (Hpos & Hp & Ht). destruct Hct as (Hct & Hdr).
  specialize (Hfuel tmp eq_refl).
  destruct (loop_terminates fuel (HMap.primary_table_ m) tmp (HMap.resizing_pos_ m) 0)
    as ([[[p' tmp'] pos'] w'] & ->); try done; [lia |].
  simpl. destruct (HTable.empty tmp'); eauto.
Qed.

Lemma help_resize_terminates m :
  map_counted m →
  ∃ fuel0, ∀ fuel, (fuel0 ≤ fuel)%nat → ∃ m', HMap.help_resize fuel m = Ok m'.
Proof.
  intros Hc.
  exists (match HMap.temporary_table_ m with
          | Some tmp => Z.to_nat (HTable.mask_ tmp + 16)
          | None => 0%nat
          end).
  intros fuel Hfuel. apply help_resize_returns; [done |].
  intros tmp Htmp. rewrite Htmp in Hfuel. lia.
Qed.

(** On counters that count, a slice moves 15 nodes, or all the nodes of
    the retiring table when it has no more than 15. *)
Lemma help_resize_exact fuel m m' tmp :
  map_counted m → HMap.temporary_table_ m = Some tmp →
  HMap.help_resize fuel m = Ok m' →
  HTable.mask_ (HMap.primary_table_ m') = HTable.mask_ (HMap.primary_table_ m) ∧
  HTable.size_ (HMap.primary_table_ m')
    = HTable.size_ (HMap.primary_table_ m) + Z.min 15 (HTable.size_ tmp) ∧
  if HTable.size_ tmp <=? 15 then HMap.temporary_table_ m' = None
  else ∃ tmp', HMap.temporary_table_ m' = Some tmp' ∧
               HTable.mask_ tmp' = HTable.mask_ tmp ∧
               HTable.size_ tmp' = HTable.size_ tmp - 15.
Proof.
  intros (Hok & Hcp & Hct & Hsum) Htmp [[Hnone _] | Hsome]%help_resize_inv;
    [congruence |].
  destruct Hsome as (tmp0 & p' & tmp' & pos' & w' & Htmp' & Hloop & Hend).
  assert (tmp0 = tmp) as -> by congruence.
  unfold map_ok in Hok. unfold total_size in Hsum. rewrite Htmp in *.
  destruct Hok as (_ & Hp & Ht).
  pose proof (ok_size _ Ht) as Hst.
  assert (0 ≤ 0 ≤ 15) as Hw0 by lia.
  destruct (loop_moved _ _ _ _ _ _ _ _ _ Hw0 Hst Hloop) as [Hmv Hexit].
  destruct (loop_sizes _ _ _ _ _ _ _ _ Hp Ht Hsum Hloop)
    as (moved & _ & _ & Hs1 & Hs2 & _).
  destruct (loop_table_ok _ _ _ _ _ _ _ _ _ Hp Ht Hloop) as (_ & _ & Hmp & Hmt & _).
  destruct Hmv as ((moved' & _ & _ & Hlen & Hw) & _ & _ & Hsize & Hnn).
  assert (HMap.primary_table_ m' = p') as ->
    by (by destruct Hend as [[_ ->] | [_ ->]]).
  split; [done |]. split; [lia |].
  destruct (Z.leb_spec (HTable.size_ tmp) 15).
  - destruct Hend as [[_ ->] | [Hnz _]]; [done | lia].
  - destruct Hend as [[Hz _] | [_ ->]]; [lia |].
    exists tmp'. split; [done |]. split; [done | lia].
Qed.

End SliceCounters.

Section Insert.
Context {T : Type}.
Implicit Types (p tmp tb : HTable.t T) (node key : HNode T).
Implicit Types (m : HMap.t T).

Lemma table_ok_fresh_4 : table_ok (@fresh T 4).
Proof. apply table_ok_fresh; [apply is_pow2_4 | lia | lia]. Qed.

Lemma map_ok_primary m : map_ok m → primary_ok (HMap.primary_table_ m).
Proof.
  unfold map_ok. destruct (HMap.temporary_table_ m); [| by intros [_ ?]].
  intros (_ & ? & _). by right.
Qed.

Lemma ensured_ok m :
  map_ok m →
  table_ok (ensured m) ∧
  HTable.size_ (ensured m) = HTable.size_ (HMap.primary_table_ m) ∧
  (sized (HMap.primary_table_ m) →
   entries (ensured m) = entries (HMap.primary_table_ m)).
Proof.
  intros Hok%map_ok_primary. unfold ensured, HTable.empty.
  destruct (Z.eqb_spec (HTable.size_ (HMap.primary_table_ m)) 0) as [Hz | Hnz].
  - split; [apply table_ok_fresh_4 |]. split; [by rewrite Hz |].
    unfold sized. rewrite Hz, entries_fresh.
    destruct (entries (HMap.primary_table_ m)); [done | simpl; lia].
  - destruct Hok as [Hd | Hok]; [by rewrite Hd in Hnz |]. done.
Qed.

Lemma table_ok_doubled p1 :
  table_ok p1 → 8 ≤ HTable.size_ p1 / (HTable.mask_ p1 + 1) →
  table_ok (@fresh T (2 * (HTable.mask_ p1 + 1))).
Proof.
  intros Hok Hload.
  pose proof (ok_min _ Hok). pose proof (ok_size _ Hok).
  assert (8 * (HTable.mask_ p1 + 1) ≤ HTable.size_ p1).
  { pose proof (Z.mul_div_le (HTable.size_ p1) (HTable.mask_ p1 + 1)). nia. }
  apply table_ok_fresh; [| lia | lia].
  rewrite Z.mul_comm. apply is_pow2_double, (ok_pow2 _ Hok).
Qed.

Lemma insert_before_migration_spec m node :
  map_ok m →
  ∃ p1,
    HTable.insert (ensured m) node = Ok p1 ∧ table_ok p1 ∧
    entries p1 ≡ₚ node :: entries (ensured m) ∧
    HTable.size_ p1 = wrap64 (HTable.size_ (HMap.primary_table_ m) + 1) ∧
    HTable.mask_ p1 = HTable.mask_ (ensured m) ∧
    HMap.insert_before_migration m node = Ok (before_migration m p1).
Proof.
  intros Hok. destruct (ensured_ok m Hok) as (He & Hsz & _).
  destruct (insert_ok (ensured m) node He) as (p1 & Hins & Hok1 & Hent & Hmask & Hsize).
  exists p1. rewrite Hsz in Hsize. repeat (split; [done |]).
  unfold HMap.insert_before_migration.
  assert ((if HTable.empty (HMap.primary_table_ m)
           then HTable.make HMap.k_min_cap
           else Ok (HMap.primary_table_ m)) = Ok (ensured m)) as ->.
  { unfold ensured. destruct (HTable.empty (HMap.primary_table_ m)); [| done].
    apply make_pow2; [apply is_pow2_4 | done | lia]. }
  simpl. rewrite Hins. simpl. unfold before_migration.
  destruct (HMap.temporary_table_ m) as [tmp|]; [done |].
  rewrite (table_ok_capacity p1 Hok1). unfold HTable.size.
  pose proof (ok_min _ Hok1). pose proof (ok_max _ Hok1).
  destruct (Z.eqb_spec (HTable.mask_ p1 + 1) 0); [lia |].
  unfold HMap.k_max_load_factor.
  destruct (Z.leb_spec 8 (HTable.size_ p1 / (HTable.mask_ p1 + 1))) as [Hload | _]; [| done].
  unfold HMap.start_resize. simpl.
  rewrite (table_ok_capacity p1 Hok1).
  pose proof (table_ok_doubled p1 Hok1 Hload) as Hd.
  pose proof (ok_max _ Hd) as Hmax. simpl in Hmax.
  rewrite wrap64_small by lia.
  replace ((HTable.mask_ p1 + 1) * 2) with (2 * (HTable.mask_ p1 + 1)) by lia.
  rewrite make_pow2; [done | | lia | lia].
  replace (2 * (HTable.mask_ p1 + 1) - 1 + 1) with (2 * (HTable.mask_ p1 + 1)) in Hd by lia.
  rewrite Z.mul_comm. apply is_pow2_double, (ok_pow2 _ Hok1).
Qed.

Lemma before_migration_ok m p1 :
  map_ok m → table_ok p1 →
  map_ok (before_migration m p1) ∧
  table_ok (HMap.primary_table_ (before_migration m p1)).
Proof.
  intros Hok Hok1. unfold before_migration, map_ok in *.
  destruct (HMap.temporary_table_ m) as [tmp|]; simpl.
  - destruct Hok as (? & _ & Ht). done.
  - destruct Hok as [? _].
    destruct (Z.leb_spec 8 (HTable.size_ p1 / (HTable.mask_ p1 + 1))) as [Hload | _]; simpl.
    + pose proof (table_ok_doubled p1 Hok1 Hload). done.
    + split; [split; [done | by right] | done].
Qed.

Lemma before_migration_entries m p1 node :
  entries p1 ≡ₚ node :: entries (HMap.primary_table_ m) →
  all_entries (before_migration m p1) ≡ₚ node :: all_entries m.
Proof.
  intros He. unfold before_migration, all_entries, retiring_entries.
  destruct (HMap.temporary_table_ m) as [tmp|]; simpl.
  - by rewrite He.
  - destruct (8 <=? HTable.size_ p1 / (HTable.mask_ p1 + 1)); simpl.
    + by rewrite entries_fresh, He, app_nil_r.
    + by rewrite He.
Qed.

Lemma before_migration_total m p1 :
  HTable.size_ p1 = HTable.size_ (HMap.primary_table_ m) + 1 →
  total_size (before_migration m p1) = total_size m + 1.
Proof.
  intros Hs. unfold before_migration, total_size.
  destruct (HMap.temporary_table_ m) as [tmp|]; simpl; [lia |].
  destruct (8 <=? HTable.size_ p1 / (HTable.mask_ p1 + 1)); simpl; lia.
Qed.

Lemma insert_fuel_mono fuel fuel' m node m' :
  (fuel ≤ fuel')%nat →
  HMap.insert fuel m node = Ok m' → HMap.insert fuel' m node = Ok m'.
Proof.
  intros Hle. unfold HMap.insert. intros (m1 & -> & Hr)%bind_Ok. simpl.
  by eapply help_resize_fuel_mono.
Qed.

Lemma insert_map_ok fuel m node m' :
  map_ok m → HMap.insert fuel m node = Ok m' →
  map_ok m' ∧ table_ok (HMap.primary_table_ m').
Proof.
  intros Hok. unfold HMap.insert.
  destruct (insert_before_migration_spec m node Hok)
    as (p1 & _ & Hok1 & _ & _ & _ & ->). simpl.
  destruct (before_migration_ok m p1 Hok Hok1) as [Hok2 Hp2].
  intros Hr. destruct (help_resize_ok _ _ _ Hok2 Hr) as (? & _ & Hp).
  split; [done |]. by apply Hp.
Qed.

Lemma insert_sized fuel m node m' :
  map_sized m → total_size m + 1 < 2 ^ 64 →
  HMap.insert fuel m node = Ok m' →
  map_sized m' ∧ total_size m' = total_size m + 1 ∧
  all_entries m' ≡ₚ node :: all_entries m.
Proof.
  intros (Hok & Hsp & Hst & _) Hsum. unfold HMap.insert.
  destruct (insert_before_migration_spec m node Hok)
    as (p1 & _ & Hok1 & Hent & Hsize & _ & ->). simpl.
  destruct (ensured_ok m Hok) as (_ & _ & Hee). rewrite (Hee Hsp) in Hent.
  destruct (before_migration_ok m p1 Hok Hok1) as [Hok2 Hp2].
  pose proof (before_migration_entries m p1 node Hent) as Hall.
  assert (0 ≤ HTable.size_ (HMap.primary_table_ m)) as Hnn.
  { unfold sized in Hsp. lia. }
  assert (0 ≤ total_size m - HTable.size_ (HMap.primary_table_ m)) as Hnt.
  { unfold total_size. destruct (HMap.temporary_table_ m); [| lia].
    unfold sized in Hst. lia. }
  rewrite wrap64_small in Hsize by lia.
  pose proof (before_migration_total m p1 Hsize) as Htot.
  assert (sized p1) as Hsp1.
  { unfold sized in *. rewrite Hent. simpl. lia. }
  assert (map_sized (before_migration m p1)) as Hsized.
  { split; [done |]. split; [| split; [| lia]].
    - unfold before_migration.
      destruct (HMap.temporary_table_ m); simpl; [done |].
      destruct (8 <=? _); simpl; [| done].
      unfold sized. by rewrite entries_fresh.
    - unfold before_migration.
      destruct (HMap.temporary_table_ m); simpl; [done |].
      by destruct (8 <=? _). }
  intros Hr. destruct (help_resize_sized _ _ _ Hsized Hr) as (? & ? & ?).
  split; [done |]. split; [lia |]. by etrans.
Qed.

Lemma before_migration_counted m node :
  map_counted m → total_size m + 1 < 2 ^ 64 →
  ∃ p1,
    HMap.insert_before_migration m node = Ok (before_migration m p1) ∧
    map_counted (before_migration m p1) ∧
    total_size (before_migration m p1) = total_size m + 1 ∧
    all_entries (before_migration m p1) ≡ₚ node :: all_entries m ∧
    table_ok p1 ∧
    HTable.size_ p1 = HTable.size_ (HMap.primary_table_ m) + 1 ∧
    HTable.mask_ p1 = HTable.mask_ (ensured m).
Proof.
  intros (Hok & Hcp & Hct & _) Hsum.
  destruct (insert_before_migration_spec m node Hok)
    as (p1 & _ & Hok1 & Hent & Hsize & Hmask & Hpre).
  exists p1. split; [done |].
  assert (sized (HMap.primary_table_ m)) as Hsp
    by (unfold sized; rewrite Hcp; lia).
  destruct (ensured_ok m Hok) as (_ & _ & Hee). rewrite (Hee Hsp) in Hent.
  destruct (before_migration_ok m p1 Hok Hok1) as [Hok2 Hp2].
  assert (0 ≤ total_size m - HTable.size_ (HMap.primary_table_ m)) as Hnt.
  { unfold total_size. destruct (HMap.temporary_table_ m); [| lia].
    destruct Hct as [Hct _]. rewrite Hct. lia. }
  rewrite wrap64_small in Hsize by (rewrite Hcp in *; lia).
  pose proof (before_migration_total m p1 Hsize) as Htot.
  assert (counted p1) as Hcp1.
  { unfold counted in *. rewrite Hent. simpl. lia. }
  split; [| split; [done |]; split; [by apply before_migration_entries | done]].
  split; [done |]. split; [| split; [| lia]].
  - unfold before_migration.
    destruct (HMap.temporary_table_ m); simpl; [done |].
    destruct (8 <=? _); simpl; [| done].
    unfold counted. by rewrite entries_fresh.
  - unfold before_migration.
    destruct (HMap.temporary_table_ m); simpl; [done |].
    destruct (8 <=? _); simpl; [| done].
    split; [done |]. intros i c _ ?. lia.
Qed.

Lemma insert_counted fuel m node m' :
  map_counted m → total_size m + 1 < 2 ^ 64 →
  HMap.insert fuel m node = Ok m' →
  map_counted m' ∧ total_size m' = total_size m + 1 ∧
  all_entries m' ≡ₚ node :: all_entries m.
Proof.
  intros Hc Hsum. unfold HMap.insert.
  destruct (before_migration_counted m node Hc Hsum)
    as (p1 & -> & Hc1 & Htot & Hall & _). simpl.
  intros Hr. destruct (help_resize_counted _ _ _ Hc1 Hr) as (? & ? & ?).
  split; [done |]. split; [lia |]. by etrans.
Qed.

Lemma insert_terminates m node :
  map_counted m → total_size m + 1 < 2 ^ 64 →
  ∃ fuel0, ∀ fuel, (fuel0 ≤ fuel)%nat → ∃ m', HMap.insert fuel m node = Ok m'.
Proof.
  intros Hc Hsum.
  destruct (before_migration_counted m node Hc Hsum) as (p1 & Hpre & Hc1 & _).
  destruct (help_resize_terminates _ Hc1) as (fuel0 & Hfuel).
  exists fuel0. intros fuel Hle. unfold HMap.insert. rewrite Hpre. simpl.
  by apply Hfuel.
Qed.

End Insert.

Section FindRemove.
Context {T : Type}.
Implicit Types (p tmp tb : HTable.t T) (node key : HNode T).
Implicit Types (m : HMap.t T).
Implicit Types (comparator : HNode T → HNode T → bool).

(** Whatever the table, a removal that returns has left [size_] alone and
    has taken at most one node out of one chain. *)
Lemma remove_any tb key comparator r tb' :
  HTable.remove tb key comparator = Ok (r, tb') →
  HTable.size_ tb' = HTable.size_ tb ∧ HTable.mask_ tb' = HTable.mask_ tb ∧
  Forall2 sublist (HTable.buckets_ tb') (HTable.buckets_ tb) ∧
  match r with
  | Some node => comparator node key = true ∧ entries tb ≡ₚ node :: entries tb'
  | None => tb' = tb
  end.
Proof.
  unfold HTable.remove.
  destruct (HTable.buckets_ tb) as [|b bs] eqn:Hb.
  { intros [= <- <-]. rewrite Hb. done. }
  rewrite <- Hb.
  intros (head & [_ Hhead]%at_Ok & H)%bind_Ok.
  destruct (HTable.remove_chain comparator key head) as [[node relinked]|] eqn:Er.
  - injection H as <- <-. simpl.
    apply remove_chain_Some in Er as (Hl & Hp & Hs).
    apply lookup_chain_Some in Hl as [_ Hc].
    split; [done |]. split; [done |]. split.
    + eapply Forall2_sublist_insert; [apply Forall2_sublist_refl | done | done].
    + split; [done |]. by eapply entries_relink.
  - injection H as <- <-. repeat split; done.
Qed.

Lemma find_inv fuel m key comparator r m' :
  HMap.find fuel m key comparator = Ok (r, m') →
  HMap.help_resize fuel m = Ok m' ∧
  ∃ r1, HTable.lookup (HMap.primary_table_ m') key comparator = Ok r1 ∧
    match r1 with
    | Some node => r = Some node
    | None =>
        match HMap.temporary_table_ m' with
        | Some tmp => HTable.lookup tmp key comparator = Ok r
        | None => r = None
        end
    end.
Proof.
  unfold HMap.find. intros (m1 & Hr & H)%bind_Ok.
  apply bind_Ok in H as (r1 & Hl1 & H).
  destruct r1 as [node|].
  { injection H as <- <-. split; [done |]. by exists (Some node). }
  destruct (HMap.temporary_table_ m1) as [tmp|] eqn:Htmp.
  - apply bind_Ok in H as (r2 & Hl2 & H).
    assert (r = r2 ∧ m' = m1) as [-> ->] by (destruct r2; by injection H as <- <-).
    split; [done |]. exists None. rewrite Htmp. done.
  - injection H as <- <-. split; [done |]. exists None. by rewrite Htmp.
Qed.

Lemma remove_inv fuel m key comparator r m' :
  HMap.remove fuel m key comparator = Ok (r, m') →
  ∃ m1 r1 p1,
    HMap.help_resize fuel m = Ok m1 ∧
    HTable.remove (HMap.primary_table_ m1) key comparator = Ok (r1, p1) ∧
    match r1 with
    | Some node =>
        r = Some node ∧
        m' = HMap.mk p1 (HMap.temporary_table_ m1) (HMap.resizing_pos_ m1)
    | None =>
        match HMap.temporary_table_ m1 with
        | Some tmp =>
            ∃ tmp', HTable.remove tmp key comparator = Ok (r, tmp') ∧
                    m' = HMap.mk p1 (Some tmp') (HMap.resizing_pos_ m1)
        | None => r = None ∧ m' = HMap.mk p1 None (HMap.resizing_pos_ m1)
        end
    end.
Proof.
  unfold HMap.remove. intros (m1 & Hr & H)%bind_Ok.
  apply bind_Ok in H as ([r1 p1] & Hrm & H).
  exists m1, r1, p1. split; [done |]. split; [done |].
  destruct r1 as [node|]; [by injection H as <- <- |].
  destruct (HMap.temporary_table_ m1) as [tmp|] eqn:Htmp.
  - apply bind_Ok in H as ([r2 tmp'] & Hrm2 & H).
    exists tmp'. destruct r2; injection H as <- <-; done.
  - by injection H as <- <-.
Qed.

Lemma primary_remove_ok tb key comparator r tb' :
  primary_ok tb → HTable.remove tb key comparator = Ok (r, tb') →
  primary_ok tb' ∧ (table_ok tb → table_ok tb') ∧
  (tb = HTable.default → tb' = HTable.default).
Proof.
  intros [-> | Hok].
  - rewrite remove_default. intros [= <- <-].
    split; [by left |]. done.
  - destruct (remove_ok tb key comparator Hok) as (r0 & tb0 & -> & _ & Hok' & _).
    intros [= <- <-]. split; [by right |]. split; [done |].
    intros ->. pose proof (ok_min _ Hok). simpl in *. lia.
Qed.

Lemma find_map_ok fuel m key comparator r m' :
  map_ok m → HMap.find fuel m key comparator = Ok (r, m') →
  map_ok m' ∧
  (table_ok (HMap.primary_table_ m) → table_ok (HMap.primary_table_ m')).
Proof.
  intros Hok [Hr _]%find_inv.
  destruct (help_resize_ok _ _ _ Hok Hr) as (? & _ & Hp).
  split; [done |]. intros ?. by apply Hp.
Qed.

Lemma remove_map_ok fuel m key comparator r m' :
  map_ok m → HMap.remove fuel m key comparator = Ok (r, m') →
  map_ok m' ∧
  (table_ok (HMap.primary_table_ m) → table_ok (HMap.primary_table_ m')).
Proof.
  intros Hok (m1 & r1 & p1 & Hr & Hrm & H)%remove_inv.
  destruct (help_resize_ok _ _ _ Hok Hr) as (Hok1 & _ & Hp).
  pose proof (map_ok_primary _ Hok1) as Hp1.
  destruct (primary_remove_ok _ _ _ _ _ Hp1 Hrm) as (Hp1' & Hkeep & _).
  assert (table_ok (HMap.primary_table_ m) → table_ok p1) as Hprim.
  { intros ?. apply Hkeep. by apply Hp. }
  unfold map_ok in Hok1 |- *. destruct Hok1 as [Hpos Hok1].
  destruct r1 as [node|].
  { destruct H as [_ ->]. simpl. split; [| done]. split; [done |].
    destruct (HMap.temporary_table_ m1); [| done].
    destruct Hok1 as [? ?]. split; [by apply Hkeep | done]. }
  destruct (HMap.temporary_table_ m1) as [tmp|].
  - destruct H as (tmp' & Hrm2 & ->). simpl. split; [| done]. split; [done |].
    destruct Hok1 as [? Ht].
    destruct (remove_ok tmp key comparator Ht) as (r0 & tb0 & Heq & _ & Hok' & _).
    rewrite Heq in Hrm2. injection Hrm2 as <- <-.
    split; [by apply Hkeep | done].
  - destruct H as [_ ->]. simpl. done.
Qed.

(** *** Runs *)

Lemma call_map_ok fuel m o m' :
  map_ok m → call fuel m o = Ok m' →
  map_ok m' ∧
  (is_insert o = true ∨ table_ok (HMap.primary_table_ m) →
   table_ok (HMap.primary_table_ m')).
Proof.
  intros Hok. destruct o as [node | key comparator | key comparator]; simpl.
  - intros [? ?]%insert_map_ok; done.
  - intros ([r m1] & Hf & [= <-])%bind_Ok.
    destruct (find_map_ok _ _ _ _ _ _ Hok Hf) as [? Hp].
    split; [done |]. intros [? | ?]; [done | by apply Hp].
  - intros ([r m1] & Hf & [= <-])%bind_Ok.
    destruct (remove_map_ok _ _ _ _ _ _ Hok Hf) as [? Hp].
    split; [done |]. intros [? | ?]; [done | by apply Hp].
Qed.

Lemma call_default fuel o m' :
  is_insert o = false → call fuel (@HMap.default T) o = Ok m' →
  m' = HMap.default.
Proof.
  destruct o as [node | key comparator | key comparator]; [done | |];
    intros _; by intros [= <-].
Qed.

Lemma run_map_ok fuel ops : ∀ m m',
  map_ok m → run fuel m ops = Ok m' →
  map_ok m' ∧
  (existsb is_insert ops = true ∨ table_ok (HMap.primary_table_ m) →
   table_ok (HMap.primary_table_ m')).
Proof.
  induction ops as [|o ops IH]; intros m m' Hok; simpl.
  - intros [= <-]. split; [done |]. by intros [? | ?].
  - intros (m1 & Ha & Hrun)%bind_Ok.
    destruct (call_map_ok _ _ _ _ Hok Ha) as [Hok1 Hp1].
    destruct (IH _ _ Hok1 Hrun) as [Hok' Hp'].
    split; [done |]. intros H. apply Hp'.
    rewrite orb_true_iff in H. destruct H as [[? | ?] | ?]; auto.
Qed.

Lemma run_default fuel ops : ∀ m',
  existsb is_insert ops = false → run fuel (@HMap.default T) ops = Ok m' →
  m' = HMap.default.
Proof.
  induction ops as [|o ops IH]; intros m'; simpl; [by intros _ [= <-] |].
  intros [Ho Hops]%orb_false_iff (m1 & Ha & Hrun)%bind_Ok.
  apply call_default in Ha as ->; [| done]. by apply IH.
Qed.

Lemma map_ok_default : map_ok (@HMap.default T).
Proof. split; [done | by left]. Qed.

Lemma capacity_ok_table tb : table_ok tb → capacity_ok (HTable.capacity tb).
Proof.
  intros Hok. rewrite table_ok_capacity by done.
  split; [apply (ok_pow2 _ Hok) | apply (ok_min _ Hok)].
Qed.

End FindRemove.

Section Claims.
Context {T : Type}.
Implicit Types (p tmp tb : HTable.t T) (node key : HNode T).
Implicit Types (m : HMap.t T).
Implicit Types (comparator : HNode T → HNode T → bool).

(** *** Work of one slice, in any state *)

Lemma help_resize_work fuel m m' :
  HMap.help_resize fuel m = Ok m' → migrated_at_most 15 m m'.
Proof.
  intros [[Hnone ->] | Hsome]%help_resize_inv.
  { exists []. simpl. split; [lia |]. split; [done |].
    by rewrite Hnone. }
  destruct Hsome as (tmp & p' & tmp' & pos' & w' & Htmp & Hloop & Hend).
  assert (0 ≤ 0 ≤ 15) as Hw0 by lia.
  destruct (loop_gain _ _ _ _ _ _ _ _ _ Hw0 Hloop) as (moved & Hp & Ht & Hlen & Hw).
  exists moved. split; [lia |].
  unfold retiring_entries. rewrite Htmp.
  destruct Hend as [[_ ->] | [_ ->]]; simpl; done.
Qed.

Lemma insert_inv fuel m node m' :
  HMap.insert fuel m node = Ok m' →
  ∃ m1, HMap.insert_before_migration m node = Ok m1 ∧
        HMap.help_resize fuel m1 = Ok m'.
Proof. unfold HMap.insert. by intros (m1 & ? & ?)%bind_Ok; exists m1. Qed.

(** C5 — One call of [help_resize] moves at most 15 nodes from the
    retiring table to the current one, whatever the state of the
    dictionary; [insert], [find] and [remove] each run exactly one such
    slice ([insert] after it has stored the node and perhaps started a
    resize, [find] and [remove] before they search), so none of them
    migrates more than 15 nodes. *)
Theorem help_resize_bounded_work (fuel : nat) (m : HMap.t T) :
  (∀ m', HMap.help_resize fuel m = Ok m' → migrated_at_most 15 m m') ∧
  (∀ node m', HMap.insert fuel m node = Ok m' →
     ∃ m1, HMap.insert_before_migration m node = Ok m1 ∧
           HMap.help_resize fuel m1 = Ok m' ∧ migrated_at_most 15 m1 m') ∧
  (∀ key comparator r m', HMap.find fuel m key comparator = Ok (r, m') →
     HMap.help_resize fuel m = Ok m' ∧ migrated_at_most 15 m m') ∧
  (∀ key comparator r m', HMap.remove fuel m key comparator = Ok (r, m') →
     ∃ m1, HMap.help_resize fuel m = Ok m1 ∧ migrated_at_most 15 m m1 ∧
           match r with
           | Some node => all_entries m1 ≡ₚ node :: all_entries m'
           | None => m' = m1
           end).
Proof.
  split; [| split; [| split]].
  - intros m'. apply help_resize_work.
  - intros node m' (m1 & Hpre & Hr)%insert_inv.
    exists m1. split; [done |]. split; [done |]. by eapply help_resize_work.
  - intros key comparator r m' [Hr _]%find_inv.
    split; [done |]. by eapply help_resize_work.
  - intros key comparator r m' (m1 & r1 & p1 & Hr & Hrm & H)%remove_inv.
    exists m1. split; [done |]. split; [by eapply help_resize_work |].
    destruct (remove_any _ _ _ _ _ Hrm) as (_ & _ & _ & Hr1).
    unfold all_entries, retiring_entries.
    destruct r1 as [node|].
    { destruct H as [-> ->]. simpl. destruct Hr1 as [_ ->]. done. }
    subst p1. destruct m1 as [p1 t1 pos1]. simpl in *.
    destruct t1 as [tmp|].
    + destruct H as (tmp' & Hrm2 & ->). simpl.
      destruct (remove_any _ _ _ _ _ Hrm2) as (_ & _ & _ & Hr2).
      destruct r as [node|].
      * destruct Hr2 as [_ ->]. symmetry. apply Permutation_middle.
      * by subst tmp'.
    + destruct H as [-> ->]. done.
Qed.

(** *** A slice on initialised tables returns or runs out of fuel *)

Lemma help_resize_defined fuel m :
  map_ok m →
  (∃ m', HMap.help_resize fuel m = Ok m') ∨
  HMap.help_resize fuel m = Fail OutOfFuel.
Proof.
  intros [Hpos Hok]. unfold HMap.help_resize.
  destruct (HMap.temporary_table_ m) as [tmp|]; [| by eauto].
  destruct Hok as [Hp Ht].
  destruct (loop_defined fuel _ _ _ 0 Hp Ht Hpos) as [([[[p' tmp'] pos'] w'] & ->) | ->];
    simpl; [left | by right].
  destruct (HTable.empty tmp'); eauto.
Qed.

Lemma elem_of_all_entries m node :
  node ∈ all_entries m ↔
  node ∈ entries (HMap.primary_table_ m) ∨
  ∃ tmp, HMap.temporary_table_ m = Some tmp ∧ node ∈ entries tmp.
Proof.
  unfold all_entries, retiring_entries. rewrite elem_of_app.
  destruct (HMap.temporary_table_ m) as [tmp|].
  - split; (intros [? | ?]; [by left | right]); [by eauto |].
    by destruct H as (? & [= <-] & ?).
  - split; (intros [? | ?]; [by left |]).
    + by apply elem_of_nil in H.
    + by destruct H as (? & ? & ?).
Qed.

Lemma primary_lookup tb key comparator :
  primary_ok tb → digest_consistent comparator key →
  ∃ r, HTable.lookup tb key comparator = Ok r ∧
       (r = None ↔ ∀ node, node ∈ entries tb → comparator node key = false) ∧
       (∀ node, r = Some node → node ∈ entries tb ∧ comparator node key = true).
Proof.
  intros [-> | Hok] Hcons.
  - exists None. rewrite lookup_default. split; [done |]. split; [| done].
    split; [| done]. intros _ node Hin. by apply elem_of_nil in Hin.
  - destruct (lookup_total tb key comparator Hok) as [r Hr].
    exists r. split; [done |]. split.
    + rewrite <- (lookup_None tb key comparator Hok Hcons), Hr.
      split; [by intros -> | by intros [= ->]].
    + intros node ->. by eapply lookup_Some.
Qed.

(** What [find] answers, on the state its slice has left. *)
Lemma find_answer m' key comparator r :
  map_ok m' → digest_consistent comparator key →
  (∃ r1, HTable.lookup (HMap.primary_table_ m') key comparator = Ok r1 ∧
    match r1 with
    | Some node => r = Some node
    | None =>
        match HMap.temporary_table_ m' with
        | Some tmp => HTable.lookup tmp key comparator = Ok r
        | None => r = None
        end
    end) →
  (r = None ↔ ∀ node, node ∈ all_entries m' → comparator node key = false) ∧
  (∀ node, r = Some node → node ∈ all_entries m' ∧ comparator node key = true).
Proof.
  intros Hok Hcons (r1 & Hl1 & Hr1).
  destruct (primary_lookup _ key comparator (map_ok_primary _ Hok) Hcons)
    as (r1' & Hl1' & Hnone1 & Hsome1).
  assert (r1' = r1) as -> by congruence.
  destruct r1 as [node1|].
  { subst r. destruct (Hsome1 node1 eq_refl) as [Hin Hc]. split.
    - split; [done |]. intros Hall.
      rewrite (Hall node1) in Hc; [done |]. apply elem_of_all_entries. by left.
    - intros node [= <-]. split; [| done]. apply elem_of_all_entries. by left. }
  destruct Hnone1 as [Hnone1 _]. specialize (Hnone1 eq_refl).
  destruct Hok as [_ Hok].
  destruct (HMap.temporary_table_ m') as [tmp|] eqn:Htmp.
  - destruct Hok as [_ Ht].
    destruct (primary_lookup tmp key comparator (or_intror Ht) Hcons)
      as (r2 & Hl2 & Hnone2 & Hsome2).
    assert (r2 = r) as -> by congruence. split.
    + rewrite Hnone2. split.
      * intros Hall node [Hin | (tmp0 & Heq & Hin)]%elem_of_all_entries; [auto |].
        rewrite Htmp in Heq. injection Heq as <-. auto.
      * intros Hall node Hin. apply Hall, elem_of_all_entries. right. eauto.
    + intros node Hr. destruct (Hsome2 node Hr) as [Hin Hc]. split; [| done].
      apply elem_of_all_entries. right. eauto.
  - subst r. split; [| done]. split; [| done].
    intros _ node [Hin | (tmp0 & Heq & _)]%elem_of_all_entries; [auto |].
    congruence.
Qed.

Lemma find_after_slice m key comparator fuel m' :
  map_ok m' → HMap.help_resize fuel m = Ok m' →
  ∃ r, HMap.find fuel m key comparator = Ok (r, m').
Proof.
  intros Hok Hr. unfold HMap.find. rewrite Hr. simpl.
  assert (∀ tb, primary_ok tb → ∃ r, HTable.lookup tb key comparator = Ok r) as Htot.
  { intros tb [-> | Htb]; [rewrite lookup_default; eauto | by apply lookup_total]. }
  destruct (Htot _ (map_ok_primary _ Hok)) as [[node|] ->]; simpl; [eauto |].
  destruct Hok as [_ Hok].
  destruct (HMap.temporary_table_ m') as [tmp|]; [| eauto].
  destruct Hok as [_ Ht].
  destruct (lookup_total tmp key comparator Ht) as [[node|] ->]; simpl; eauto.
Qed.

(** X24 — What [find] answers when it returns. [find] runs one slice of
    migration, then looks the probe up in the current table and, only
    when it is absent there and a retiring table exists, in the
    retiring table. On a dictionary whose tables are initialised, and
    for a comparator that matches the probe only on nodes of its digest,
    the call has no undefined step: either the slice has not finished
    on the fuel given, or the call returns, and then its answer is the
    empty result [None], inside [Ok], exactly when no node of either
    table matches the probe. On a dictionary whose counters count its
    nodes, it returns on enough fuel. *)
Theorem find_not_found_iff_absent (fuel : nat) (m : HMap.t T) (key : HNode T)
    (comparator : HNode T → HNode T → bool) :
  map_ok m → digest_consistent comparator key →
  ((HMap.help_resize fuel m = Fail OutOfFuel ∧
    HMap.find fuel m key comparator = Fail OutOfFuel) ∨
   (∃ r m',
      HMap.find fuel m key comparator = Ok (r, m') ∧
      HMap.help_resize fuel m = Ok m' ∧
      (∃ r1, HTable.lookup (HMap.primary_table_ m') key comparator = Ok r1 ∧
         match r1 with
         | Some node => r = Some node
         | None =>
             match HMap.temporary_table_ m' with
             | Some tmp => HTable.lookup tmp key comparator = Ok r
             | None => r = None
             end
         end) ∧
      (r = None ↔
       ∀ node, node ∈ all_entries m' → comparator node key = false) ∧
      (∀ node, r = Some node →
               node ∈ all_entries m' ∧ comparator node key = true))) ∧
  (map_counted m →
   ∃ fuel0, ∀ fuel', (fuel0 ≤ fuel')%nat →
     ∃ r m', HMap.find fuel' m key comparator = Ok (r, m')).
Proof.
  intros Hok Hcons. split.
  - destruct (help_resize_defined fuel m Hok) as [[m' Hr] | Hr].
    + right. destruct (help_resize_ok _ _ _ Hok Hr) as (Hok' & _).
      destruct (find_after_slice m key comparator fuel m' Hok' Hr) as [r Hf].
      exists r, m'. split; [done |]. split; [done |].
      pose proof (find_inv _ _ _ _ _ _ Hf) as [_ Hans].
      split; [done |]. by apply find_answer.
    + left. split; [done |]. unfold HMap.find. by rewrite Hr.
  - intros Hc. destruct (help_resize_terminates m Hc) as (fuel0 & Hfuel).
    exists fuel0. intros fuel' Hle. destruct (Hfuel fuel' Hle) as [m' Hr].
    destruct (help_resize_ok _ _ _ Hok Hr) as (Hok' & _).
    destruct (find_after_slice m key comparator fuel' m' Hok' Hr) as [r Hf].
    eauto.
Qed.

(** C9 — On a dictionary whose tables are initialised and whose retiring
    table owns no more nodes than its counter says, a call of
    [help_resize] leaves [size()] as it was and the nodes of the
    dictionary the same multiset: the nodes [moved] have left the
    retiring table for the current one, and no node was made, lost or
    copied. *)
Theorem help_resize_preserves_map (fuel : nat) (m m' : HMap.t T) :
  map_ok m →
  (∀ tmp, HMap.temporary_table_ m = Some tmp → sized tmp) →
  HMap.help_resize fuel m = Ok m' →
  HMap.size m' = HMap.size m ∧
  all_entries m' ≡ₚ all_entries m ∧
  ∃ moved,
    entries (HMap.primary_table_ m')
      ≡ₚ moved ++ entries (HMap.primary_table_ m) ∧
    retiring_entries m ≡ₚ moved ++ retiring_entries m'.
Proof.
  intros Hok Hs Hr.
  destruct (help_resize_ok _ _ _ Hok Hr) as (_ & Hsize & _).
  split; [done |]. split; [by eapply help_resize_all_entries |].
  destruct (help_resize_entries _ _ _ Hok Hs Hr) as (moved & ? & ? & _).
  by exists moved.
Qed.

Lemma help_resize_not_grown fuel m m' tmp :
  HMap.temporary_table_ m = Some tmp → 0 ≤ HTable.size_ tmp < 2 ^ 64 →
  HMap.help_resize fuel m = Ok m' → retiring_not_grown tmp m'.
Proof.
  intros Htmp Hsz Hr.
  destruct (help_resize_retiring fuel _ _ tmp Htmp Hsz Hr) as [Hng _].
  unfold retiring_not_grown.
  destruct (HMap.temporary_table_ m'); [| done]. by destruct Hng as (? & ? & ?).
Qed.

(** C10 — While a retiring table exists, no call puts a node into it:
    after [insert], [find] or [remove] the retiring table, if it is
    still there, has the chains it had with nodes taken out and a
    counter that has not gone up, and the node of an [insert] is in the
    current table. *)
Theorem retiring_table_never_grows (fuel : nat) (m : HMap.t T)
    (tmp : HTable.t T) (o : op T) (m' : HMap.t T) :
  HMap.temporary_table_ m = Some tmp →
  0 ≤ HTable.size_ tmp < 2 ^ 64 →
  call fuel m o = Ok m' →
  retiring_not_grown tmp m' ∧
  (∀ node, o = Insert node → node ∈ entries (HMap.primary_table_ m')).
Proof.
  intros Htmp Hsz Ha. destruct o as [node | key comparator | key comparator];
    simpl in Ha.
  - apply insert_inv in Ha as (m1 & Hpre & Hr).
    unfold HMap.insert_before_migration in Hpre.
    apply bind_Ok in Hpre as (p0 & _ & Hpre).
    apply bind_Ok in Hpre as (p1 & Hins & Hpre).
    rewrite Htmp in Hpre. injection Hpre as <-.
    destruct (help_resize_retiring fuel (HMap.mk p1 (Some tmp) (HMap.resizing_pos_ m))
                m' tmp eq_refl Hsz Hr) as [Hng (moved & Hp)].
    split; [eapply help_resize_not_grown; [| exact Hsz | exact Hr]; done |].
    intros ? [= <-].
    rewrite Hp. simpl. apply elem_of_app. right.
    rewrite (insert_entries _ _ _ Hins). left.
  - apply bind_Ok in Ha as ([r m1] & [Hr _]%find_inv & [= <-]).
    split; [| done]. eapply help_resize_not_grown; [exact Htmp | exact Hsz | exact Hr].
  - apply bind_Ok in Ha as ([r m2] & (m1 & r1 & p1 & Hr & Hrm & H)%remove_inv & [= <-]).
    split; [| done].
    pose proof (help_resize_not_grown _ _ _ _ Htmp Hsz Hr) as Hng.
    unfold retiring_not_grown in *.
    destruct r1 as [node|]; [by destruct H as [_ ->] |].
    destruct (HMap.temporary_table_ m1) as [tmp1|].
    + destruct H as (tmp' & Hrm2 & ->). simpl.
      destruct (remove_any _ _ _ _ _ Hrm2) as (Hs & _ & Hsub & _).
      destruct Hng as (Hle & Hsub1). unfold HTable.size in *. split; [lia |].
      by etrans.
    + by destruct H as [_ ->].
Qed.

End Claims.

Section Runs.
Context {T : Type}.
Implicit Types (p tmp tb : HTable.t T) (node key : HNode T).
Implicit Types (m : HMap.t T).

(** C6 (amended) — After every sequence of dictionary calls on a fresh
    dictionary, a retiring table, when there is one, has a capacity that
    is a power of two from 4 up, and so has the current table as soon as
    one of the calls was an [insert]; before the first [insert] the
    current table is not initialised and [capacity()] is 1. *)
Theorem capacity_after_operations (fuel : nat) (ops : list (op T))
    (m : HMap.t T) :
  run fuel HMap.default ops = Ok m →
  (∀ tmp, HMap.temporary_table_ m = Some tmp →
          capacity_ok (HTable.capacity tmp)) ∧
  (if existsb is_insert ops
   then capacity_ok (HTable.capacity (HMap.primary_table_ m))
   else HTable.capacity (HMap.primary_table_ m) = 1).
Proof.
  intros Hrun.
  destruct (run_map_ok fuel ops _ _ map_ok_default Hrun) as [[_ Hok] Hp].
  split.
  - intros tmp Htmp. rewrite Htmp in Hok. destruct Hok as [_ Ht].
    by apply capacity_ok_table.
  - destruct (existsb is_insert ops) eqn:Hins.
    + apply capacity_ok_table, Hp. by left.
    + by rewrite (run_default fuel ops m Hins Hrun).
Qed.

(** *** Insert-only runs *)

Lemma map_counted_default : map_counted (@HMap.default T).
Proof.
  split; [apply map_ok_default |]. split; [done |]. split; [done |].
  unfold total_size. simpl. lia.
Qed.

Lemma map_counted_size m :
  map_counted m → HMap.size m = Z.of_nat (length (all_entries m)).
Proof.
  intros (_ & Hcp & Hct & Hsum).
  unfold HMap.size, HTable.size, all_entries, retiring_entries, total_size in *.
  rewrite length_app.
  destruct (HMap.temporary_table_ m) as [tmp|].
  - destruct Hct as [Hct _]. unfold counted in *.
    rewrite wrap64_small by lia. lia.
  - unfold counted in *. rewrite wrap64_small by lia. simpl. lia.
Qed.

Lemma run_fuel_insert_step fuel m node m1 ops :
  HMap.insert fuel m node = Ok m1 →
  run fuel m (Insert node :: ops) = run fuel m1 ops.
Proof. intros H. simpl. by rewrite H. Qed.

Lemma run_inserts_counted (nodes : list (HNode T)) : ∀ m,
  map_counted m →
  total_size m + Z.of_nat (length nodes) < 2 ^ 64 →
  ∃ fuel0, ∀ fuel, (fuel0 ≤ fuel)%nat →
    ∃ m', run fuel m (Insert <$> nodes) = Ok m' ∧ map_counted m' ∧
          all_entries m' ≡ₚ nodes ++ all_entries m.
Proof.
  induction nodes as [|node nodes IH]; intros m Hc Hsum.
  { exists 0%nat. intros fuel _. exists m. by split. }
  simpl in Hsum.
  destruct (insert_terminates m node Hc ltac:(lia)) as (fuel1 & Hfuel1).
  destruct (Hfuel1 fuel1 (le_n _)) as [m1 Hins].
  destruct (insert_counted _ _ _ _ Hc ltac:(lia) Hins) as (Hc1 & Htot1 & Hall1).
  destruct (IH m1 Hc1 ltac:(lia)) as (fuel2 & Hfuel2).
  exists (max fuel1 fuel2). intros fuel Hle.
  destruct (Hfuel2 fuel ltac:(lia)) as (m' & Hrun & Hc' & Hall').
  exists m'. split; [| split; [done |]].
  - rewrite fmap_cons.
    rewrite (run_fuel_insert_step fuel m node m1); [done |].
    eapply insert_fuel_mono; [| exact Hins]. lia.
  - rewrite Hall', Hall1. simpl. symmetry. apply Permutation_middle.
Qed.

(** C3 (amended) — After any sequence of fewer than 2^64 [insert]
    calls on a fresh dictionary, [size()] is the number of calls, each
    of which has stored its node, whether or not a node of the same key
    was there: the dictionary holds the nodes inserted, and on enough
    fuel every call returns. *)
Theorem size_counts_inserted_nodes (nodes : list (HNode T)) :
  Z.of_nat (length nodes) < 2 ^ 64 →
  ∃ fuel0, ∀ fuel, (fuel0 ≤ fuel)%nat →
    ∃ m, run fuel HMap.default (Insert <$> nodes) = Ok m ∧
         HMap.size m = Z.of_nat (length nodes) ∧
         all_entries m ≡ₚ nodes.
Proof.
  intros Hlen.
  destruct (run_inserts_counted nodes HMap.default map_counted_default)
    as (fuel0 & Hfuel); [unfold total_size; simpl; lia |].
  exists fuel0. intros fuel Hle.
  destruct (Hfuel fuel Hle) as (m & Hrun & Hc & Hall).
  exists m. split; [done |].
  rewrite (map_counted_size m Hc), Hall.
  unfold all_entries, retiring_entries. simpl. by rewrite app_nil_r.
Qed.

End Runs.

(** ** The claims on the integer-keyed caller *)

(** C2 — [HTable::remove] on a table that holds one node, probed with that
    node: the node is detached and handed back, the chain is relinked, and
    [size()] is 1 before and still 1 after, where the claim has 0. *)
Theorem remove_keeps_size_counter :
  ∃ tb tb' : HTable.t Z,
    HTable.insert HTable.default (key_node 5) = Ok tb ∧
    HTable.remove tb (key_node 5) same_key = Ok (Some (key_node 5), tb') ∧
    entries tb = [key_node 5] ∧ entries tb' = [] ∧
    HTable.size tb = 1 ∧ HTable.size tb' = 1.
Proof. eexists _, _. repeat split; vm_compute; reflexivity. Qed.

(** C3, as stated, fails: two [insert] calls with the same key leave
    [size()] at 2, while one distinct key was inserted and none removed. *)
Lemma size_counts_duplicate_keys :
  ∃ m : HMap.t Z,
    run 16 HMap.default [Insert (key_node 7); Insert (key_node 7)] = Ok m ∧
    HMap.size m = 2 ∧
    spec_size [Insert (key_node 7); Insert (key_node 7)] = 1.
Proof. eexists. repeat split; vm_compute; reflexivity. Qed.

(** C6, as stated, fails: after a [find] on a fresh dictionary the current
    table has capacity 1. *)
Lemma capacity_before_first_insert :
  ∃ m : HMap.t Z,
    call 16 HMap.default (Find (key_node 0) same_key) = Ok m ∧
    ¬ capacity_ok (HTable.capacity (HMap.primary_table_ m)).
Proof.
  eexists. split; [vm_compute; reflexivity |].
  intros [_ Hmin]. vm_compute in Hmin. by apply Hmin.
Qed.

Section OneTable.
Context {T : Type}.
Implicit Types (p tmp tb : HTable.t T) (node key : HNode T).
Implicit Types (m : HMap.t T).
Implicit Types (comparator : HNode T → HNode T → bool).

Lemma count_matching_app comparator key (l1 l2 : list (HNode T)) :
  count_matching comparator key (l1 ++ l2)
  = (count_matching comparator key l1 + count_matching comparator key l2)%nat.
Proof. induction l1 as [|n l1 IH]; simpl; [done |]. rewrite IH. lia. Qed.

Lemma count_matching_perm comparator key (l1 l2 : list (HNode T)) :
  l1 ≡ₚ l2 → count_matching comparator key l1 = count_matching comparator key l2.
Proof. induction 1; simpl; lia. Qed.

Lemma count_matching_zero comparator key (l : list (HNode T)) :
  count_matching comparator key l = 0%nat ↔
  ∀ node, node ∈ l → comparator node key = false.
Proof.
  induction l as [|n l IH]; simpl.
  - split; [| done]. intros _ node Hin. by apply elem_of_nil in Hin.
  - destruct (comparator n key) eqn:E.
    + split; [lia |]. intros H. specialize (H n (list_elem_of_here _ _)). congruence.
    + simpl. rewrite IH. split.
      * intros H node [-> | Hin]%elem_of_cons; auto.
      * intros H node Hin. apply H. by right.
Qed.

(** *** The first half of [insert] *)

Lemma before_migration_sized m node m1 :
  map_sized m → total_size m + 1 < 2 ^ 64 →
  HMap.insert_before_migration m node = Ok m1 →
  map_sized m1 ∧ all_entries m1 ≡ₚ node :: all_entries m.
Proof.
  intros (Hok & Hsp & Hst & _) Hsum.
  destruct (insert_before_migration_spec m node Hok)
    as (p1 & _ & Hok1 & Hent & Hsize & _ & ->). intros [= <-].
  destruct (ensured_ok m Hok) as (_ & _ & Hee). rewrite (Hee Hsp) in Hent.
  destruct (before_migration_ok m p1 Hok Hok1) as [Hok2 Hp2].
  pose proof (before_migration_entries m p1 node Hent) as Hall.
  assert (0 ≤ HTable.size_ (HMap.primary_table_ m)) as Hnn.
  { unfold sized in Hsp. lia. }
  assert (0 ≤ total_size m - HTable.size_ (HMap.primary_table_ m)) as Hnt.
  { unfold total_size. destruct (HMap.temporary_table_ m); [| lia].
    unfold sized in Hst. lia. }
  rewrite wrap64_small in Hsize by lia.
  pose proof (before_migration_total m p1 Hsize) as Htot.
  assert (sized p1) as Hsp1.
  { unfold sized in *. rewrite Hent. simpl. lia. }
  split; [| done].
  split; [done |]. split; [| split; [| lia]].
  - unfold before_migration.
    destruct (HMap.temporary_table_ m); simpl; [done |].
    destruct (8 <=? _); simpl; [| done].
    unfold sized. by rewrite entries_fresh.
  - unfold before_migration.
    destruct (HMap.temporary_table_ m); simpl; [done |].
    by destruct (8 <=? _).
Qed.

(** *** [remove] on counters that bound *)

Lemma remove_sized fuel m key comparator r m' :
  map_sized m → HMap.remove fuel m key comparator = Ok (r, m') →
  map_sized m' ∧ total_size m' = total_size m ∧
  match r with
  | Some node => all_entries m ≡ₚ node :: all_entries m'
  | None => all_entries m' ≡ₚ all_entries m
  end.
Proof.
  intros Hs Hrem.
  destruct (remove_map_ok _ _ _ _ _ _ (proj1 Hs) Hrem) as [Hok' _].
  apply remove_inv in Hrem as (m1 & r1 & p1 & Hr & Hrm & H).
  destruct (help_resize_sized _ _ _ Hs Hr)
    as ((Hok1 & Hsp1 & Hst1 & Hsum1) & Htot1 & Hall1).
  destruct (remove_any _ _ _ _ _ Hrm) as (Hsz & _ & _ & Hr1).
  rewrite <- Htot1. clear Htot1.
  unfold map_sized, all_entries, retiring_entries, total_size in *.
  destruct m1 as [q t1 pos1]. simpl in *.
  destruct r1 as [node|].
  { destruct H as [-> ->]. simpl. destruct Hr1 as [_ Hr1].
    split; [| split; [by rewrite Hsz |]].
    - split; [done |]. split; [| split; [done | by rewrite Hsz]].
      unfold sized in *. rewrite Hr1 in Hsp1. simpl in Hsp1. lia.
    - rewrite <- Hall1, Hr1. done. }
  subst p1. destruct t1 as [tmp|].
  - destruct H as (tmp' & Hrm2 & ->). simpl.
    destruct (remove_any _ _ _ _ _ Hrm2) as (Hsz2 & _ & _ & Hr2).
    destruct r as [node|].
    + destruct Hr2 as [_ Hr2]. split; [| split; [lia |]].
      * split; [done |]. split; [done |]. split; [| lia].
        unfold sized in *. rewrite Hr2 in Hst1. simpl in Hst1. lia.
      * rewrite <- Hall1, Hr2. symmetry. apply Permutation_middle.
    + subst tmp'. split; [| done]. done.
  - destruct H as [-> ->]. simpl. split; [| done]. done.
Qed.

(** *** Reachable states *)

Lemma call_sized fuel m o m' :
  map_sized m → total_size m + 1 < 2 ^ 64 → call fuel m o = Ok m' →
  map_sized m' ∧ total_size m' ≤ total_size m + 1.
Proof.
  intros Hs Hsum. destruct o as [node | key comparator | key comparator]; simpl.
  - intros Hins. destruct (insert_sized _ _ _ _ Hs Hsum Hins) as (? & ? & _).
    split; [done | lia].
  - intros ([r m1] & [Hr _]%find_inv & [= <-])%bind_Ok.
    destruct (help_resize_sized _ _ _ Hs Hr) as (? & ? & _). split; [done | lia].
  - intros ([r m1] & Hrem & [= <-])%bind_Ok.
    destruct (remove_sized _ _ _ _ _ _ Hs Hrem) as (? & ? & _). split; [done | lia].
Qed.

Lemma run_sized fuel ops : ∀ m m',
  map_sized m → total_size m + Z.of_nat (length ops) < 2 ^ 64 →
  run fuel m ops = Ok m' → map_sized m'.
Proof.
  induction ops as [|o ops IH]; intros m m' Hs Hsum; simpl.
  { by intros [= <-]. }
  simpl in Hsum. intros (m1 & Ha & Hrun)%bind_Ok.
  destruct (call_sized _ _ _ _ Hs ltac:(lia) Ha) as [Hs1 Htot1].
  apply (IH m1 m' Hs1); [lia | done].
Qed.

Lemma map_sized_default : map_sized (@HMap.default T).
Proof.
  split; [apply map_ok_default |]. split; [by unfold sized; simpl |].
  split; [done |]. unfold total_size. simpl. lia.
Qed.

Lemma reachable_sized m : reachable m → map_sized m.
Proof.
  intros (fuel & ops & Hlen & Hrun).
  eapply run_sized; [apply map_sized_default | | exact Hrun].
  unfold total_size. simpl. lia.
Qed.

(** *** The invariant of a key stored once *)

Lemma keeps_stored_once key comparator m m' :
  keeps key comparator m m' →
  map_sized m → stored_once m key comparator →
  map_sized m' ∧ stored_once m' key comparator.
Proof.
  unfold stored_once.
  intros [fuel m1 m2 Hr | m1 node m2 Hc Hsum Hpre | fuel m1 node m2 Hc Hsum Hins
          | fuel m1 key' comparator' r m2 Hf | fuel m1 key' comparator' r m2 Hrem Hr]
    Hs Hone.
  - destruct (help_resize_sized _ _ _ Hs Hr) as (? & _ & Hall).
    split; [done |]. by rewrite (count_matching_perm _ _ _ _ Hall).
  - destruct (before_migration_sized _ _ _ Hs Hsum Hpre) as (? & Hall).
    split; [done |]. rewrite (count_matching_perm _ _ _ _ Hall). simpl.
    by rewrite Hc.
  - destruct (insert_sized _ _ _ _ Hs Hsum Hins) as (? & _ & Hall).
    split; [done |]. rewrite (count_matching_perm _ _ _ _ Hall). simpl.
    by rewrite Hc.
  - apply find_inv in Hf as [Hr _].
    destruct (help_resize_sized _ _ _ Hs Hr) as (? & _ & Hall).
    split; [done |]. by rewrite (count_matching_perm _ _ _ _ Hall).
  - destruct (remove_sized _ _ _ _ _ _ Hs Hrem) as (? & _ & Hall).
    split; [done |]. destruct r as [node|].
    + rewrite (count_matching_perm _ _ _ _ Hall) in Hone. simpl in Hone.
      by rewrite (Hr node eq_refl) in Hone.
    + by rewrite (count_matching_perm _ _ _ _ Hall).
Qed.

Lemma lookup_counts tb key comparator :
  primary_ok tb → digest_consistent comparator key →
  (∃ node, HTable.lookup tb key comparator = Ok (Some node)) ↔
  count_matching comparator key (entries tb) ≠ 0%nat.
Proof.
  intros Hok Hcons.
  destruct (primary_lookup tb key comparator Hok Hcons) as (r & Hl & Hnone & _).
  rewrite count_matching_zero, <- Hnone, Hl. split.
  - intros [node [= ->]]. done.
  - intros Hne. destruct r as [node|]; [by eauto | done].
Qed.

Lemma stored_once_in_one_table m key comparator :
  map_ok m → digest_consistent comparator key →
  stored_once m key comparator → in_one_table m key comparator.
Proof.
  intros Hok Hcons Hone.
  unfold stored_once, all_entries in Hone. rewrite count_matching_app in Hone.
  pose proof (lookup_counts _ key comparator (map_ok_primary _ Hok) Hcons) as Hp.
  assert (in_retiring m key comparator ↔
          count_matching comparator key (retiring_entries m) ≠ 0%nat) as Ht.
  { unfold in_retiring, retiring_entries. destruct Hok as [_ Hok].
    destruct (HMap.temporary_table_ m) as [tmp|].
    - destruct Hok as [_ Htmp].
      rewrite <- (lookup_counts tmp key comparator (or_intror Htmp) Hcons).
      split; [by intros (? & ? & [= <-] & ?); eauto | intros [? ?]; eauto].
    - simpl. split; [by intros (? & ? & [=] & _) | done]. }
  unfold in_one_table, in_primary. rewrite Hp, Ht.
  destruct (count_matching comparator key (entries (HMap.primary_table_ m)));
    [right | left]; split; lia.
Qed.

Lemma stored_key_invariant key comparator m0 m :
  map_sized m0 → stored_once m0 key comparator →
  rtc (keeps key comparator) m0 m →
  map_sized m ∧ stored_once m key comparator.
Proof.
  intros Hs Hone Hsteps.
  induction Hsteps as [m | m1 m2 m3 Hstep _ IH]; [done |].
  destruct (keeps_stored_once _ _ _ _ Hstep Hs Hone). by apply IH.
Qed.

(** C1 (amended) — Take a state [m0] a caller can reach (with fewer than
    2^64 calls) in which exactly one node matches the key [key], under a
    comparator that matches [key] only on nodes of its digest. Through
    any sequence of calls that neither stores another node of that key
    nor detaches its node — [help_resize] slices, the first half of an
    [insert] (up to and including [start_resize]), whole [insert]s,
    [find]s and [remove]s — [lookup] finds a match in exactly one of
    the current and the retiring table after every step, also once the
    retiring table is gone, and [find], whenever it returns, returns a
    match. *)
Theorem key_stays_in_one_table (key : HNode T)
    (comparator : HNode T → HNode T → bool) (m0 m : HMap.t T) :
  reachable m0 → digest_consistent comparator key →
  stored_once m0 key comparator →
  rtc (keeps key comparator) m0 m →
  in_one_table m key comparator ∧
  ∀ fuel r m', HMap.find fuel m key comparator = Ok (r, m') →
               ∃ node, r = Some node ∧ comparator node key = true.
Proof.
  intros Hs%reachable_sized Hcons Hone Hsteps.
  destruct (stored_key_invariant _ _ _ _ Hs Hone Hsteps) as [Hs' Hone'].
  split; [by apply stored_once_in_one_table; [apply Hs' | |] |].
  intros fuel r m' Hf.
  destruct (keeps_stored_once _ _ _ _ (keeps_find _ _ _ _ _ _ _ _ Hf) Hs' Hone')
    as [Hs'' Hone''].
  apply find_inv in Hf as [_ Hans].
  destruct (find_answer m' key comparator r (proj1 Hs'') Hcons Hans) as [Hnone Hsome].
  destruct r as [node|]; [exists node; split; [done | by apply Hsome] |].
  destruct Hnone as [Hnone _]. specialize (Hnone eq_refl).
  apply count_matching_zero in Hnone. unfold stored_once in Hone''. lia.
Qed.

(** *** Runs of insertions keep the counters exact *)

Lemma run_inserts_keep_counted fuel (nodes : list (HNode T)) : ∀ m m',
  map_counted m →
  total_size m + Z.of_nat (length nodes) < 2 ^ 64 →
  run fuel m (Insert <$> nodes) = Ok m' →
  map_counted m' ∧ all_entries m' ≡ₚ nodes ++ all_entries m.
Proof.
  induction nodes as [|node nodes IH]; intros m m' Hc Hsum; simpl.
  { by intros [= <-]. }
  simpl in Hsum. intros (m1 & Hins & Hrun)%bind_Ok.
  destruct (insert_counted _ _ _ _ Hc ltac:(lia) Hins) as (Hc1 & Htot1 & Hall1).
  destruct (IH m1 m' Hc1 ltac:(lia) Hrun) as [Hc' Hall'].
  split; [done |]. rewrite Hall', Hall1. symmetry. apply Permutation_middle.
Qed.

Lemma map_counted_sized m : map_counted m → map_sized m.
Proof.
  intros (Hok & Hcp & Hct & Hsum).
  split; [done |]. split; [unfold sized; rewrite Hcp; lia |].
  split; [| done].
  destruct (HMap.temporary_table_ m); [| done].
  destruct Hct as [Hct _]. unfold sized. rewrite Hct. lia.
Qed.

End OneTable.

(** ** The scenario of 33 keys *)

Lemma same_key_consistent (key : HNode Z) : digest_consistent same_key key.
Proof.
  intros node H. unfold same_key in H.
  apply andb_true_iff in H as [H _]. by apply Z.eqb_eq.
Qed.

Lemma insert_keys_fmap ks : insert_keys ks = Insert <$> (key_node <$> ks).
Proof. unfold insert_keys. by rewrite <- list_fmap_compose. Qed.

Lemma state_after_counted fuel ks :
  Z.of_nat (length ks) < 2 ^ 64 →
  run fuel HMap.default (insert_keys ks) = Ok (state_after fuel (insert_keys ks)) →
  map_counted (state_after fuel (insert_keys ks)).
Proof.
  intros Hlen Hrun. rewrite insert_keys_fmap in *.
  eapply (run_inserts_keep_counted fuel (key_node <$> ks) HMap.default);
    [apply map_counted_default | | exact Hrun].
  rewrite length_fmap. unfold total_size. simpl. lia.
Qed.

Lemma state_after_ok fuel ops :
  run fuel HMap.default ops = Ok (state_after fuel ops) →
  map_ok (state_after fuel ops).
Proof. intros Hrun. by destruct (run_map_ok fuel ops _ _ map_ok_default Hrun). Qed.

(** ** The scenario of 33 keys, for any digest *)

Section Scenario.
Context {T : Type}.
Implicit Types (m : HMap.t T) (node : HNode T).

Lemma stable_at_4_default : stable_at_4 (@HMap.default T) 0.
Proof. split; [apply map_counted_default | done]. Qed.

Lemma stable_at_4_nonneg m n : stable_at_4 m n → 0 ≤ n.
Proof.
  intros ((_ & Hcp & _) & Htmp & <- & _). unfold total_size.
  rewrite Htmp, Hcp. lia.
Qed.

(** Below 32 nodes an insertion into the table of capacity 4 starts no
    resize, on any fuel. *)
Lemma insert_stable fuel m node n :
  stable_at_4 m n → n + 1 < 32 →
  ∃ m', HMap.insert fuel m node = Ok m' ∧ stable_at_4 m' (n + 1) ∧
        all_entries m' ≡ₚ node :: all_entries m.
Proof.
  intros Hst Hn. pose proof (stable_at_4_nonneg m n Hst) as Hnn.
  destruct Hst as (Hc & Htmp & Htot & Hmask).
  destruct (before_migration_counted m node Hc ltac:(lia))
    as (p1 & Hpre & Hc1 & Htot1 & Hall & Hok1 & Hsize & Hmask1).
  assert (HTable.size_ p1 = n + 1) as Hsz.
  { unfold total_size in Htot. rewrite Htmp in Htot. lia. }
  assert (before_migration m p1 = HMap.mk p1 None (HMap.resizing_pos_ m)) as Hbm.
  { unfold before_migration. rewrite Htmp, Hsz, Hmask1, Hmask.
    destruct (Z.leb_spec 8 ((n + 1) / (3 + 1))) as [Hle |]; [| done].
    pose proof (Z.div_lt_upper_bound (n + 1) (3 + 1) 8). lia. }
  rewrite Hbm in *.
  exists (HMap.mk p1 None (HMap.resizing_pos_ m)).
  split; [unfold HMap.insert; by rewrite Hpre |].
  split; [| done].
  split; [done |]. split; [done |]. split; [lia |].
  unfold ensured, HTable.empty. simpl. rewrite Hsz.
  destruct (Z.eqb_spec (n + 1) 0); [lia |]. congruence.
Qed.

Lemma run_stable fuel (nodes : list (HNode T)) : ∀ m n,
  stable_at_4 m n → n + Z.of_nat (length nodes) < 32 →
  ∃ m', run fuel m (Insert <$> nodes) = Ok m' ∧
        stable_at_4 m' (n + Z.of_nat (length nodes)) ∧
        all_entries m' ≡ₚ nodes ++ all_entries m.
Proof.
  induction nodes as [|node nodes IH]; intros m n Hst Hn; simpl in Hn |- *.
  { exists m. split; [done |]. split; [by rewrite Z.add_0_r | done]. }
  destruct (insert_stable fuel m node n Hst ltac:(lia)) as (m1 & Hins & Hst1 & Hall1).
  destruct (IH m1 (n + 1) Hst1 ltac:(lia)) as (m' & Hrun & Hst' & Hall').
  exists m'. rewrite Hins. simpl. split; [done |]. split.
  - match goal with
    | |- stable_at_4 _ ?x =>
        replace x with (n + 1 + Z.of_nat (length nodes)) by lia
    end. done.
  - rewrite Hall', Hall1. symmetry. apply Permutation_middle.
Qed.

Lemma stable_at_4_capacity m n :
  stable_at_4 m n → n ≠ 0 →
  HTable.capacity (HMap.primary_table_ m) = 4 ∧ HMap.size m = n ∧
  HTable.size_ (HMap.primary_table_ m) = n ∧
  HTable.mask_ (HMap.primary_table_ m) = 3.
Proof.
  intros Hst Hn. pose proof (stable_at_4_nonneg m n Hst) as Hnn.
  destruct Hst as ((_ & _ & _ & Hsum) & Htmp & Htot & Hmask).
  unfold HMap.size, HTable.size, total_size in *. rewrite Htmp in *.
  rewrite Z.add_0_r in *.
  unfold ensured, HTable.empty in Hmask. rewrite Htot in Hmask.
  destruct (Z.eqb_spec n 0); [done |].
  unfold HTable.capacity. rewrite Hmask, Htot.
  split; [done |]. split; [apply wrap64_small; lia | done].
Qed.

(** A slice on counters that count, with 19 rounds of fuel and a
    retiring table of capacity 4. *)
Lemma slice_of_4 fuel m tmp :
  (19 ≤ fuel)%nat → map_counted m →
  HMap.temporary_table_ m = Some tmp → HTable.mask_ tmp = 3 →
  ∃ m', HMap.help_resize fuel m = Ok m' ∧ map_counted m' ∧
        total_size m' = total_size m ∧ all_entries m' ≡ₚ all_entries m ∧
        HTable.mask_ (HMap.primary_table_ m') = HTable.mask_ (HMap.primary_table_ m) ∧
        HTable.size_ (HMap.primary_table_ m')
          = HTable.size_ (HMap.primary_table_ m) + Z.min 15 (HTable.size_ tmp) ∧
        if HTable.size_ tmp <=? 15 then HMap.temporary_table_ m' = None
        else ∃ tmp', HMap.temporary_table_ m' = Some tmp' ∧
                     HTable.mask_ tmp' = 3 ∧
                     HTable.size_ tmp' = HTable.size_ tmp - 15.
Proof.
  intros Hfuel Hc Htmp Hmask.
  destruct (help_resize_returns fuel m Hc) as [m' Hr].
  { intros tmp0 Htmp0. assert (tmp0 = tmp) as -> by congruence. lia. }
  exists m'. split; [done |].
  destruct (help_resize_counted _ _ _ Hc Hr) as (Hc' & Htot & Hall).
  destruct (help_resize_exact _ _ _ _ Hc Htmp Hr) as (Hm & Hs & Hrest).
  repeat (split; [done |]).
  destruct (HTable.size_ tmp <=? 15); [done |].
  destruct Hrest as (tmp' & ? & ? & ?). exists tmp'. split; [done |].
  split; [congruence | done].
Qed.

End Scenario.

Lemma same_key_eq (a b : HNode Z) : same_key a b = true → a = b.
Proof.
  unfold same_key. intros [H1 H2]%andb_true_iff.
  apply Z.eqb_eq in H1, H2. destruct a, b. simpl in *. by subst.
Qed.

Lemma same_key_refl (a : HNode Z) : same_key a a = true.
Proof. unfold same_key. by rewrite !Z.eqb_refl. Qed.

(** With no resize in progress [find] is a [lookup] in the current table:
    it returns the stored node of the key, on any fuel. *)
Lemma find_stored (fuel : nat) (m : HMap.t Z) (node : HNode Z) :
  map_ok m → HMap.temporary_table_ m = None → node ∈ all_entries m →
  HMap.find fuel m node same_key = Ok (Some node, m).
Proof.
  intros Hok Htmp Hin.
  assert (HMap.help_resize fuel m = Ok m) as Hr
    by (unfold HMap.help_resize; by rewrite Htmp).
  destruct (find_after_slice m node same_key fuel m Hok Hr) as [r Hf].
  pose proof (find_inv _ _ _ _ _ _ Hf) as [_ Hans].
  destruct (find_answer m node same_key r Hok (same_key_consistent node) Hans)
    as [Hnone Hsome].
  destruct r as [found|].
  - destruct (Hsome found eq_refl) as [_ ->%same_key_eq]. done.
  - destruct Hnone as [Hnone _]. pose proof (Hnone eq_refl node Hin) as H.
    rewrite same_key_refl in H. discriminate.
Qed.

(** C7 (amended) — Whatever the digests of the keys, and on any fuel from
    19 rounds up: keys 0..30 leave the dictionary with one table of
    capacity 4 and 31 nodes. The insertion of key 31 makes the size 32 and
    the load factor 32/4 = 8, and starts the resize: the current table has
    capacity 8, the retiring one capacity 4. Key 32 is inserted during the
    migration and starts no resize; the size is 33. One more call, here a
    [find], drains the retiring table; from then on [find] returns every
    one of the 33 keys and [size()] is 33. *)
Theorem scenario_33_keys (digest : Z → Z) (fuel : nat) :
  (19 ≤ fuel)%nat →
  ∃ (m31 m32 m33 m34 : HMap.t Z) (r : option (HNode Z)),
    run fuel HMap.default (Insert <$> (digest_node digest <$> keys_upto 31))
      = Ok m31 ∧
    (HMap.temporary_table_ m31 = None ∧
     HTable.capacity (HMap.primary_table_ m31) = 4 ∧ HMap.size m31 = 31) ∧
    (starts_resize m31 (digest_node digest 31) ∧
     HMap.insert fuel m31 (digest_node digest 31) = Ok m32 ∧
     HTable.capacity (HMap.primary_table_ m32) = 8 ∧
     (∃ tmp, HMap.temporary_table_ m32 = Some tmp ∧ HTable.capacity tmp = 4) ∧
     HMap.size m32 = 32) ∧
    (¬ starts_resize m32 (digest_node digest 32) ∧
     HMap.insert fuel m32 (digest_node digest 32) = Ok m33 ∧
     is_Some (HMap.temporary_table_ m33) ∧ HMap.size m33 = 33) ∧
    (HMap.find fuel m33 (digest_node digest 0) same_key = Ok (r, m34) ∧
     HMap.temporary_table_ m34 = None ∧
     HTable.capacity (HMap.primary_table_ m34) = 8 ∧ HMap.size m34 = 33) ∧
    Forall (λ k, HMap.find fuel m34 (digest_node digest k) same_key
                 = Ok (Some (digest_node digest k), m34))
           (keys_upto 33).
Proof.
  intros Hfuel. set (node := digest_node digest).
  (* keys 0..30 *)
  destruct (run_stable fuel (node <$> keys_upto 31) HMap.default 0 stable_at_4_default)
    as (m31 & Hrun31 & Hst31 & Hall31); [by vm_compute |].
  change (0 + Z.of_nat (length (node <$> keys_upto 31))) with 31 in Hst31.
  rewrite app_nil_r in Hall31.
  destruct (stable_at_4_capacity m31 31 Hst31 ltac:(lia)) as (Hcap31 & Hsize31 & Hsz31 & Hmk31).
  destruct Hst31 as (Hc31 & Htmp31 & Htot31 & Hmask31).
  (* key 31 *)
  destruct (before_migration_counted m31 (node 31) Hc31 ltac:(lia))
    as (p1 & Hpre & Hcb & Htotb & Hallb & Hok1 & Hsz1 & Hmask1).
  rewrite Hsz31 in Hsz1. rewrite Hmask31 in Hmask1.
  assert (before_migration m31 p1 = HMap.mk (fresh 8) (Some p1) 0) as Hbm.
  { unfold before_migration. by rewrite Htmp31, Hsz1, Hmask1. }
  rewrite Hbm in *.
  destruct (slice_of_4 fuel _ p1 Hfuel Hcb eq_refl Hmask1)
    as (m32 & Hr32 & Hc32 & Htot32 & Hall32 & Hm32 & Hs32 & Hrest32).
  rewrite Hsz1 in Hs32, Hrest32. simpl in Hm32, Hs32, Hrest32.
  destruct Hrest32 as (tmp32 & Htmp32 & Hmt32 & Hst32).
  (* key 32 *)
  destruct (before_migration_counted m32 (node 32) Hc32 ltac:(lia))
    as (p2 & Hpre2 & Hcb2 & Htotb2 & Hallb2 & Hok2 & Hsz2 & Hmask2).
  assert (ensured m32 = HMap.primary_table_ m32) as Hens32.
  { unfold ensured, HTable.empty. by rewrite Hs32. }
  rewrite Hens32, Hm32 in Hmask2. rewrite Hs32 in Hsz2.
  assert (before_migration m32 p2 = HMap.mk p2 (Some tmp32) (HMap.resizing_pos_ m32)) as Hbm2.
  { unfold before_migration. by rewrite Htmp32. }
  rewrite Hbm2 in *.
  destruct (slice_of_4 fuel _ tmp32 Hfuel Hcb2 eq_refl Hmt32)
    as (m33 & Hr33 & Hc33 & Htot33 & Hall33 & Hm33 & Hs33 & Hrest33).
  rewrite Hst32 in Hs33, Hrest33. simpl in Hm33, Hs33, Hrest33.
  destruct Hrest33 as (tmp33 & Htmp33 & Hmt33 & Hst33).
  (* one more call *)
  destruct (slice_of_4 fuel m33 tmp33 Hfuel Hc33 Htmp33 Hmt33)
    as (m34 & Hr34 & Hc34 & Htot34 & Hall34 & Hm34 & Hs34 & Htmp34).
  rewrite Hst33 in Hs34, Htmp34. simpl in Hs34, Htmp34.
  destruct (find_after_slice m33 (node 0) same_key fuel m34 (proj1 Hc34) Hr34)
    as [r Hf].
  exists m31, m32, m33, m34, r.
  split; [done |]. split; [done |]. split; [| split; [| split]].
  - split.
    { split; [done |]. rewrite Hpre. by eexists. }
    split; [unfold HMap.insert; rewrite Hpre; exact Hr32 |].
    split; [unfold HTable.capacity; by rewrite Hm32 |].
    split; [exists tmp32; split; [done |]; unfold HTable.capacity; by rewrite Hmt32 |].
    unfold HMap.size, HTable.size. by rewrite Htmp32, Hs32, Hst32.
  - split; [intros [H _]; congruence |].
    split; [unfold HMap.insert; rewrite Hpre2; exact Hr33 |].
    split; [by eexists |].
    unfold HMap.size, HTable.size. by rewrite Htmp33, Hs33, Hst33, Hsz2.
  - split; [done |]. split; [done |].
    split; [unfold HTable.capacity; by rewrite Hm34, Hm33, Hmask2 |].
    unfold HMap.size, HTable.size. by rewrite Htmp34, Hs34, Hs33, Hsz2.
  - apply Forall_forall. intros k Hk.
    apply find_stored; [apply Hc34 | done |].
    rewrite Hall34, Hall33, Hallb2, Hall32, Hallb, Hall31.
    change (keys_upto 33) with (keys_upto 31 ++ [31; 32]) in Hk.
    apply elem_of_app in Hk as [Hk | Hk].
    + do 2 right. by apply list_elem_of_fmap_2.
    + apply elem_of_cons in Hk as [-> | Hk]; [right; left |].
      apply list_elem_of_singleton in Hk as ->. left.
Qed.

(** C7, as stated, fails: when key 32 is inserted, after keys 0..31, the
    retiring table is there already and the insertion starts no resize. *)
Lemma no_resize_on_key_32 :
  run 64 HMap.default (insert_keys (keys_upto 32))
    = Ok (state_after 64 (insert_keys (keys_upto 32))) ∧
  is_Some (HMap.temporary_table_ (state_after 64 (insert_keys (keys_upto 32)))) ∧
  ¬ starts_resize (state_after 64 (insert_keys (keys_upto 32))) (key_node 32).
Proof.
  split; [by vm_compute |]. split; [vm_compute; by eexists |].
  intros [H _]. vm_compute in H. discriminate.
Qed.

(** C1, as stated, fails: key 1 is inserted twice among 32 insertions;
    the resize the last of them starts moves one of its nodes and leaves
    the other, and [lookup] finds the key in both tables. *)
Lemma duplicate_key_in_both_tables :
  run 64 HMap.default (insert_keys (keys_upto 31 ++ [1]))
    = Ok (state_after 64 (insert_keys (keys_upto 31 ++ [1]))) ∧
  in_primary (state_after 64 (insert_keys (keys_upto 31 ++ [1])))
             (key_node 1) same_key ∧
  in_retiring (state_after 64 (insert_keys (keys_upto 31 ++ [1])))
              (key_node 1) same_key ∧
  ¬ in_one_table (state_after 64 (insert_keys (keys_upto 31 ++ [1])))
                 (key_node 1) same_key.
Proof.
  assert (in_primary (state_after 64 (insert_keys (keys_upto 31 ++ [1])))
                     (key_node 1) same_key) as Hp.
  { vm_compute. by eexists. }
  assert (in_retiring (state_after 64 (insert_keys (keys_upto 31 ++ [1])))
                      (key_node 1) same_key) as Ht.
  { vm_compute. by eexists _, _. }
  split; [by vm_compute |]. split; [done |]. split; [done |].
  intros [[_ Hn] | [Hn _]]; by apply Hn.
Qed.

(** ** Instances of the theorems *)

Lemma scenario_33_keys_witness :
  (19 ≤ 64)%nat ∧
  ∃ (m31 m32 m33 m34 : HMap.t Z) (r : option (HNode Z)),
    run 64 HMap.default (Insert <$> (digest_node (λ k, k) <$> keys_upto 31))
      = Ok m31 ∧
    (HMap.temporary_table_ m31 = None ∧
     HTable.capacity (HMap.primary_table_ m31) = 4 ∧ HMap.size m31 = 31) ∧
    (starts_resize m31 (digest_node (λ k, k) 31) ∧
     HMap.insert 64 m31 (digest_node (λ k, k) 31) = Ok m32 ∧
     HTable.capacity (HMap.primary_table_ m32) = 8 ∧
     (∃ tmp, HMap.temporary_table_ m32 = Some tmp ∧ HTable.capacity tmp = 4) ∧
     HMap.size m32 = 32) ∧
    (¬ starts_resize m32 (digest_node (λ k, k) 32) ∧
     HMap.insert 64 m32 (digest_node (λ k, k) 32) = Ok m33 ∧
     is_Some (HMap.temporary_table_ m33) ∧ HMap.size m33 = 33) ∧
    (HMap.find 64 m33 (digest_node (λ k, k) 0) same_key = Ok (r, m34) ∧
     HMap.temporary_table_ m34 = None ∧
     HTable.capacity (HMap.primary_table_ m34) = 8 ∧ HMap.size m34 = 33) ∧
    Forall (λ k, HMap.find 64 m34 (digest_node (λ k, k) k) same_key
                 = Ok (Some (digest_node (λ k, k) k), m34))
           (keys_upto 33).
Proof. split; [lia |]. apply (scenario_33_keys (λ k, k) 64). lia. Defined.

Lemma key_stays_in_one_table_witness :
  reachable (state_after 64 (insert_keys (keys_upto 31))) ∧
  digest_consistent same_key (key_node 3) ∧
  stored_once (state_after 64 (insert_keys (keys_upto 31))) (key_node 3) same_key ∧
  rtc (keeps (key_node 3) same_key)
      (state_after 64 (insert_keys (keys_upto 31)))
      (state_after 64 (insert_keys (keys_upto 32))) ∧
  in_one_table (state_after 64 (insert_keys (keys_upto 32))) (key_node 3) same_key ∧
  ∀ fuel r m',
    HMap.find fuel (state_after 64 (insert_keys (keys_upto 32))) (key_node 3) same_key
      = Ok (r, m') →
    ∃ node, r = Some node ∧ same_key node (key_node 3) = true.
Proof.
  assert (reachable (state_after 64 (insert_keys (keys_upto 31)))) as Hs.
  { exists 64%nat, (insert_keys (keys_upto 31)). split; by vm_compute. }
  assert (stored_once (state_after 64 (insert_keys (keys_upto 31)))
                      (key_node 3) same_key) as Hone by (by vm_compute).
  assert (rtc (keeps (key_node 3) same_key)
              (state_after 64 (insert_keys (keys_upto 31)))
              (state_after 64 (insert_keys (keys_upto 32)))) as Hsteps.
  { apply rtc_once. apply (keeps_insert _ _ 64 _ (key_node 31));
      [by vm_compute | by vm_compute | by vm_compute]. }
  split; [done |]. split; [apply same_key_consistent |].
  split; [done |]. split; [done |].
  exact (key_stays_in_one_table (key_node 3) same_key _ _ Hs
           (same_key_consistent (key_node 3)) Hone Hsteps).
Defined.

Lemma size_counts_inserted_nodes_witness :
  Z.of_nat (length [key_node 7; key_node 7]) < 2 ^ 64 ∧
  ∃ fuel0, ∀ fuel, (fuel0 ≤ fuel)%nat →
    ∃ m, run fuel HMap.default (Insert <$> [key_node 7; key_node 7]) = Ok m ∧
         HMap.size m = Z.of_nat (length [key_node 7; key_node 7]) ∧
         all_entries m ≡ₚ [key_node 7; key_node 7].
Proof.
  split; [by vm_compute |].
  apply (size_counts_inserted_nodes [key_node 7; key_node 7]). by vm_compute.
Defined.

Lemma help_resize_bounded_work_witness :
  HMap.help_resize 64 (state_after 64 (insert_keys (keys_upto 32)))
    = Ok (state_after 64 (insert_keys (keys_upto 32) ++ [Find (key_node 0) same_key])) ∧
  migrated_at_most 15
    (state_after 64 (insert_keys (keys_upto 32)))
    (state_after 64 (insert_keys (keys_upto 32) ++ [Find (key_node 0) same_key])).
Proof.
  split; [by vm_compute |].
  apply (proj1 (help_resize_bounded_work 64 (state_after 64 (insert_keys (keys_upto 32))))).
  by vm_compute.
Defined.

Lemma capacity_after_operations_witness :
  run 64 HMap.default (insert_keys (keys_upto 33))
    = Ok (state_after 64 (insert_keys (keys_upto 33))) ∧
  (∀ tmp, HMap.temporary_table_ (state_after 64 (insert_keys (keys_upto 33))) = Some tmp →
          capacity_ok (HTable.capacity tmp)) ∧
  (if existsb is_insert (insert_keys (keys_upto 33))
   then capacity_ok (HTable.capacity
                       (HMap.primary_table_ (state_after 64 (insert_keys (keys_upto 33)))))
   else HTable.capacity
          (HMap.primary_table_ (state_after 64 (insert_keys (keys_upto 33)))) = 1).
Proof.
  split; [by vm_compute |].
  apply (capacity_after_operations 64 (insert_keys (keys_upto 33))). by vm_compute.
Defined.

Lemma find_not_found_iff_absent_witness :
  map_ok (state_after 64 (insert_keys (keys_upto 33))) ∧
  digest_consistent same_key (key_node 40) ∧
  HMap.find 64 (state_after 64 (insert_keys (keys_upto 33))) (key_node 40) same_key
    = Ok (None, state_after 64 (insert_keys (keys_upto 33) ++ [Find (key_node 40) same_key])) ∧
  ((HMap.help_resize 64 (state_after 64 (insert_keys (keys_upto 33))) = Fail OutOfFuel ∧
    HMap.find 64 (state_after 64 (insert_keys (keys_upto 33))) (key_node 40) same_key
      = Fail OutOfFuel) ∨
   (∃ r m',
      HMap.find 64 (state_after 64 (insert_keys (keys_upto 33))) (key_node 40) same_key
        = Ok (r, m') ∧
      HMap.help_resize 64 (state_after 64 (insert_keys (keys_upto 33))) = Ok m' ∧
      (∃ r1, HTable.lookup (HMap.primary_table_ m') (key_node 40) same_key = Ok r1 ∧
         match r1 with
         | Some node => r = Some node
         | None =>
             match HMap.temporary_table_ m' with
             | Some tmp => HTable.lookup tmp (key_node 40) same_key = Ok r
             | None => r = None
             end
         end) ∧
      (r = None ↔
       ∀ node, node ∈ all_entries m' → same_key node (key_node 40) = false) ∧
      (∀ node, r = Some node →
               node ∈ all_entries m' ∧ same_key node (key_node 40) = true))) ∧
  (map_counted (state_after 64 (insert_keys (keys_upto 33))) →
   ∃ fuel0, ∀ fuel', (fuel0 ≤ fuel')%nat →
     ∃ r m', HMap.find fuel' (state_after 64 (insert_keys (keys_upto 33)))
               (key_node 40) same_key = Ok (r, m')).
Proof.
  assert (map_ok (state_after 64 (insert_keys (keys_upto 33)))) as Hok.
  { apply state_after_ok. by vm_compute. }
  split; [done |]. split; [apply same_key_consistent |].
  split; [by vm_compute |].
  exact (find_not_found_iff_absent 64 _ (key_node 40) same_key Hok
           (same_key_consistent (key_node 40))).
Defined.

Lemma help_resize_preserves_map_witness :
  map_ok (state_after 64 (insert_keys (keys_upto 32))) ∧
  (∀ tmp, HMap.temporary_table_ (state_after 64 (insert_keys (keys_upto 32))) = Some tmp →
          sized tmp) ∧
  HMap.help_resize 64 (state_after 64 (insert_keys (keys_upto 32)))
    = Ok (state_after 64 (insert_keys (keys_upto 32) ++ [Find (key_node 0) same_key])) ∧
  HMap.size (state_after 64 (insert_keys (keys_upto 32) ++ [Find (key_node 0) same_key]))
    = HMap.size (state_after 64 (insert_keys (keys_upto 32))) ∧
  all_entries (state_after 64 (insert_keys (keys_upto 32) ++ [Find (key_node 0) same_key]))
    ≡ₚ all_entries (state_after 64 (insert_keys (keys_upto 32))) ∧
  ∃ moved,
    entries (HMap.primary_table_
               (state_after 64 (insert_keys (keys_upto 32) ++ [Find (key_node 0) same_key])))
      ≡ₚ moved ++ entries (HMap.primary_table_ (state_after 64 (insert_keys (keys_upto 32)))) ∧
    retiring_entries (state_after 64 (insert_keys (keys_upto 32)))
      ≡ₚ moved ++ retiring_entries
                    (state_after 64 (insert_keys (keys_upto 32) ++ [Find (key_node 0) same_key])).
Proof.
  assert (map_ok (state_after 64 (insert_keys (keys_upto 32)))) as Hok.
  { apply state_after_ok. by vm_compute. }
  assert (∀ tmp, HMap.temporary_table_ (state_after 64 (insert_keys (keys_upto 32))) = Some tmp →
                 sized tmp) as Hs.
  { intros tmp Htmp.
    assert (map_sized (state_after 64 (insert_keys (keys_upto 32)))) as (_ & _ & Hst & _).
    { apply map_counted_sized, state_after_counted; [by vm_compute | by vm_compute]. }
    by rewrite Htmp in Hst. }
  assert (HMap.help_resize 64 (state_after 64 (insert_keys (keys_upto 32)))
          = Ok (state_after 64 (insert_keys (keys_upto 32) ++ [Find (key_node 0) same_key])))
    as Hr by (by vm_compute).
  split; [done |]. split; [done |]. split; [done |].
  exact (help_resize_preserves_map 64 _ _ Hok Hs Hr).
Defined.

Lemma retiring_table_never_grows_witness :
  HMap.temporary_table_ (state_after 64 (insert_keys (keys_upto 32)))
    = Some (retiring_of (state_after 64 (insert_keys (keys_upto 32)))) ∧
  0 ≤ HTable.size_ (retiring_of (state_after 64 (insert_keys (keys_upto 32)))) < 2 ^ 64 ∧
  call 64 (state_after 64 (insert_keys (keys_upto 32))) (Remove (key_node 3) same_key)
    = Ok (state_after 64 (insert_keys (keys_upto 32) ++ [Remove (key_node 3) same_key])) ∧
  retiring_not_grown
    (retiring_of (state_after 64 (insert_keys (keys_upto 32))))
    (state_after 64 (insert_keys (keys_upto 32) ++ [Remove (key_node 3) same_key])) ∧
  (∀ node, Remove (key_node 3) same_key = Insert node →
           node ∈ entries (HMap.primary_table_
                             (state_after 64 (insert_keys (keys_upto 32)
                                              ++ [Remove (key_node 3) same_key])))).
Proof.
  split; [by vm_compute |]. split; [by vm_compute |]. split; [by vm_compute |].
  apply (retiring_table_never_grows 64
           (state_after 64 (insert_keys (keys_upto 32)))
           (retiring_of (state_after 64 (insert_keys (keys_upto 32))))
           (Remove (key_node 3) same_key)
           (state_after 64 (insert_keys (keys_upto 32) ++ [Remove (key_node 3) same_key])));
    [by vm_compute | by vm_compute | by vm_compute].
Defined.

(** ** What the counter that [remove] leaves too high does to migration *)

Section Spin.
Context {T : Type}.
Implicit Types (p tmp : HTable.t T) (m : HMap.t T) (node : HNode T).

(** A retiring table that owns no node under a counter that is not 0
    keeps the loop of [help_resize] going round its empty slots. *)
Lemma loop_spins fuel : ∀ p tmp pos w,
  table_ok p → table_ok tmp → entries tmp = [] → HTable.size_ tmp ≠ 0 →
  w < 15 → 0 ≤ pos →
  HMap.help_resize_loop fuel p tmp pos w = Fail OutOfFuel.
Proof.
  induction fuel as [|fuel IH]; intros p tmp pos w Hp Ht Hnil Hne Hw Hpos; simpl;
    (destruct (HMap.help_resize_guard tmp w) eqn:Hg;
     [| apply guard_false in Hg; lia]); [done |].
  destruct (body_defined p tmp pos w Hp Ht Hpos) as (p1 & tmp1 & pos1 & w1 & Hbody).
  rewrite Hbody. simpl.
  apply body_round in Hbody as [Hq Hr].
  destruct Hr as [node next p' Hb Hins | Hb].
  - assert (node ∈ entries tmp) as Hin.
    { apply elem_of_entries. eexists _, _. split; [exact Hb | left]. }
    rewrite Hnil in Hin. by apply elem_of_nil in Hin.
  - apply IH; try done. apply wrap64_range.
Qed.

Lemma help_resize_spins fuel m tmp :
  map_ok m → HMap.temporary_table_ m = Some tmp →
  entries tmp = [] → HTable.size_ tmp ≠ 0 →
  HMap.help_resize fuel m = Fail OutOfFuel.
Proof.
  intros [Hpos Hok] Htmp Hnil Hne. unfold HMap.help_resize.
  rewrite Htmp in *. destruct Hok as [Hp Ht].
  by rewrite (loop_spins fuel _ tmp _ 0 Hp Ht Hnil Hne).
Qed.

Lemma insert_unfold fuel m node m1 :
  HMap.insert_before_migration m node = Ok m1 →
  HMap.insert fuel m node = HMap.help_resize fuel m1.
Proof. intros H. unfold HMap.insert. by rewrite H. Qed.

End Spin.

(** After two removals [size()] is two above the number of nodes; the
    resize that the thirtieth insertion then starts moves the thirty nodes
    in two slices and is left with an empty retiring table whose counter
    is 2. From that state no call returns, on any fuel: the loop of
    [help_resize] has nothing to move and never sees [empty()]. *)
Lemma migration_spins_after_removals :
  run 64 HMap.default removals_then_resize
    = Ok (state_after 64 removals_then_resize) ∧
  HMap.size (state_after 64 removals_then_resize) = 32 ∧
  length (all_entries (state_after 64 removals_then_resize)) = 30%nat ∧
  ∀ (fuel : nat) (key : HNode Z) (comparator : HNode Z → HNode Z → bool)
    (node : HNode Z),
    HMap.find fuel (state_after 64 removals_then_resize) key comparator
      = Fail OutOfFuel ∧
    HMap.remove fuel (state_after 64 removals_then_resize) key comparator
      = Fail OutOfFuel ∧
    HMap.insert fuel (state_after 64 removals_then_resize) node
      = Fail OutOfFuel.
Proof.
  assert (run 64 HMap.default removals_then_resize
          = Ok (state_after 64 removals_then_resize)) as Hrun by (by vm_compute).
  pose proof (state_after_ok 64 _ Hrun) as Hok.
  split; [done |]. split; [by vm_compute |]. split; [by vm_compute |].
  intros fuel key comparator node.
  assert (HMap.help_resize fuel (state_after 64 removals_then_resize)
          = Fail OutOfFuel) as Hspin.
  { apply (help_resize_spins fuel _ (retiring_of (state_after 64 removals_then_resize)));
      [done | by vm_compute | by vm_compute | by vm_compute]. }
  split; [unfold HMap.find; by rewrite Hspin |].
  split; [unfold HMap.remove; by rewrite Hspin |].
  destruct (insert_before_migration_spec _ node Hok) as (p1 & _ & Hok1 & _ & _ & _ & Hpre).
  rewrite (insert_unfold fuel _ node _ Hpre).
  apply (help_resize_spins fuel _ (retiring_of (state_after 64 removals_then_resize))).
  - by destruct (before_migration_ok _ p1 Hok Hok1) as [? _].
  - unfold before_migration.
    by replace (HMap.temporary_table_ (state_after 64 removals_then_resize))
      with (Some (retiring_of (state_after 64 removals_then_resize)))
      by (by vm_compute).
  - by vm_compute.
  - by vm_compute.
Qed.

(** C8 — The claim fails on the code through the counter that [remove]
    leaves too high. The dictionary below is the one a caller has after
    two insertions, the removal of both keys, thirty insertions and one
    lookup, all of which have returned. None of its thirty nodes has the
    key 200, so [find] is to answer "not found" for it; instead the call
    does not return, whatever the fuel: its slice of migration runs on a
    retiring table that has no node left and a counter that is still 2. *)
Theorem find_hangs_on_absent_key :
  reachable (state_after 64 removals_then_resize) ∧
  digest_consistent same_key (key_node 200) ∧
  (∀ node, node ∈ all_entries (state_after 64 removals_then_resize) →
           same_key node (key_node 200) = false) ∧
  entries (retiring_of (state_after 64 removals_then_resize)) = [] ∧
  HTable.size (retiring_of (state_after 64 removals_then_resize)) = 2 ∧
  ∀ fuel : nat,
    HMap.find fuel (state_after 64 removals_then_resize) (key_node 200) same_key
      = Fail OutOfFuel.
Proof.
  split.
  { exists 64%nat, removals_then_resize. split; by vm_compute. }
  split; [apply same_key_consistent |].
  split.
  { apply count_matching_zero. by vm_compute. }
  split; [by vm_compute |]. split; [by vm_compute |].
  intros fuel.
  destruct migration_spins_after_removals as (_ & _ & _ & Hspin).
  by destruct (Hspin fuel (key_node 200) same_key (key_node 200)) as [? _].
Qed.

(** * Further properties *)

(** ** hash_string on a buffer longer or shorter than [len] *)

Lemma at_beyond {A} (v : list A) i :
  Z.of_nat (length v) ≤ i → at_ v i = Fail Undefined.
Proof.
  intros Hi. unfold at_.
  destruct (Z.leb_spec 0 i); [| done].
  rewrite (proj2 (lookup_ge_None v (Z.to_nat i))); [done | lia].
Qed.

Lemma hash_tail_prefix suf : ∀ fuel pre extra hash len,
  len = Z.of_nat (length (pre ++ suf)) → len < 2 ^ 64 →
  (length suf ≤ fuel)%nat →
  hash_tail fuel (pre ++ suf ++ extra) len (Z.of_nat (length pre)) hash
  = Ok (fold_left mix suf hash).
Proof.
  induction suf as [|b suf IH]; intros fuel pre extra hash len Hlen Hmax Hfuel.
  - rewrite app_nil_r in Hlen. destruct fuel; simpl;
      (destruct (Z.ltb_spec (Z.of_nat (length pre)) len); [lia | done]).
  - destruct fuel as [|fuel]; [simpl in Hfuel; lia |].
    rewrite length_app in Hlen. simpl in Hlen, Hfuel.
    cbn [hash_tail app].
    destruct (Z.ltb_spec (Z.of_nat (length pre)) len); [| lia].
    rewrite at_middle. cbn [mbind result_bind].
    rewrite wrap64_small by lia.
    replace (Z.of_nat (length pre) + 1) with (Z.of_nat (length (pre ++ [b])))
      by (rewrite length_app; simpl; lia).
    rewrite (cons_middle b pre (suf ++ extra)), app_assoc.
    cbn [fold_left].
    apply IH; [| done | lia].
    rewrite !length_app. simpl. lia.
Qed.

Lemma hash_unrolled_prefix fuel : ∀ suf pre extra hash len,
  len = Z.of_nat (length (pre ++ suf)) → len + 4 < 2 ^ 64 →
  (length suf < 4 * fuel + 4)%nat →
  ∃ mid rest, suf = mid ++ rest ∧ (length rest < 4)%nat ∧
    hash_unrolled fuel (pre ++ suf ++ extra) len (Z.of_nat (length pre)) hash
    = Ok (Z.of_nat (length (pre ++ mid)), fold_left mix mid hash).
Proof.
  induction fuel as [|fuel IH]; intros suf pre extra hash len Hlen Hmax Hfuel.
  - exists [], suf. rewrite app_nil_r. split; [done |]. split; [lia |].
    rewrite length_app in Hlen. simpl.
    rewrite wrap64_small by lia.
    destruct (Z.leb_spec (Z.of_nat (length pre) + 4) len); [lia | done].
  - rewrite length_app in Hlen.
    destruct (decide (length suf < 4)%nat) as [Hshort | Hlong].
    + exists [], suf. rewrite app_nil_r. split; [done |]. split; [lia |].
      simpl. rewrite wrap64_small by lia.
      destruct (Z.leb_spec (Z.of_nat (length pre) + 4) len); [lia | done].
    + destruct suf as [|b0 [|b1 [|b2 [|b3 suf]]]]; simpl in Hlong; try lia.
      simpl in Hlen, Hfuel.
      destruct (IH suf (pre ++ [b0; b1; b2; b3]) extra
                  (mix (mix (mix (mix hash b0) b1) b2) b3) len)
        as (mid & rest & -> & Hrest & Hrun).
      { rewrite !length_app. simpl. lia. }
      { done. }
      { lia. }
      exists (b0 :: b1 :: b2 :: b3 :: mid), rest.
      split; [done |]. split; [done |].
      cbn [hash_unrolled app].
      rewrite !wrap64_small by lia.
      destruct (Z.leb_spec (Z.of_nat (length pre) + 4) len); [| lia].
      rewrite at_middle. cbn [mbind result_bind].
      replace (Z.of_nat (length pre) + 1) with (Z.of_nat (length (pre ++ [b0])))
        by (rewrite length_app; simpl; lia).
      rewrite (cons_middle b0 pre), app_assoc, at_middle. cbn [mbind result_bind].
      replace (Z.of_nat (length pre) + 2) with (Z.of_nat (length (pre ++ [b0; b1])))
        by (rewrite length_app; simpl; lia).
      replace ((pre ++ [b0]) ++ b1 :: b2 :: b3 :: (mid ++ rest) ++ extra)
        with ((pre ++ [b0; b1]) ++ b2 :: b3 :: (mid ++ rest) ++ extra)
        by (by rewrite <- !app_assoc).
      rewrite at_middle. cbn [mbind result_bind].
      replace (Z.of_nat (length pre) + 3) with (Z.of_nat (length (pre ++ [b0; b1; b2])))
        by (rewrite length_app; simpl; lia).
      replace ((pre ++ [b0; b1]) ++ b2 :: b3 :: (mid ++ rest) ++ extra)
        with ((pre ++ [b0; b1; b2]) ++ b3 :: (mid ++ rest) ++ extra)
        by (by rewrite <- !app_assoc).
      rewrite at_middle. cbn [mbind result_bind].
      replace (Z.of_nat (length pre) + 4) with (Z.of_nat (length (pre ++ [b0; b1; b2; b3])))
        by (rewrite length_app; simpl; lia).
      replace ((pre ++ [b0; b1; b2]) ++ b3 :: (mid ++ rest) ++ extra)
        with ((pre ++ [b0; b1; b2; b3]) ++ (mid ++ rest) ++ extra)
        by (by rewrite <- !app_assoc).
      rewrite Hrun. f_equal. f_equal.
      rewrite !length_app. simpl. lia.
Qed.

Lemma hash_string_fold (used extra : list byte) :
  Z.of_nat (length used) + 4 < 2 ^ 64 →
  hash_string (used ++ extra) (Z.of_nat (length used))
  = Ok (fold_left mix used INITIAL).
Proof.
  intros Hmax. unfold hash_string.
  destruct (hash_unrolled_prefix (S (Z.to_nat (Z.of_nat (length used)))) used []
              extra INITIAL (Z.of_nat (length used)))
    as (mid & rest & -> & Hrest & Hrun); [done | done | lia |].
  change ([] ++ (mid ++ rest) ++ extra) with ((mid ++ rest) ++ extra) in Hrun.
  change ([] ++ mid) with mid in Hrun.
  change (Z.of_nat (length (@nil byte))) with 0 in Hrun.
  rewrite Hrun. cbn [mbind result_bind].
  rewrite <- (app_assoc mid rest extra), fold_left_app.
  apply hash_tail_prefix; [done | lia |].
  rewrite length_app. lia.
Qed.

(** X1 — [hash_string] reads the first [len] bytes of the buffer and no
    other: on a buffer of at least [len] bytes (with [len + 4] below 2^64)
    it returns the FNV-1a digest of the prefix of length [len], whatever
    bytes follow; for [len = 0] this is the offset basis 0x811C9DC5. *)
Theorem hash_string_reads_prefix (data : list byte) (len : Z) :
  0 ≤ len ≤ Z.of_nat (length data) → len + 4 < 2 ^ 64 →
  hash_string data len = Ok (fnv1a_32_spec (take (Z.to_nat len) data)) ∧
  (len = 0 → hash_string data len = Ok 0x811C9DC5).
Proof.
  intros Hlen Hmax.
  assert (hash_string data len = Ok (fnv1a_32_spec (take (Z.to_nat len) data)))
    as Hrun.
  { assert (∀ pre suf, data = pre ++ suf → len = Z.of_nat (length pre) →
                        hash_string data len = Ok (fnv1a_32_spec pre)) as Hgen.
    { intros pre suf -> ->.
      rewrite hash_string_fold; [by rewrite fnv1a_32_spec_fold | lia]. }
    apply (Hgen _ (drop (Z.to_nat len) data)); [by rewrite take_drop |].
    rewrite length_take. lia. }
  split; [done |]. intros ->. by rewrite Hrun.
Qed.

Lemma hash_string_reads_prefix_witness :
  0 ≤ 3 ≤ Z.of_nat (length ["a"; "b"; "c"; "d"; "e"]%byte) ∧ 3 + 4 < 2 ^ 64 ∧
  hash_string ["a"; "b"; "c"; "d"; "e"]%byte 3
    = Ok (fnv1a_32_spec (take (Z.to_nat 3) ["a"; "b"; "c"; "d"; "e"]%byte)) ∧
  (3 = 0 → hash_string ["a"; "b"; "c"; "d"; "e"]%byte 3 = Ok 0x811C9DC5).
Proof.
  split; [simpl; lia |]. split; [lia |].
  apply (hash_string_reads_prefix ["a"; "b"; "c"; "d"; "e"]%byte 3); [simpl; lia | lia].
Defined.

Lemma hash_tail_overrun suf : ∀ fuel pre hash len,
  Z.of_nat (length (pre ++ suf)) < len → len < 2 ^ 64 →
  (length suf < fuel)%nat →
  hash_tail fuel (pre ++ suf) len (Z.of_nat (length pre)) hash = Fail Undefined.
Proof.
  induction suf as [|b suf IH]; intros fuel pre hash len Hlen Hmax Hfuel.
  - rewrite app_nil_r in *. destruct fuel as [|fuel]; [simpl in Hfuel; lia |].
    simpl. destruct (Z.ltb_spec (Z.of_nat (length pre)) len); [| lia].
    by rewrite at_beyond by lia.
  - destruct fuel as [|fuel]; [simpl in Hfuel; lia |].
    rewrite length_app in Hlen. simpl in Hlen, Hfuel.
    cbn [hash_tail].
    destruct (Z.ltb_spec (Z.of_nat (length pre)) len); [| lia].
    rewrite at_middle. cbn [mbind result_bind].
    rewrite wrap64_small by lia.
    replace (Z.of_nat (length pre) + 1) with (Z.of_nat (length (pre ++ [b])))
      by (rewrite length_app; simpl; lia).
    rewrite (cons_middle b pre suf), app_assoc.
    apply IH; [| done | lia].
    rewrite !length_app. simpl. lia.
Qed.

Lemma hash_unrolled_overrun fuel : ∀ suf pre hash len,
  Z.of_nat (length (pre ++ suf)) < len → len + 4 < 2 ^ 64 →
  (length suf < 4 * fuel)%nat →
  hash_unrolled fuel (pre ++ suf) len (Z.of_nat (length pre)) hash
    = Fail Undefined ∨
  ∃ mid rest hash', suf = mid ++ rest ∧
    hash_unrolled fuel (pre ++ suf) len (Z.of_nat (length pre)) hash
    = Ok (Z.of_nat (length (pre ++ mid)), hash').
Proof.
  induction fuel as [|fuel IH]; intros suf pre hash len Hlen Hmax Hfuel; [lia |].
  rewrite length_app in Hlen.
  cbn [hash_unrolled]. rewrite !wrap64_small by lia.
  destruct (Z.leb_spec (Z.of_nat (length pre) + 4) len) as [Hgo | Hstop].
  - destruct suf as [|b0 suf].
    { left. rewrite app_nil_r.
      by rewrite (at_beyond pre (Z.of_nat (length pre))) by lia. }
    rewrite at_middle. cbn [mbind result_bind].
    replace (Z.of_nat (length pre) + 1) with (Z.of_nat (length (pre ++ [b0])))
      by (rewrite length_app; simpl; lia).
    rewrite (cons_middle b0 pre), app_assoc.
    destruct suf as [|b1 suf].
    { left. rewrite app_nil_r.
      by rewrite (at_beyond (pre ++ [b0]) (Z.of_nat (length (pre ++ [b0])))) by lia. }
    rewrite at_middle. cbn [mbind result_bind].
    replace (Z.of_nat (length (pre ++ [b0]))) with (Z.of_nat (length pre) + 1)
      by (rewrite length_app; simpl; lia).
    replace (Z.of_nat (length pre) + 2) with (Z.of_nat (length (pre ++ [b0; b1])))
      by (rewrite length_app; simpl; lia).
    replace ((pre ++ [b0]) ++ b1 :: suf) with ((pre ++ [b0; b1]) ++ suf)
      by (by rewrite <- !app_assoc).
    destruct suf as [|b2 suf].
    { left. rewrite app_nil_r.
      by rewrite (at_beyond (pre ++ [b0; b1]) (Z.of_nat (length (pre ++ [b0; b1])))) by lia. }
    rewrite at_middle. cbn [mbind result_bind].
    replace (Z.of_nat (length (pre ++ [b0; b1]))) with (Z.of_nat (length pre) + 2)
      by (rewrite length_app; simpl; lia).
    replace (Z.of_nat (length pre) + 3) with (Z.of_nat (length (pre ++ [b0; b1; b2])))
      by (rewrite length_app; simpl; lia).
    replace ((pre ++ [b0; b1]) ++ b2 :: suf) with ((pre ++ [b0; b1; b2]) ++ suf)
      by (by rewrite <- !app_assoc).
    destruct suf as [|b3 suf].
    { left. rewrite app_nil_r.
      by rewrite (at_beyond (pre ++ [b0; b1; b2]) (Z.of_nat (length (pre ++ [b0; b1; b2])))) by lia. }
    rewrite at_middle. cbn [mbind result_bind].
    replace (Z.of_nat (length (pre ++ [b0; b1; b2]))) with (Z.of_nat (length pre) + 3)
      by (rewrite length_app; simpl; lia).
    replace (Z.of_nat (length pre) + 4)
      with (Z.of_nat (length (pre ++ [b0; b1; b2; b3])))
      by (rewrite length_app; simpl; lia).
    replace ((pre ++ [b0; b1; b2]) ++ b3 :: suf)
      with ((pre ++ [b0; b1; b2; b3]) ++ suf)
      by (by rewrite <- !app_assoc).
    simpl in Hlen, Hfuel.
    destruct (IH suf (pre ++ [b0; b1; b2; b3])
                (mix (mix (mix (mix hash b0) b1) b2) b3) len)
      as [Hfail | (mid & rest & hash' & -> & Hrun)].
    { rewrite !length_app. simpl. lia. }
    { done. }
    { lia. }
    + by left.
    + right. exists (b0 :: b1 :: b2 :: b3 :: mid), rest, hash'.
      split; [done |]. rewrite Hrun. f_equal. f_equal.
      rewrite !length_app. simpl. lia.
  - right. exists [], suf, hash. split; [done |]. by rewrite app_nil_r.
Qed.

(** X2 — A [len] beyond the end of the buffer makes [hash_string] read
    outside of it, which is undefined behaviour: the function has no
    check of its own and relies on the caller for [len]. *)
Theorem hash_string_overrun (data : list byte) (len : Z) :
  Z.of_nat (length data) < len → len + 4 < 2 ^ 64 →
  hash_string data len = Fail Undefined.
Proof.
  intros Hlen Hmax. unfold hash_string.
  destruct (hash_unrolled_overrun (S (Z.to_nat len)) data [] INITIAL len)
    as [Hfail | (mid & rest & hash' & Hsplit & Hrun)]; [done | done | lia | |].
  - change ([] ++ data) with data in Hfail.
    change (Z.of_nat (length (@nil byte))) with 0 in Hfail.
    by rewrite Hfail.
  - change ([] ++ data) with data in Hrun.
    change ([] ++ mid) with mid in Hrun.
    change (Z.of_nat (length (@nil byte))) with 0 in Hrun.
    rewrite Hrun. cbn [mbind result_bind].
    rewrite Hsplit. apply hash_tail_overrun; [by rewrite <- Hsplit | lia |].
    rewrite Hsplit, length_app in Hlen. lia.
Qed.

Lemma hash_string_overrun_witness :
  Z.of_nat (length ["a"; "b"; "c"; "d"; "e"]%byte) < 6 ∧ 6 + 4 < 2 ^ 64 ∧
  hash_string ["a"; "b"; "c"; "d"; "e"]%byte 6 = Fail Undefined.
Proof.
  split; [simpl; lia |]. split; [lia |].
  apply (hash_string_overrun ["a"; "b"; "c"; "d"; "e"]%byte 6); [simpl; lia | lia].
Defined.

(** X3 — The digest can be continued: when a buffer has the digest [h],
    the buffer followed by further bytes has the digest that the loop's
    statement [hash = (hash ^ byte) * MULTIPLIER] gives from [h] over
    these bytes, wherever the four-byte blocks of the unrolled loop fall. *)
Theorem hash_string_continues (data more : list byte) (h : Z) :
  Z.of_nat (length (data ++ more)) + 4 < 2 ^ 64 →
  hash_string data (Z.of_nat (length data)) = Ok h →
  hash_string (data ++ more) (Z.of_nat (length (data ++ more)))
  = Ok (fold_left mix more h).
Proof.
  intros Hmax Hrun. rewrite length_app in Hmax.
  rewrite <- (app_nil_r data) in Hrun at 1.
  rewrite hash_string_fold in Hrun by lia. injection Hrun as <-.
  rewrite <- (app_nil_r (data ++ more)) at 1.
  rewrite hash_string_fold by (rewrite length_app; lia).
  by rewrite fold_left_app.
Qed.

Lemma hash_string_continues_witness :
  Z.of_nat (length (["a"; "b"; "c"; "d"; "e"] ++ ["f"; "g"])%byte) + 4 < 2 ^ 64 ∧
  hash_string ["a"; "b"; "c"; "d"; "e"]%byte
              (Z.of_nat (length ["a"; "b"; "c"; "d"; "e"]%byte)) = Ok 1956368136 ∧
  hash_string (["a"; "b"; "c"; "d"; "e"] ++ ["f"; "g"])%byte
              (Z.of_nat (length (["a"; "b"; "c"; "d"; "e"] ++ ["f"; "g"])%byte))
  = Ok (fold_left mix ["f"; "g"]%byte 1956368136).
Proof.
  split; [simpl; lia |]. split; [by vm_compute |].
  apply (hash_string_continues ["a"; "b"; "c"; "d"; "e"]%byte ["f"; "g"]%byte);
    [simpl; lia | by vm_compute].
Defined.

(** ** One table: construction, insertion, lookup and removal together *)

Section TableUse.
Context {T : Type}.
Implicit Types (tb : HTable.t T) (node key : HNode T).
Implicit Types (chain : list (HNode T)).
Implicit Types (comparator : HNode T → HNode T → bool).




(** *** What a lookup sees of an insertion *)

Lemma insert_default node :
  HTable.insert (@HTable.default T) node = HTable.insert (fresh 4) node.
Proof. reflexivity. Qed.

Lemma lookup_fresh_4 key comparator :
  HTable.lookup (@fresh T 4) key comparator = Ok None.
Proof.
  destruct (lookup_spec (fresh 4) key comparator table_ok_fresh_4)
    as (chain & Hc & ->).
  unfold fresh in Hc. cbn [HTable.buckets_] in Hc.
  by apply lookup_replicate in Hc as [-> _].
Qed.

Lemma lookup_after_insert tb node key comparator :
  table_ok tb →
  ∃ tb' chain,
    HTable.insert tb node = Ok tb' ∧ table_ok tb' ∧
    HTable.lookup tb key comparator
      = Ok (HTable.lookup_chain comparator key chain) ∧
    HTable.lookup tb' key comparator
      = Ok (HTable.lookup_chain comparator key
              (if decide (Z.land (hcode_ node) (HTable.mask_ tb)
                          = Z.land (hcode_ key) (HTable.mask_ tb))
               then node :: chain else chain)).
Proof.
  intros Hok.
  destruct (insert_spec tb node Hok) as (chain_n & Hcn & Hins).
  destruct (lookup_spec tb key comparator Hok) as (chain & Hc & Hlook).
  pose proof (land_mask_range (hcode_ node) _ (ok_pow2 _ Hok)) as Hrn.
  pose proof (land_mask_range (hcode_ key) _ (ok_pow2 _ Hok)) as Hrk.
  eexists _, chain. split; [exact Hins |].
  assert (table_ok
            (HTable.mk
               (<[Z.to_nat (Z.land (hcode_ node) (HTable.mask_ tb)) := node :: chain_n]>
                  (HTable.buckets_ tb))
               (HTable.mask_ tb) (wrap64 (HTable.size_ tb + 1)))) as Hok'.
  { apply table_ok_cons; [done | done | apply wrap64_range]. }
  split; [done |]. split; [done |].
  destruct (lookup_spec _ key comparator Hok') as (chain' & Hc' & ->).
  cbn [HTable.buckets_ HTable.mask_] in Hc'.
  f_equal. f_equal.
  destruct (decide (Z.land (hcode_ node) (HTable.mask_ tb)
                    = Z.land (hcode_ key) (HTable.mask_ tb))) as [Heq | Hne].
  - rewrite Heq in Hc', Hcn.
    rewrite list_lookup_insert_eq in Hc' by (by eapply lookup_lt_Some).
    congruence.
  - rewrite list_lookup_insert_ne in Hc' by lia. congruence.
Qed.

(** X5 — Insertion followed by lookup, on one table: a node is linked
    at the head of the chain of its slot, so a lookup with a probe of
    the node's digest and an equality predicate that accepts the node
    returns this very node, also when older nodes of the chain would be
    accepted too, and also on a table that the insertion had to
    initialise. *)
Theorem lookup_returns_latest_insert (tb : HTable.t T) (node key : HNode T)
    (comparator : HNode T → HNode T → bool) :
  primary_ok tb → hcode_ key = hcode_ node → comparator node key = true →
  ∃ tb', HTable.insert tb node = Ok tb' ∧ table_ok tb' ∧
         HTable.lookup tb' key comparator = Ok (Some node).
Proof.
  intros Hp Hcode Hmatch.
  assert (∀ tb0, table_ok tb0 →
            ∃ tb', HTable.insert tb0 node = Ok tb' ∧ table_ok tb' ∧
                   HTable.lookup tb' key comparator = Ok (Some node)) as Hgen.
  { intros tb0 Hok.
    destruct (lookup_after_insert tb0 node key comparator Hok)
      as (tb' & chain & Hins & Hok' & _ & Hlook).
    exists tb'. split; [done |]. split; [done |].
    rewrite Hlook, Hcode. rewrite decide_True by done.
    cbn [HTable.lookup_chain]. by rewrite Hmatch. }
  destruct Hp as [-> | Hok]; [| by apply Hgen].
  rewrite insert_default. apply Hgen, table_ok_fresh_4.
Qed.

(** X6 — An insertion leaves the lookups of the other keys as they
    were: when the equality predicate rejects the new node for a probe,
    the lookup of this probe gives after the insertion what it gave
    before it, whether or not the two share a slot. *)
Theorem insert_keeps_other_lookups (tb : HTable.t T) (node key : HNode T)
    (comparator : HNode T → HNode T → bool) :
  primary_ok tb → comparator node key = false →
  ∃ tb', HTable.insert tb node = Ok tb' ∧
         HTable.lookup tb' key comparator = HTable.lookup tb key comparator.
Proof.
  intros Hp Hmiss.
  assert (∀ tb0, table_ok tb0 →
            ∃ tb', HTable.insert tb0 node = Ok tb' ∧
                   HTable.lookup tb' key comparator
                   = HTable.lookup tb0 key comparator) as Hgen.
  { intros tb0 Hok.
    destruct (lookup_after_insert tb0 node key comparator Hok)
      as (tb' & chain & Hins & _ & Hbefore & Hafter).
    exists tb'. split; [done |]. rewrite Hbefore, Hafter.
    destruct (decide _); [| done].
    cbn [HTable.lookup_chain]. by rewrite Hmiss. }
  destruct Hp as [-> | Hok]; [| by apply Hgen].
  rewrite insert_default, lookup_default, <- (lookup_fresh_4 key comparator).
  apply Hgen, table_ok_fresh_4.
Qed.

(** *** Removal *)

(** X7 — [HTable::remove] detaches the node that [lookup] returns for
    the same probe and predicate, and returns [nullptr] when [lookup]
    does. The detached node is accepted by the predicate; every other
    node stays in its chain, in the order it had; the capacity is the
    same, and so is the counter [size_], which no statement of [remove]
    touches. Without a match the table is left as it was. *)
Theorem remove_detaches_what_lookup_finds (tb : HTable.t T) (key : HNode T)
    (comparator : HNode T → HNode T → bool) :
  primary_ok tb →
  ∃ r tb',
    HTable.remove tb key comparator = Ok (r, tb') ∧
    HTable.lookup tb key comparator = Ok r ∧
    primary_ok tb' ∧
    HTable.capacity tb' = HTable.capacity tb ∧
    HTable.size tb' = HTable.size tb ∧
    Forall2 sublist (HTable.buckets_ tb') (HTable.buckets_ tb) ∧
    match r with
    | Some node =>
        comparator node key = true ∧ entries tb ≡ₚ node :: entries tb'
    | None => tb' = tb
    end.
Proof.
  intros [-> | Hok].
  - exists None, HTable.default. split; [done |]. split; [done |].
    split; [by left |]. split; [done |]. split; [done |]. split; [| done].
    constructor.
  - destruct (remove_ok tb key comparator Hok)
      as (r & tb' & Hrem & Hlook & Hok' & Hsize & Hmask & Hsub & Hr).
    exists r, tb'. split; [done |]. split; [done |]. split; [by right |].
    split; [unfold HTable.capacity; by rewrite Hmask |].
    split; [done |]. split; [done |].
    destruct r as [node |]; [| done]. split; [| done].
    by apply (lookup_Some tb key comparator node Hok).
Qed.

(** X8 — Insertion followed by removal, on one table: a removal with a
    probe of the node's digest and a predicate that accepts the node
    hands the node back and leaves every chain and the mask as they
    were before the insertion; the counter keeps the increment of the
    insertion. *)
Theorem remove_undoes_insert_but_for_size (tb : HTable.t T) (node key : HNode T)
    (comparator : HNode T → HNode T → bool) :
  table_ok tb → hcode_ key = hcode_ node → comparator node key = true →
  ∃ tb1 tb2,
    HTable.insert tb node = Ok tb1 ∧
    HTable.remove tb1 key comparator = Ok (Some node, tb2) ∧
    HTable.buckets_ tb2 = HTable.buckets_ tb ∧
    HTable.mask_ tb2 = HTable.mask_ tb ∧
    HTable.size tb1 = wrap64 (HTable.size tb + 1) ∧
    HTable.size tb2 = HTable.size tb1.
Proof.
  intros Hok Hcode Hmatch.
  destruct (insert_spec tb node Hok) as (chain & Hc & Hins).
  assert (table_ok
            (HTable.mk
               (<[Z.to_nat (Z.land (hcode_ node) (HTable.mask_ tb)) := node :: chain]>
                  (HTable.buckets_ tb))
               (HTable.mask_ tb) (wrap64 (HTable.size_ tb + 1)))) as Hok'.
  { apply table_ok_cons; [done | done | apply wrap64_range]. }
  destruct (remove_spec _ key comparator Hok') as (chain' & Hc' & Hrem).
  cbn [HTable.buckets_ HTable.mask_ HTable.size_] in Hc', Hrem.
  rewrite Hcode in Hc', Hrem.
  rewrite list_lookup_insert_eq in Hc' by (by eapply lookup_lt_Some).
  injection Hc' as <-.
  cbn [HTable.remove_chain] in Hrem. rewrite Hmatch in Hrem.
  eexists _, _. split; [exact Hins |]. split; [exact Hrem |].
  cbn [HTable.buckets_ HTable.mask_ HTable.size_ HTable.size].
  split; [| done].
  rewrite list_insert_insert_eq. by apply list_insert_id.
Qed.

End TableUse.

(** *** Instances *)


Lemma lookup_returns_latest_insert_witness :
  primary_ok (@HTable.default Z) ∧
  hcode_ (key_node 7) = hcode_ (key_node 7) ∧
  same_key (key_node 7) (key_node 7) = true ∧
  ∃ tb', HTable.insert HTable.default (key_node 7) = Ok tb' ∧ table_ok tb' ∧
         HTable.lookup tb' (key_node 7) same_key = Ok (Some (key_node 7)).
Proof.
  assert (primary_ok (@HTable.default Z)) as Hp by (by left).
  split; [done |]. split; [reflexivity |]. split; [reflexivity |].
  apply (lookup_returns_latest_insert HTable.default (key_node 7) (key_node 7)
           same_key Hp); reflexivity.
Defined.

Lemma insert_keeps_other_lookups_witness :
  primary_ok (@HTable.default Z) ∧
  same_key (key_node 11) (key_node 7) = false ∧
  ∃ tb', HTable.insert HTable.default (key_node 11) = Ok tb' ∧
         HTable.lookup tb' (key_node 7) same_key
         = HTable.lookup HTable.default (key_node 7) same_key.
Proof.
  assert (primary_ok (@HTable.default Z)) as Hp by (by left).
  split; [done |]. split; [reflexivity |].
  apply (insert_keeps_other_lookups HTable.default (key_node 11) (key_node 7)
           same_key Hp). reflexivity.
Defined.

Lemma remove_detaches_what_lookup_finds_witness :
  table_ok (@fresh Z 4) ∧
  HTable.insert (fresh 4) (key_node 7)
    = Ok (HTable.mk [[]; []; []; [key_node 7]] 3 1) ∧
  primary_ok (HTable.mk [[]; []; []; [key_node 7]] 3 1) ∧
  ∃ r tb',
    HTable.remove (HTable.mk [[]; []; []; [key_node 7]] 3 1) (key_node 7) same_key
      = Ok (r, tb') ∧
    HTable.lookup (HTable.mk [[]; []; []; [key_node 7]] 3 1) (key_node 7) same_key
      = Ok r ∧
    primary_ok tb' ∧
    HTable.capacity tb' = HTable.capacity (HTable.mk [[]; []; []; [key_node 7]] 3 1) ∧
    HTable.size tb' = HTable.size (HTable.mk [[]; []; []; [key_node 7]] 3 1) ∧
    Forall2 sublist (HTable.buckets_ tb')
            (HTable.buckets_ (HTable.mk [[]; []; []; [key_node 7]] 3 1)) ∧
    match r with
    | Some node =>
        same_key node (key_node 7) = true ∧
        entries (HTable.mk [[]; []; []; [key_node 7]] 3 1) ≡ₚ node :: entries tb'
    | None => tb' = HTable.mk [[]; []; []; [key_node 7]] 3 1
    end.
Proof.
  assert (HTable.insert (fresh 4) (key_node 7)
          = Ok (HTable.mk [[]; []; []; [key_node 7]] 3 1)) as Hins
    by (by vm_compute).
  assert (primary_ok (HTable.mk [[]; []; []; [key_node 7]] 3 1)) as Hp.
  { right. destruct (insert_ok (fresh 4) (key_node 7) table_ok_fresh_4)
      as (tb' & Hins' & Hok & _). congruence. }
  split; [apply table_ok_fresh_4 |]. split; [done |]. split; [done |].
  exact (remove_detaches_what_lookup_finds _ (key_node 7) same_key Hp).
Defined.

Lemma remove_undoes_insert_but_for_size_witness :
  table_ok (@fresh Z 4) ∧ hcode_ (key_node 7) = hcode_ (key_node 7) ∧
  same_key (key_node 7) (key_node 7) = true ∧
  ∃ tb1 tb2,
    HTable.insert (fresh 4) (key_node 7) = Ok tb1 ∧
    HTable.remove tb1 (key_node 7) same_key = Ok (Some (key_node 7), tb2) ∧
    HTable.buckets_ tb2 = HTable.buckets_ (@fresh Z 4) ∧
    HTable.mask_ tb2 = HTable.mask_ (@fresh Z 4) ∧
    HTable.size tb1 = wrap64 (HTable.size (@fresh Z 4) + 1) ∧
    HTable.size tb2 = HTable.size tb1.
Proof.
  split; [apply table_ok_fresh_4 |]. split; [reflexivity |].
  split; [reflexivity |].
  apply (remove_undoes_insert_but_for_size (fresh 4) (key_node 7) (key_node 7)
           same_key table_ok_fresh_4); reflexivity.
Defined.

(** ** Invariants of the reachable states *)

Section Reachable.
Context {T : Type}.
Implicit Types (p tmp tb : HTable.t T) (node key : HNode T).
Implicit Types (m : HMap.t T).
Implicit Types (comparator : HNode T → HNode T → bool).

(** *** A proof rule for the calls

    [I] is to hold between two calls and [J] where [insert] hands over
    to [help_resize]. *)

Lemma call_rule (I J : HMap.t T → Prop) :
  (∀ m, I m → J m) →
  (∀ m node m1, map_sized m → total_size m + 1 < 2 ^ 64 → I m →
     HMap.insert_before_migration m node = Ok m1 → J m1) →
  (∀ fuel m m', map_sized m → J m → HMap.help_resize fuel m = Ok m' → I m') →
  (∀ m key comparator r p', map_sized m → I m →
     HTable.remove (HMap.primary_table_ m) key comparator = Ok (r, p') →
     I (HMap.mk p' (HMap.temporary_table_ m) (HMap.resizing_pos_ m))) →
  (∀ m tmp key comparator r tmp', map_sized m → I m →
     HMap.temporary_table_ m = Some tmp →
     HTable.remove tmp key comparator = Ok (r, tmp') →
     I (HMap.mk (HMap.primary_table_ m) (Some tmp') (HMap.resizing_pos_ m))) →
  ∀ fuel m o m',
    map_sized m → total_size m + 1 < 2 ^ 64 → I m →
    call fuel m o = Ok m' → I m'.
Proof.
  intros HIJ Hbefore Hslice Hrp Hrt fuel m o m' Hs Hsum HI.
  destruct o as [node | key comparator | key comparator]; simpl.
  - intros (m1 & Hb & Hr)%insert_inv.
    destruct (before_migration_sized _ _ _ Hs Hsum Hb) as [Hs1 _].
    exact (Hslice fuel m1 m' Hs1 (Hbefore m node m1 Hs Hsum HI Hb) Hr).
  - intros ([r m1] & [Hr _]%find_inv & [= <-])%bind_Ok.
    exact (Hslice fuel m m1 Hs (HIJ m HI) Hr).
  - intros ([r m2] & Hrem & [= <-])%bind_Ok.
    apply remove_inv in Hrem as (m1 & r1 & p1 & Hr & Hrm & H).
    destruct (help_resize_sized _ _ _ Hs Hr) as (Hs1 & _ & _).
    pose proof (Hslice fuel m m1 Hs (HIJ m HI) Hr) as HI1.
    pose proof (Hrp m1 _ _ _ _ Hs1 HI1 Hrm) as HIp.
    destruct r1 as [node|]; [by destruct H as [_ ->] |].
    destruct (remove_any _ _ _ _ _ Hrm) as (_ & _ & _ & ->).
    destruct (HMap.temporary_table_ m1) as [tmp|] eqn:Et.
    + destruct H as (tmp' & Hrm2 & ->).
      exact (Hrt m1 tmp _ _ _ _ Hs1 HI1 Et Hrm2).
    + by destruct H as [_ ->].
Qed.

Lemma reachable_rule (I J : HMap.t T → Prop) :
  (∀ m, I m → J m) →
  (∀ m node m1, map_sized m → total_size m + 1 < 2 ^ 64 → I m →
     HMap.insert_before_migration m node = Ok m1 → J m1) →
  (∀ fuel m m', map_sized m → J m → HMap.help_resize fuel m = Ok m' → I m') →
  (∀ m key comparator r p', map_sized m → I m →
     HTable.remove (HMap.primary_table_ m) key comparator = Ok (r, p') →
     I (HMap.mk p' (HMap.temporary_table_ m) (HMap.resizing_pos_ m))) →
  (∀ m tmp key comparator r tmp', map_sized m → I m →
     HMap.temporary_table_ m = Some tmp →
     HTable.remove tmp key comparator = Ok (r, tmp') →
     I (HMap.mk (HMap.primary_table_ m) (Some tmp') (HMap.resizing_pos_ m))) →
  I HMap.default → ∀ m, reachable m → I m.
Proof.
  intros HIJ Hbefore Hslice Hrp Hrt Hd m (fuel & ops & Hlen & Hrun).
  assert (∀ ops0 m0 m',
            map_sized m0 → I m0 →
            total_size m0 + Z.of_nat (length ops0) < 2 ^ 64 →
            run fuel m0 ops0 = Ok m' → I m') as Hgen.
  { intros ops0. induction ops0 as [|o ops0 IH]; intros m0 m' Hs HI Hsum; simpl.
    { by intros [= <-]. }
    simpl in Hsum. intros (m1 & Ha & Hrun0)%bind_Ok.
    destruct (call_sized _ _ _ _ Hs ltac:(lia) Ha) as [Hs1 Htot1].
    apply (IH m1 m' Hs1); [| lia | done].
    assert (total_size m0 + 1 < 2 ^ 64) as Hone by lia.
    exact (call_rule I J HIJ Hbefore Hslice Hrp Hrt fuel m0 o m1 Hs Hone HI Ha). }
  eapply Hgen; [apply map_sized_default | exact Hd | | exact Hrun].
  unfold total_size. simpl. lia.
Qed.

(** *** The counters across one slice *)

Lemma help_resize_counters fuel m m' tmp :
  map_sized m → HMap.temporary_table_ m = Some tmp →
  HMap.help_resize fuel m = Ok m' →
  ∃ w, 0 ≤ w ≤ 15 ∧
    HTable.mask_ (HMap.primary_table_ m') = HTable.mask_ (HMap.primary_table_ m) ∧
    HTable.size_ (HMap.primary_table_ m')
      = HTable.size_ (HMap.primary_table_ m) + w ∧
    ((w = HTable.size_ tmp ∧ HMap.temporary_table_ m' = None ∧
      HMap.resizing_pos_ m' = 0) ∨
     (w = 15 ∧ ∃ tmp', HMap.temporary_table_ m' = Some tmp' ∧
                       HTable.mask_ tmp' = HTable.mask_ tmp ∧
                       HTable.size_ tmp' = HTable.size_ tmp - 15 ∧
                       0 < HTable.size_ tmp')).
Proof.
  intros (Hok & _ & _ & Htot) Htmp Hr.
  destruct Hok as [_ Hok]. unfold total_size in Htot.
  rewrite Htmp in Hok, Htot. destruct Hok as [Hokp Hokt].
  apply help_resize_inv in Hr as [[Hnone _] | Hr]; [congruence |].
  destruct Hr as (tmp0 & p' & tmp' & pos' & w' & Htmp0 & Hloop & Hend).
  assert (tmp0 = tmp) as -> by congruence.
  pose proof (ok_size _ Hokt) as Hst.
  assert (0 ≤ 0 ≤ 15) as Hw0 by lia.
  destruct (loop_moved _ _ _ _ _ _ _ _ _ Hw0 Hst Hloop)
    as [((_ & _ & _ & _ & Hw) & _ & _ & Hsz & Hnn) Hexit].
  destruct (loop_table_ok _ _ _ _ _ _ _ _ _ Hokp Hokt Hloop)
    as (_ & _ & Hmp & Hmt & _).
  destruct (loop_sizes _ _ _ _ _ _ _ _ Hokp Hokt Htot Hloop)
    as (moved & _ & _ & Hsp & Hst' & _ & _).
  exists w'. split; [lia |].
  destruct Hend as [[Hz ->] | [Hnz ->]]; simpl.
  - split; [done |]. split; [lia |]. left. split; [lia | done].
  - split; [done |]. split; [lia |]. right. split; [lia |].
    exists tmp'. split; [done |]. split; [done |]. split; lia.
Qed.

(** *** The load of the tables *)

Lemma div_below a b q : 0 < b → a / b < q → a < b * q.
Proof.
  intros Hb Hlt. destruct (Z.lt_ge_cases a (b * q)) as [? | Hge]; [done |].
  apply (Z.div_le_lower_bound _ _ _ Hb) in Hge. lia.
Qed.

Lemma div_above a b q : 0 < b → q ≤ a / b → b * q ≤ a.
Proof.
  intros Hb Hle. pose proof (Z.mul_div_le a b Hb). nia.
Qed.

Lemma balanced_slack m : balanced 0 m → balanced 1 m.
Proof.
  unfold balanced. destruct (HMap.temporary_table_ m); [| done]. lia.
Qed.

Lemma balanced_before m node m1 :
  map_sized m → total_size m + 1 < 2 ^ 64 → balanced 0 m →
  HMap.insert_before_migration m node = Ok m1 → balanced 1 m1.
Proof.
  intros (Hok & Hsp & Hst & _) Hsum Hb.
  destruct (insert_before_migration_spec m node Hok)
    as (p1 & _ & Hok1 & _ & Hsize & Hmask & ->). intros [= <-].
  assert (0 ≤ HTable.size_ (HMap.primary_table_ m)) as Hnn.
  { unfold sized in Hsp. lia. }
  assert (0 ≤ total_size m - HTable.size_ (HMap.primary_table_ m)) as Hnt.
  { unfold total_size. destruct (HMap.temporary_table_ m); [| lia].
    unfold sized in Hst. lia. }
  rewrite wrap64_small in Hsize by lia.
  pose proof (ok_min _ Hok1) as Hmin1.
  unfold ensured, HTable.empty in Hmask.
  unfold balanced, before_migration in *.
  destruct (HMap.temporary_table_ m) as [tmp|]; simpl.
  - destruct (Z.eqb_spec (HTable.size_ (HMap.primary_table_ m)) 0); [lia |].
    rewrite Hmask. lia.
  - destruct (Z.leb_spec 8 (HTable.size_ p1 / (HTable.mask_ p1 + 1)))
      as [Hload | Hload]; simpl.
    + apply div_above in Hload; [| lia].
      destruct (Z.eqb_spec (HTable.size_ (HMap.primary_table_ m)) 0) as [Hz | Hz].
      { unfold fresh in Hmask. simpl in Hmask. lia. }
      rewrite Hmask in *. lia.
    + apply div_below in Hload; [| lia]. split; lia.
Qed.

Lemma balanced_slice fuel m m' :
  map_sized m → balanced 1 m → HMap.help_resize fuel m = Ok m' → balanced 0 m'.
Proof.
  intros Hs Hb Hr.
  destruct (HMap.temporary_table_ m) as [tmp|] eqn:Htmp.
  - destruct (help_resize_counters _ _ _ _ Hs Htmp Hr)
      as (w & Hw & Hmask & Hsize & Hend).
    destruct Hs as ((_ & Hok) & Hsp & _). rewrite Htmp in Hok.
    pose proof (ok_min _ (proj2 Hok)) as Hmin.
    unfold sized in Hsp.
    unfold balanced in *. rewrite Htmp in Hb.
    destruct Hend as [(-> & -> & _) | (-> & tmp' & -> & Hmt & Hst & Hnz)].
    + rewrite Hmask, Hsize. split; [right |]; lia.
    + rewrite Hmask, Hsize, Hmt, Hst. lia.
  - unfold HMap.help_resize in Hr. rewrite Htmp in Hr. injection Hr as <-.
    unfold balanced in *. by rewrite Htmp in *.
Qed.

Lemma balanced_remove_primary m key comparator r p' :
  balanced 0 m →
  HTable.remove (HMap.primary_table_ m) key comparator = Ok (r, p') →
  balanced 0 (HMap.mk p' (HMap.temporary_table_ m) (HMap.resizing_pos_ m)).
Proof.
  intros Hb Hrm.
  destruct (remove_any _ _ _ _ _ Hrm) as (Hsz & Hmask & _).
  unfold balanced in *. simpl.
  destruct (HMap.temporary_table_ m) as [tmp|].
  - rewrite Hsz, Hmask. done.
  - rewrite Hsz, Hmask. split; [| by destruct Hb].
    destruct Hb as [[Hd | Hpos] _]; [left | by right].
    rewrite Hd, remove_default in Hrm. congruence.
Qed.

Lemma balanced_remove_retiring m tmp key comparator r tmp' :
  balanced 0 m → HMap.temporary_table_ m = Some tmp →
  HTable.remove tmp key comparator = Ok (r, tmp') →
  balanced 0 (HMap.mk (HMap.primary_table_ m) (Some tmp') (HMap.resizing_pos_ m)).
Proof.
  intros Hb Htmp Hrm.
  destruct (remove_any _ _ _ _ _ Hrm) as (Hsz & Hmask & _).
  unfold balanced in *. simpl. rewrite Htmp in Hb. by rewrite Hsz, Hmask.
Qed.

Lemma balanced_default : balanced 0 (@HMap.default T).
Proof. unfold balanced. simpl. split; [by left | lia]. Qed.

Lemma reachable_balanced m : reachable m → balanced 0 m.
Proof.
  apply (reachable_rule (balanced 0) (balanced 1)).
  - apply balanced_slack.
  - apply balanced_before.
  - apply balanced_slice.
  - intros m0 key comparator r p' _. apply balanced_remove_primary.
  - intros m0 tmp key comparator r tmp' _. apply balanced_remove_retiring.
  - apply balanced_default.
Qed.

(** *** The migration cursor *)

Lemma cursor_ok_before m node m1 :
  map_ok m → cursor_ok m →
  HMap.insert_before_migration m node = Ok m1 → cursor_ok m1.
Proof.
  intros Hok Hc.
  destruct (insert_before_migration_spec m node Hok)
    as (p1 & _ & Hok1 & _ & _ & _ & ->). intros [= <-].
  unfold cursor_ok, before_migration in *.
  destruct (HMap.temporary_table_ m) as [tmp|]; simpl; [done |].
  destruct (8 <=? _); simpl; [| done].
  rewrite (table_ok_capacity _ Hok1). pose proof (ok_min _ Hok1).
  split; [lia |]. intros i chain _ ?. lia.
Qed.

Lemma cursor_ok_slice fuel m m' :
  map_ok m → cursor_ok m → HMap.help_resize fuel m = Ok m' → cursor_ok m'.
Proof.
  intros [_ Hok] Hc Hr.
  apply help_resize_inv in Hr as [[_ ->] | Hr]; [done |].
  destruct Hr as (tmp & p' & tmp' & pos' & w' & Htmp & Hloop & Hend).
  unfold cursor_ok in Hc. rewrite Htmp in Hok, Hc.
  destruct Hok as [Hokp Hokt]. destruct Hc as [Hpos Hdr].
  rewrite (table_ok_capacity _ Hokt) in Hpos.
  assert ((table_ok p' ∧ table_ok tmp' ∧
           0 ≤ pos' ∧ drained_before tmp' pos' ∧
           (pos' < HTable.mask_ tmp' + 1 ∨ w' < 15)) ∧
          (15 ≤ w' ∨ HTable.size_ tmp' = 0))
    as [(_ & Hokt' & Hpos' & Hdr' & Hin) Hexit].
  { eapply (loop_invariant
              (λ p1 tmp1 pos1 w1,
                 table_ok p1 ∧ table_ok tmp1 ∧
                 0 ≤ pos1 ∧ drained_before tmp1 pos1 ∧
                 (pos1 < HTable.mask_ tmp1 + 1 ∨ w1 < 15)));
      [| | exact Hloop].
    - intros p1 tmp1 pos1 w1 p2 tmp2 pos2 w2 (Hp1 & Ht1 & Hq1 & Hd1 & _)
        Hw Hne _ Hround.
      destruct (round_table_ok _ _ _ _ _ _ _ _ Hp1 Ht1 Hne Hround)
        as (Hp2 & Ht2 & _ & Hm2 & _).
      destruct (round_cursor _ _ _ _ _ _ _ _ Ht1 Hq1 Hd1 Hround) as [Hq2 Hd2].
      split; [done |]. split; [done |]. split; [done |]. split; [done |].
      rewrite Hm2.
      destruct Hround as [node next p2 Hb Hins | Hb]; [left | by right].
      destruct (cursor_cases tmp1 pos1 Ht1 Hq1) as [[-> ?] | [-> ?]]; [done |].
      pose proof (ok_min _ Ht1). lia.
    - split; [done |]. split; [done |]. split; [lia |]. split; [done |].
      left. lia. }
  unfold cursor_ok.
  destruct Hend as [[Hz ->] | [Hnz ->]]; simpl; [done |].
  rewrite (table_ok_capacity _ Hokt'). split; [| done]. lia.
Qed.

Lemma cursor_ok_remove_retiring m tmp key comparator r tmp' :
  cursor_ok m → HMap.temporary_table_ m = Some tmp →
  HTable.remove tmp key comparator = Ok (r, tmp') →
  cursor_ok (HMap.mk (HMap.primary_table_ m) (Some tmp') (HMap.resizing_pos_ m)).
Proof.
  intros Hc Htmp Hrm.
  destruct (remove_any _ _ _ _ _ Hrm) as (_ & Hmask & Hsub & _).
  unfold cursor_ok in *. simpl. rewrite Htmp in Hc. destruct Hc as [Hpos Hdr].
  unfold HTable.capacity in *. rewrite Hmask. split; [done |].
  intros i chain' Hi Hlt.
  destruct (Forall2_lookup_l _ _ _ _ _ Hsub Hi) as (chain & Hc & Hs).
  rewrite (Hdr i chain Hc Hlt) in Hs. by apply sublist_nil_r in Hs.
Qed.

Lemma reachable_cursor m : reachable m → cursor_ok m.
Proof.
  apply (reachable_rule cursor_ok cursor_ok).
  - done.
  - intros m0 node m1 [Hok _] _. by apply cursor_ok_before.
  - intros fuel m0 m1 [Hok _]. by apply cursor_ok_slice.
  - done.
  - intros m0 tmp key comparator r tmp' _. apply cursor_ok_remove_retiring.
  - done.
Qed.

(** *** What the invariants say to a caller *)

(** X9 — Between two calls the current table holds fewer than eight
    nodes per slot by its own counter: in every state a caller can
    reach, [size() / capacity()] of the current table is below
    [k_max_load_factor], also while a migration is in progress and
    [insert] skips the test of the load factor. *)
Theorem load_factor_below_threshold (m : HMap.t T) :
  reachable m →
  HTable.size (HMap.primary_table_ m) / HTable.capacity (HMap.primary_table_ m)
    < HMap.k_max_load_factor.
Proof.
  intros Hr. pose proof (reachable_balanced m Hr) as Hb.
  destruct (reachable_sized m Hr) as ((_ & Hok) & _).
  unfold balanced in Hb. unfold HMap.k_max_load_factor, HTable.size.
  destruct (HMap.temporary_table_ m) as [tmp|].
  - destruct Hok as [Hokp Hokt]. rewrite (table_ok_capacity _ Hokp).
    pose proof (ok_min _ Hokp). pose proof (ok_min _ Hokt).
    apply Z.div_lt_upper_bound; lia.
  - destruct Hok as [-> | Hokp]; [by compute |].
    rewrite (table_ok_capacity _ Hokp). pose proof (ok_min _ Hokp).
    apply Z.div_lt_upper_bound; lia.
Qed.

(** X10 — While a migration is in progress the current table has twice
    the capacity of the retiring table, neither of the two reports
    [empty()], and the retiring counter is at most eight per slot: a
    retiring table is discarded by the very call that brings its counter
    to 0. *)
Theorem capacity_doubled_during_migration (m : HMap.t T) (tmp : HTable.t T) :
  reachable m → HMap.temporary_table_ m = Some tmp →
  HTable.capacity (HMap.primary_table_ m) = 2 * HTable.capacity tmp ∧
  HTable.empty tmp = false ∧ HTable.empty (HMap.primary_table_ m) = false ∧
  HTable.size tmp ≤ 8 * HTable.capacity tmp.
Proof.
  intros Hr Htmp. pose proof (reachable_balanced m Hr) as Hb.
  destruct (reachable_sized m Hr) as ((_ & Hok) & _).
  unfold balanced in Hb. rewrite Htmp in Hb, Hok. destruct Hok as [Hokp Hokt].
  rewrite (table_ok_capacity _ Hokp), (table_ok_capacity _ Hokt).
  unfold HTable.empty, HTable.size.
  split; [lia |]. split; [apply Z.eqb_neq; lia |].
  split; [apply Z.eqb_neq; lia | lia].
Qed.

(** X11 — Between two calls [resizing_pos_] is 0 when there is no
    retiring table and the index of a slot of the retiring table when
    there is one, every slot before it being drained: the reset of a
    cursor that has run past the last slot, at the top of the loop of
    [help_resize], finds nothing to reset on entry. *)
Theorem cursor_within_retiring_table (m : HMap.t T) :
  reachable m →
  match HMap.temporary_table_ m with
  | None => HMap.resizing_pos_ m = 0
  | Some tmp =>
      0 ≤ HMap.resizing_pos_ m < HTable.capacity tmp ∧
      cursor tmp (HMap.resizing_pos_ m) = HMap.resizing_pos_ m ∧
      ∀ (i : nat) chain,
        HTable.buckets_ tmp !! i = Some chain →
        Z.of_nat i < HMap.resizing_pos_ m → chain = []
  end.
Proof.
  intros Hr. pose proof (reachable_cursor m Hr) as Hc.
  unfold cursor_ok in Hc.
  destruct (HMap.temporary_table_ m) as [tmp|]; [| done].
  destruct Hc as [Hpos Hdr]. split; [done |]. split; [| done].
  unfold cursor. destruct (Z.leb_spec (HTable.capacity tmp) (HMap.resizing_pos_ m)); lia.
Qed.

(** X12 — No call makes the current table smaller: across [insert],
    [find] and [remove] on a reachable state the capacity of the
    current table stays or grows. *)
Theorem capacity_never_shrinks (fuel : nat) (m : HMap.t T) (o : op T)
    (m' : HMap.t T) :
  reachable m → call fuel m o = Ok m' →
  HTable.capacity (HMap.primary_table_ m)
    ≤ HTable.capacity (HMap.primary_table_ m').
Proof.
  intros Hr Hcall. pose proof (reachable_balanced m Hr) as Hb.
  destruct (reachable_sized m Hr) as (Hok & Hsp & _).
  destruct (call_map_ok _ _ _ _ Hok Hcall) as [Hok' Hkeep].
  assert (HMap.primary_table_ m = HTable.default ∨
          table_ok (HMap.primary_table_ m) ∧
          0 < HTable.size_ (HMap.primary_table_ m)) as [Hd | [Hokp Hpos]].
  { unfold balanced in Hb. destruct Hok as [_ Hok].
    destruct (HMap.temporary_table_ m) as [tmp|].
    - right. split; [by destruct Hok | lia].
    - destruct Hb as [[Hd | Hpos] _]; [by left |].
      destruct Hok as [Hd | Hokp]; [by left | by right]. }
  { rewrite Hd. change (HTable.capacity (@HTable.default T)) with 1.
    destruct (map_ok_primary _ Hok') as [-> | Hokp']; [done |].
    rewrite (table_ok_capacity _ Hokp'). pose proof (ok_min _ Hokp'). lia. }
  pose proof (Hkeep (or_intror Hokp)) as Hokp'.
  rewrite (table_ok_capacity _ Hokp), (table_ok_capacity _ Hokp').
  destruct o as [node | key comparator | key comparator]; simpl in Hcall.
  - apply insert_inv in Hcall as (m1 & Hbm & Hslice).
    destruct (insert_before_migration_spec m node Hok)
      as (p1 & _ & Hok1 & _ & _ & Hmask & Hbm').
    assert (m1 = before_migration m p1) as -> by congruence.
    destruct (before_migration_ok m p1 Hok Hok1) as [Hok2 Hokp2].
    destruct (help_resize_ok _ _ _ Hok2 Hslice) as (_ & _ & Hsame).
    destruct (Hsame Hokp2) as [_ ->].
    unfold ensured, HTable.empty in Hmask.
    destruct (Z.eqb_spec (HTable.size_ (HMap.primary_table_ m)) 0); [lia |].
    pose proof (ok_min _ Hok1).
    unfold before_migration.
    destruct (HMap.temporary_table_ m); simpl; [lia |].
    destruct (8 <=? _); simpl; lia.
  - apply bind_Ok in Hcall as ([r m1] & [Hslice _]%find_inv & [= <-]).
    destruct (help_resize_ok _ _ _ Hok Hslice) as (_ & _ & Hsame).
    destruct (Hsame Hokp) as [_ ->]. lia.
  - apply bind_Ok in Hcall as ([r m2] & Hrem & [= <-]).
    apply remove_inv in Hrem as (m1 & r1 & p1 & Hslice & Hrm & H).
    destruct (help_resize_ok _ _ _ Hok Hslice) as (_ & _ & Hsame).
    destruct (Hsame Hokp) as [_ Hm1].
    destruct (remove_any _ _ _ _ _ Hrm) as (_ & Hmp & _).
    assert (HMap.primary_table_ m2 = p1) as ->.
    { destruct r1; [by destruct H as [_ ->] |].
      destruct (HMap.temporary_table_ m1).
      - by destruct H as (? & _ & ->).
      - by destruct H as [_ ->]. }
    lia.
Qed.

(** X13 — [empty()] answers [true] on a dictionary in which no node
    was ever inserted and on no other reachable dictionary: a state for
    which it answers [true] is the default-constructed one, with no
    table allocated and no node stored, and a removal never brings a
    dictionary back to it. *)
Theorem empty_only_before_first_insert (m : HMap.t T) :
  reachable m → (HMap.empty m = true ↔ m = HMap.default).
Proof.
  intros Hr. split; [| by intros ->].
  pose proof (reachable_balanced m Hr) as Hb.
  pose proof (reachable_cursor m Hr) as Hc.
  destruct (reachable_sized m Hr) as (_ & Hsp & Hst & Htot).
  unfold HMap.empty, HMap.size, HTable.size. intros Hz%Z.eqb_eq.
  unfold balanced in Hb. unfold cursor_ok in Hc. unfold total_size in Htot.
  unfold sized in Hsp.
  destruct m as [p [tmp|] pos]; simpl in *.
  - unfold sized in Hst. rewrite wrap64_small in Hz by lia. lia.
  - rewrite wrap64_small in Hz by lia.
    destruct Hb as [[-> | Hpos] _]; [by rewrite Hc | lia].
Qed.

(** X14 — In every reachable state each node hangs in the chain of the
    slot that its digest selects under the mask of its table, in the
    current and in the retiring table alike, and each table has as many
    slots as its capacity says. *)
Theorem nodes_in_their_slots (m : HMap.t T) (tb : HTable.t T) :
  reachable m →
  tb = HMap.primary_table_ m ∨ HMap.temporary_table_ m = Some tb →
  (∀ (i : nat) chain node,
     HTable.buckets_ tb !! i = Some chain → node ∈ chain →
     Z.land (hcode_ node) (HTable.mask_ tb) = Z.of_nat i) ∧
  (tb = HTable.default ∨
   Z.of_nat (length (HTable.buckets_ tb)) = HTable.capacity tb).
Proof.
  intros Hr Htb. destruct (reachable_sized m Hr) as ((_ & Hok) & _).
  assert (primary_ok tb) as [-> | Hokt].
  { destruct Htb as [-> | Htmp].
    - destruct (HMap.temporary_table_ m); [right; by destruct Hok | done].
    - rewrite Htmp in Hok. right. by destruct Hok. }
  - split; [| by left]. intros i chain node Hi. by destruct i.
  - split; [apply (ok_slot _ Hokt) |]. right.
    rewrite (table_ok_capacity _ Hokt). apply (ok_length _ Hokt).
Qed.

End Reachable.

(** ** The calls of the dictionary, one after the other *)

Section Calls.
Context {T : Type}.
Implicit Types (p tmp tb : HTable.t T) (node key : HNode T).
Implicit Types (m : HMap.t T).
Implicit Types (comparator : HNode T → HNode T → bool).

Lemma size_total m : map_sized m → HMap.size m = total_size m.
Proof.
  intros (_ & Hsp & Hst & Htot). unfold HMap.size, HTable.size, total_size in *.
  apply wrap64_small. unfold sized in *.
  destruct (HMap.temporary_table_ m); lia.
Qed.

(** X15 — What [insert] does to the stored nodes. Whenever [insert] on
    a reachable dictionary returns, it has stored the node and nothing
    else: the nodes of the two tables afterwards are the nodes before
    and the new one, whether or not the call has started a resize and
    whatever it has migrated, and [size()] has grown by one. On a
    dictionary whose counters count its nodes the call does return, on
    enough fuel. *)
Theorem insert_stores_one_node (m : HMap.t T) (node : HNode T) :
  reachable m → HMap.size m + 1 < 2 ^ 64 →
  (∀ fuel m', HMap.insert fuel m node = Ok m' →
     all_entries m' ≡ₚ node :: all_entries m ∧
     HMap.size m' = HMap.size m + 1 ∧ HMap.empty m' = false) ∧
  (map_counted m →
   ∃ fuel0, ∀ fuel, (fuel0 ≤ fuel)%nat →
     ∃ m', HMap.insert fuel m node = Ok m' ∧
           all_entries m' ≡ₚ node :: all_entries m ∧
           HMap.size m' = HMap.size m + 1).
Proof.
  intros Hs%reachable_sized Hsum. rewrite (size_total m Hs) in Hsum.
  assert (∀ fuel m', HMap.insert fuel m node = Ok m' →
            all_entries m' ≡ₚ node :: all_entries m ∧
            HMap.size m' = HMap.size m + 1 ∧ HMap.empty m' = false) as Hret.
  { intros fuel m' Hins.
    destruct (insert_sized _ _ _ _ Hs Hsum Hins) as (Hs' & Htot & Hall).
    split; [done |].
    unfold HMap.empty. rewrite (size_total m Hs), (size_total m' Hs'), Htot.
    split; [done |]. apply Z.eqb_neq.
    destruct Hs as (_ & Hsp & Hst & _). unfold total_size, sized in *.
    destruct (HMap.temporary_table_ m); lia. }
  split; [done |]. intros Hc.
  destruct (insert_terminates m node Hc Hsum) as [fuel0 Hfuel].
  exists fuel0. intros fuel Hle. destruct (Hfuel fuel Hle) as [m' Hins].
  exists m'. split; [done |].
  destruct (Hret fuel m' Hins) as (? & ? & _). done.
Qed.

(** X16 — Insertion followed by lookup, on the dictionary: after
    [insert] has stored a node, [find] with a probe and an equality
    predicate that accept it (the predicate accepting nodes of the
    probe's digest only) never answers "not found", in whichever table
    the node is when the lookup runs; it returns a stored node that the
    predicate accepts. *)
Theorem find_after_insert (fuel fuel' : nat) (m : HMap.t T)
    (node key : HNode T) (comparator : HNode T → HNode T → bool)
    (m' m'' : HMap.t T) (r : option (HNode T)) :
  reachable m → HMap.size m + 1 < 2 ^ 64 →
  HMap.insert fuel m node = Ok m' →
  digest_consistent comparator key → comparator node key = true →
  HMap.find fuel' m' key comparator = Ok (r, m'') →
  ∃ found, r = Some found ∧ comparator found key = true ∧
           found ∈ all_entries m'.
Proof.
  intros Hs%reachable_sized Hsum Hins Hcons Hmatch Hfind.
  rewrite (size_total m Hs) in Hsum.
  destruct (insert_sized _ _ _ _ Hs Hsum Hins) as (Hs' & _ & Hall).
  apply find_inv in Hfind as [Hslice Hlook].
  destruct (help_resize_sized _ _ _ Hs' Hslice) as ((Hok'' & _) & _ & Hall'').
  destruct (find_answer m'' key comparator r Hok'' Hcons Hlook) as [Hnone Hsome].
  destruct r as [found |].
  - exists found. destruct (Hsome found eq_refl) as [Hin Hacc].
    split; [done |]. split; [done |]. by rewrite <- Hall''.
  - assert (comparator node key = false) as Hno; [| congruence].
    apply (proj1 Hnone eq_refl). rewrite Hall'', Hall. by left.
Qed.

(** *** Removal *)

Lemma remove_after_slice fuel m m1 key comparator :
  map_ok m1 → HMap.help_resize fuel m = Ok m1 →
  ∃ r m2, HMap.remove fuel m key comparator = Ok (r, m2) ∧
          HMap.find fuel m key comparator = Ok (r, m1).
Proof.
  intros [_ Hok] Hslice. unfold HMap.remove, HMap.find.
  rewrite Hslice. cbn [mbind result_bind].
  assert (∀ tb, primary_ok tb →
            ∃ r tb', HTable.remove tb key comparator = Ok (r, tb') ∧
                     HTable.lookup tb key comparator = Ok r) as Hboth.
  { intros tb [-> | Htb].
    - exists None, HTable.default. by rewrite remove_default, lookup_default.
    - destruct (remove_ok tb key comparator Htb) as (r & tb' & ? & ? & _).
      eauto. }
  destruct (HMap.temporary_table_ m1) as [tmp|].
  - destruct Hok as [Hokp Hokt].
    destruct (Hboth _ (or_intror Hokp)) as (r1 & p1 & -> & ->).
    cbn [mbind result_bind]. destruct r1 as [node|]; [eauto |].
    destruct (Hboth _ (or_intror Hokt)) as (r2 & tmp' & -> & ->).
    cbn [mbind result_bind]. destruct r2; eauto.
  - destruct (Hboth _ Hok) as (r1 & p1 & -> & ->).
    cbn [mbind result_bind]. destruct r1; eauto.
Qed.

(** X17 — [remove] and [find] agree on what they return: for the same
    probe and predicate on the same dictionary, [remove] hands back the
    node that [find] would point to, and [nullptr] when [find] returns
    [nullptr]. *)
Theorem remove_returns_what_find_returns (fuel : nat) (m : HMap.t T)
    (key : HNode T) (comparator : HNode T → HNode T → bool)
    (r : option (HNode T)) :
  map_ok m →
  (∃ m1, HMap.find fuel m key comparator = Ok (r, m1)) ↔
  (∃ m2, HMap.remove fuel m key comparator = Ok (r, m2)).
Proof.
  intros Hok. split.
  - intros [m1 Hfind]. pose proof Hfind as [Hslice _]%find_inv.
    destruct (help_resize_ok _ _ _ Hok Hslice) as (Hok1 & _).
    destruct (remove_after_slice fuel m m1 key comparator Hok1 Hslice)
      as (r' & m2 & Hrem & Hfind').
    assert (r' = r) as -> by congruence. eauto.
  - intros [m2 Hrem]. pose proof Hrem as (m1 & _ & _ & Hslice & _)%remove_inv.
    destruct (help_resize_ok _ _ _ Hok Hslice) as (Hok1 & _).
    destruct (remove_after_slice fuel m m1 key comparator Hok1 Hslice)
      as (r' & m2' & Hrem' & Hfind').
    assert (r' = r) as -> by congruence. eauto.
Qed.

Lemma remove_detaches_one_node_aux fuel m key comparator r m' :
  map_sized m → HMap.remove fuel m key comparator = Ok (r, m') →
  match r with
  | Some node =>
      comparator node key = true ∧ all_entries m ≡ₚ node :: all_entries m'
  | None =>
      all_entries m' ≡ₚ all_entries m ∧
      (digest_consistent comparator key →
       ∀ node, node ∈ all_entries m → comparator node key = false)
  end.
Proof.
  intros Hs Hrem.
  destruct (remove_sized _ _ _ _ _ _ Hs Hrem) as (Hs' & Htot & Hall).
  pose proof Hrem as (m1 & r1 & p1 & Hslice & Hrm & H)%remove_inv.
  destruct (help_resize_sized _ _ _ Hs Hslice) as ((Hok1 & _) & _ & Hall1).
  destruct r as [node |].
  - split; [| done].
    destruct (remove_any _ _ _ _ _ Hrm) as (_ & _ & _ & Hr1).
    destruct r1 as [node1 |].
    + destruct H as [[= <-] _]. by destruct Hr1.
    + destruct (HMap.temporary_table_ m1) as [tmp|]; [| by destruct H].
      destruct H as (tmp' & Hrm2 & _).
      destruct (remove_any _ _ _ _ _ Hrm2) as (_ & _ & _ & Hr2).
      by destruct Hr2.
  - split; [done |]. intros Hcons node Hin.
    destruct (remove_after_slice fuel m m1 key comparator Hok1 Hslice)
      as (r' & m2 & Hrem' & Hfind).
    assert (r' = None) as -> by congruence.
    apply find_inv in Hfind as [_ Hlook].
    destruct (find_answer m1 key comparator None Hok1 Hcons Hlook) as [Hnone _].
    apply (proj1 Hnone eq_refl). by rewrite Hall1.
Qed.

(** X18 — [remove] on a reachable dictionary detaches at most one
    node. When it hands a node back, the predicate accepts that node
    and the two tables hold the nodes they held before but for it; when
    it returns [nullptr], they hold what they held, none of which the
    predicate accepts (for a predicate that accepts nodes of the probe's
    digest only). In both cases [size()] is what it was before the
    call. *)
Theorem remove_detaches_one_node (fuel : nat) (m : HMap.t T)
    (key : HNode T) (comparator : HNode T → HNode T → bool)
    (r : option (HNode T)) (m' : HMap.t T) :
  reachable m → HMap.remove fuel m key comparator = Ok (r, m') →
  HMap.size m' = HMap.size m ∧
  match r with
  | Some node =>
      comparator node key = true ∧ all_entries m ≡ₚ node :: all_entries m'
  | None =>
      all_entries m' ≡ₚ all_entries m ∧
      (digest_consistent comparator key →
       ∀ node, node ∈ all_entries m → comparator node key = false)
  end.
Proof.
  intros Hs%reachable_sized Hrem.
  destruct (remove_sized _ _ _ _ _ _ Hs Hrem) as (Hs' & Htot & _).
  split; [by rewrite (size_total m Hs), (size_total m' Hs') |].
  by apply (remove_detaches_one_node_aux fuel).
Qed.

(** X19 — Removal followed by lookup, on a reachable dictionary in
    which exactly one stored node is accepted for the probe (by a
    predicate that accepts nodes of the probe's digest only). Whenever
    [remove] returns, it hands back a node that the predicate accepts,
    and every later [find] with the same probe and predicate that
    returns answers "not found". While no migration is in progress both
    calls do return, on any fuel: [remove] hands the node back and
    [find] answers "not found". *)
Theorem find_after_remove (m : HMap.t T) (key : HNode T)
    (comparator : HNode T → HNode T → bool) :
  reachable m → digest_consistent comparator key →
  stored_once m key comparator →
  (∀ fuel r m', HMap.remove fuel m key comparator = Ok (r, m') →
     (∃ node, r = Some node ∧ comparator node key = true) ∧
     ∀ fuel' r' m'',
       HMap.find fuel' m' key comparator = Ok (r', m'') → r' = None) ∧
  (HMap.temporary_table_ m = None →
   ∀ fuel, ∃ node m',
     HMap.remove fuel m key comparator = Ok (Some node, m') ∧
     comparator node key = true ∧
     ∀ fuel', HMap.find fuel' m' key comparator = Ok (None, m')).
Proof.
  intros Hr Hcons Hone.
  pose proof (reachable_sized m Hr) as Hs.
  assert (∀ fuel r m', HMap.remove fuel m key comparator = Ok (r, m') →
            (∃ node, r = Some node ∧ comparator node key = true) ∧
            ∀ fuel' r' m'',
              HMap.find fuel' m' key comparator = Ok (r', m'') → r' = None)
    as Hret.
  { intros fuel r m' Hrem.
    destruct (remove_sized _ _ _ _ _ _ Hs Hrem) as (Hs' & _ & Hall).
    pose proof (remove_detaches_one_node_aux fuel m key comparator r m' Hs Hrem)
      as Hwhat.
    unfold stored_once in Hone.
    destruct r as [node |].
    - destruct Hwhat as [Hacc _]. split; [eauto |].
      rewrite (count_matching_perm _ _ _ _ Hall) in Hone.
      cbn [count_matching] in Hone. rewrite Hacc in Hone.
      assert (count_matching comparator key (all_entries m') = 0%nat) as Hzero
        by lia.
      intros fuel' r' m'' [Hslice Hlook]%find_inv.
      destruct (help_resize_sized _ _ _ Hs' Hslice) as ((Hok'' & _) & _ & Hall'').
      destruct (find_answer m'' key comparator r' Hok'' Hcons Hlook) as [Hnone _].
      apply Hnone. intros node' Hin. rewrite Hall'' in Hin.
      by apply (proj1 (count_matching_zero comparator key (all_entries m'))).
    - exfalso. destruct Hwhat as [_ Hnone].
      assert (count_matching comparator key (all_entries m) = 0%nat) as Hzero.
      { apply count_matching_zero. by apply Hnone. }
      lia. }
  split; [done |]. intros Htmp fuel.
  assert (HMap.help_resize fuel m = Ok m) as Hslice.
  { unfold HMap.help_resize. by rewrite Htmp. }
  destruct (remove_after_slice fuel m m key comparator (proj1 Hs) Hslice)
    as (r & m' & Hrem & _).
  destruct (Hret fuel r m' Hrem) as [(node & -> & Hacc) Hfind].
  exists node, m'. split; [done |]. split; [done |]. intros fuel'.
  destruct (remove_map_ok _ _ _ _ _ _ (proj1 Hs) Hrem) as [Hok' _].
  assert (HMap.temporary_table_ m' = None) as Htmp'.
  { apply remove_inv in Hrem as (m1 & r1 & p1 & Hslice1 & _ & H).
    assert (m1 = m) as -> by congruence. rewrite Htmp in H.
    destruct r1; by destruct H as [_ ->]. }
  assert (HMap.help_resize fuel' m' = Ok m') as Hslice'.
  { unfold HMap.help_resize. by rewrite Htmp'. }
  destruct (find_after_slice m' key comparator fuel' m' Hok' Hslice')
    as [r' Hfind'].
  by rewrite Hfind', (Hfind fuel' r' m' Hfind').
Qed.

(** *** Faults *)

(** X22 — On a dictionary whose tables are initialised no call has an
    undefined or asserted step: no bucket index of [insert], [lookup],
    [remove] or the migration loop is out of range, the division of the
    load factor is by a capacity above 0, and the assertions of
    [initialize] and [start_resize] hold where they are reached. A call
    returns, or its migration loop is still running when the fuel is
    used up. *)
Theorem calls_have_no_undefined_step (fuel : nat) (m : HMap.t T) (o : op T) :
  map_ok m →
  (∃ m', call fuel m o = Ok m' ∧ map_ok m') ∨ call fuel m o = Fail OutOfFuel.
Proof.
  intros Hok.
  destruct o as [node | key comparator | key comparator]; cbn [call].
  - destruct (insert_before_migration_spec m node Hok)
      as (p1 & _ & Hok1 & _ & _ & _ & Hbm).
    destruct (before_migration_ok m p1 Hok Hok1) as [Hok2 _].
    unfold HMap.insert. rewrite Hbm. cbn [mbind result_bind].
    destruct (help_resize_defined fuel _ Hok2) as [[m' Hslice] | Hspin];
      [left | by right].
    exists m'. split; [done |]. by destruct (help_resize_ok _ _ _ Hok2 Hslice).
  - destruct (help_resize_defined fuel m Hok) as [[m1 Hslice] | Hspin].
    + left. destruct (help_resize_ok _ _ _ Hok Hslice) as (Hok1 & _).
      destruct (find_after_slice m key comparator fuel m1 Hok1 Hslice)
        as [r ->]. by exists m1.
    + right. unfold HMap.find. by rewrite Hspin.
  - destruct (help_resize_defined fuel m Hok) as [[m1 Hslice] | Hspin].
    + left. destruct (help_resize_ok _ _ _ Hok Hslice) as (Hok1 & _).
      destruct (remove_after_slice fuel m m1 key comparator Hok1 Hslice)
        as (r & m2 & Hrem & _).
      rewrite Hrem. exists m2. split; [done |].
      by destruct (remove_map_ok _ _ _ _ _ _ Hok Hrem).
    + right. unfold HMap.remove. by rewrite Hspin.
Qed.

End Calls.

(** ** The course of a migration *)

Section Progress.
Context {T : Type}.
Implicit Types (p tmp tb : HTable.t T) (node key : HNode T).
Implicit Types (m : HMap.t T).
Implicit Types (comparator : HNode T → HNode T → bool).

(** X20 — [start_resize] on a dictionary without a retiring table,
    whose current table is initialised with at most 2^61 slots, retires
    the current table as it is and puts in its place a table without
    nodes of twice the capacity; the cursor is at 0, and the nodes and
    [size()] of the dictionary are what they were. *)
Theorem start_resize_doubles (m : HMap.t T) :
  table_ok (HMap.primary_table_ m) → HMap.temporary_table_ m = None →
  HTable.capacity (HMap.primary_table_ m) ≤ 2 ^ 61 →
  ∃ m', HMap.start_resize m = Ok m' ∧
        HMap.temporary_table_ m' = Some (HMap.primary_table_ m) ∧
        HMap.resizing_pos_ m' = 0 ∧
        table_ok (HMap.primary_table_ m') ∧
        entries (HMap.primary_table_ m') = [] ∧
        HTable.size (HMap.primary_table_ m') = 0 ∧
        HTable.capacity (HMap.primary_table_ m')
          = 2 * HTable.capacity (HMap.primary_table_ m) ∧
        all_entries m' ≡ₚ all_entries m ∧ HMap.size m' = HMap.size m.
Proof.
  intros Hok Htmp Hcap. rewrite (table_ok_capacity _ Hok) in *.
  pose proof (ok_min _ Hok) as Hmin. pose proof (ok_pow2 _ Hok) as Hpow.
  assert (table_ok (@fresh T ((HTable.mask_ (HMap.primary_table_ m) + 1) * 2)))
    as Hfresh.
  { apply table_ok_fresh; [by apply is_pow2_double | lia | lia]. }
  exists (HMap.mk (fresh ((HTable.mask_ (HMap.primary_table_ m) + 1) * 2))
                  (Some (HMap.primary_table_ m)) 0).
  split.
  { unfold HMap.start_resize. rewrite Htmp, (table_ok_capacity _ Hok).
    rewrite wrap64_small by lia.
    rewrite make_pow2; [done | by apply is_pow2_double | lia | lia]. }
  cbn [HMap.temporary_table_ HMap.resizing_pos_ HMap.primary_table_].
  split; [done |]. split; [done |]. split; [done |].
  split; [apply entries_fresh |]. split; [done |].
  split; [rewrite (table_ok_capacity _ Hfresh); unfold fresh; simpl; lia |].
  unfold all_entries, retiring_entries, HMap.size. rewrite Htmp.
  cbn [HMap.temporary_table_ HMap.primary_table_].
  rewrite entries_fresh, app_nil_r. split; [done |].
  unfold fresh, HTable.size. cbn [HTable.size_]. f_equal. lia.
Qed.

(** *** Lookups until the retiring table is gone *)

Lemma finds_without_migration fuel (ops : list (op T)) : ∀ m,
  map_ok m → HMap.temporary_table_ m = None →
  forallb is_find ops = true → run fuel m ops = Ok m.
Proof.
  induction ops as [|o ops IH]; intros m Hok Htmp Hfinds; [done |].
  cbn [forallb] in Hfinds. apply andb_prop in Hfinds as [Ho Hfinds].
  destruct o as [node | key comparator | key comparator]; try done.
  assert (HMap.help_resize fuel m = Ok m) as Hslice.
  { unfold HMap.help_resize. by rewrite Htmp. }
  destruct (find_after_slice m key comparator fuel m Hok Hslice) as [r Hfind].
  cbn [run call]. rewrite Hfind. cbn [mbind result_bind]. by apply IH.
Qed.

(** X21 — A migration is over after one call for every fifteen nodes:
    on a dictionary whose counters count its nodes, with a retiring
    table of [n] nodes, any [k] lookups with [15 * k ≥ n] return (on
    fuel for one pass over the retiring table and fifteen transfers) and
    leave no retiring table; every node is then in the current table,
    whose capacity has not changed, the cursor is back at 0 and
    [size()] is what it was. *)
Theorem migration_completes (fuel : nat) (ops : list (op T)) (m : HMap.t T)
    (tmp : HTable.t T) :
  map_counted m → HMap.temporary_table_ m = Some tmp →
  0 < HTable.size tmp → forallb is_find ops = true →
  HTable.size tmp ≤ 15 * Z.of_nat (length ops) →
  HTable.capacity tmp + 15 ≤ Z.of_nat fuel →
  ∃ m', run fuel m ops = Ok m' ∧
        HMap.temporary_table_ m' = None ∧ HMap.resizing_pos_ m' = 0 ∧
        entries (HMap.primary_table_ m') ≡ₚ all_entries m ∧
        HMap.size m' = HMap.size m ∧
        HTable.capacity (HMap.primary_table_ m')
          = HTable.capacity (HMap.primary_table_ m).
Proof.
  unfold HTable.size.
  revert m tmp. induction ops as [|o ops IH];
    intros m tmp Hc Htmp Hpos Hfinds Hlen Hfuel; [simpl in Hlen; lia |].
  cbn [forallb] in Hfinds. apply andb_prop in Hfinds as [Ho Hfinds].
  destruct o as [node | key comparator | key comparator]; try done.
  pose proof Hc as ((_ & Hok) & _). rewrite Htmp in Hok. destruct Hok as [_ Hokt].
  rewrite (table_ok_capacity _ Hokt) in Hfuel.
  destruct (help_resize_returns fuel m Hc) as [m1 Hslice].
  { intros tmp0 Htmp0. assert (tmp0 = tmp) as -> by congruence. lia. }
  destruct (help_resize_counted _ _ _ Hc Hslice) as (Hc1 & _ & Hall1).
  destruct (help_resize_exact _ _ _ _ Hc Htmp Hslice) as (Hmask1 & _ & Hnext).
  destruct (help_resize_ok _ _ _ (proj1 Hc) Hslice) as (Hok1 & Hsize1 & _).
  destruct (find_after_slice m key comparator fuel m1 Hok1 Hslice) as [r Hfind].
  cbn [run call]. rewrite Hfind. cbn [mbind result_bind].
  destruct (Z.leb_spec (HTable.size_ tmp) 15) as [Hlast | Hmore].
  - exists m1. split; [by apply finds_without_migration |]. split; [done |].
    split.
    { apply help_resize_inv in Hslice as [[Hnone _] | Hsl]; [congruence |].
      destruct Hsl as (? & ? & ? & ? & ? & _ & _ & [[_ ->] | [_ ->]]);
        [done | discriminate]. }
    split.
    { rewrite <- Hall1. unfold all_entries, retiring_entries.
      by rewrite Hnext, app_nil_r. }
    split; [done |]. unfold HTable.capacity. by rewrite Hmask1.
  - destruct Hnext as (tmp' & Htmp' & Hmask' & Hsize').
    destruct (IH m1 tmp' Hc1 Htmp') as (m' & Hrun & Hnone & Hz & Hent & Hsz & Hcap).
    + lia.
    + done.
    + simpl in Hlen. lia.
    + unfold HTable.capacity. rewrite Hmask'.
      pose proof (ok_max _ Hokt). pose proof (ok_min _ Hokt).
      rewrite wrap64_small by lia. lia.
    + exists m'. split; [done |]. split; [done |]. split; [done |].
      split; [by rewrite Hent |]. split; [congruence |].
      rewrite Hcap. unfold HTable.capacity. by rewrite Hmask1.
Qed.

End Progress.

(** ** Instances on a dictionary in the middle of a migration *)

Lemma mid_migration_reachable : reachable mid_migration.
Proof. exists 64%nat, (insert_keys (keys_upto 32)). split; by vm_compute. Qed.

Lemma mid_migration_ok : map_ok mid_migration.
Proof. apply state_after_ok. by vm_compute. Qed.

Lemma mid_migration_counted : map_counted mid_migration.
Proof. apply state_after_counted; by vm_compute. Qed.

Lemma load_factor_below_threshold_witness :
  reachable mid_migration ∧
  HTable.size (HMap.primary_table_ mid_migration)
    / HTable.capacity (HMap.primary_table_ mid_migration)
    < HMap.k_max_load_factor.
Proof.
  split; [apply mid_migration_reachable |].
  apply (load_factor_below_threshold mid_migration), mid_migration_reachable.
Defined.

Lemma capacity_doubled_during_migration_witness :
  reachable mid_migration ∧
  HMap.temporary_table_ mid_migration = Some (retiring_of mid_migration) ∧
  HTable.capacity (HMap.primary_table_ mid_migration)
    = 2 * HTable.capacity (retiring_of mid_migration) ∧
  HTable.empty (retiring_of mid_migration) = false ∧
  HTable.empty (HMap.primary_table_ mid_migration) = false ∧
  HTable.size (retiring_of mid_migration)
    ≤ 8 * HTable.capacity (retiring_of mid_migration).
Proof.
  split; [apply mid_migration_reachable |]. split; [by vm_compute |].
  apply (capacity_doubled_during_migration mid_migration (retiring_of mid_migration));
    [apply mid_migration_reachable | by vm_compute].
Defined.

Lemma cursor_within_retiring_table_witness :
  reachable mid_migration ∧
  match HMap.temporary_table_ mid_migration with
  | None => HMap.resizing_pos_ mid_migration = 0
  | Some tmp =>
      0 ≤ HMap.resizing_pos_ mid_migration < HTable.capacity tmp ∧
      cursor tmp (HMap.resizing_pos_ mid_migration)
        = HMap.resizing_pos_ mid_migration ∧
      ∀ (i : nat) chain,
        HTable.buckets_ tmp !! i = Some chain →
        Z.of_nat i < HMap.resizing_pos_ mid_migration → chain = []
  end.
Proof.
  split; [apply mid_migration_reachable |].
  apply (cursor_within_retiring_table mid_migration), mid_migration_reachable.
Defined.

Lemma capacity_never_shrinks_witness :
  reachable (state_after 64 (insert_keys (keys_upto 31))) ∧
  call 64 (state_after 64 (insert_keys (keys_upto 31))) (Insert (key_node 31))
    = Ok mid_migration ∧
  HTable.capacity (HMap.primary_table_ (state_after 64 (insert_keys (keys_upto 31))))
    ≤ HTable.capacity (HMap.primary_table_ mid_migration).
Proof.
  assert (reachable (state_after 64 (insert_keys (keys_upto 31)))) as Hr.
  { exists 64%nat, (insert_keys (keys_upto 31)). split; by vm_compute. }
  split; [done |]. split; [by vm_compute |].
  apply (capacity_never_shrinks 64 (state_after 64 (insert_keys (keys_upto 31)))
           (Insert (key_node 31)) mid_migration Hr).
  by vm_compute.
Defined.

Lemma empty_only_before_first_insert_witness :
  reachable mid_migration ∧
  (HMap.empty mid_migration = true ↔ mid_migration = HMap.default).
Proof.
  split; [apply mid_migration_reachable |].
  apply (empty_only_before_first_insert mid_migration), mid_migration_reachable.
Defined.

Lemma nodes_in_their_slots_witness :
  reachable mid_migration ∧
  (retiring_of mid_migration = HMap.primary_table_ mid_migration ∨
   HMap.temporary_table_ mid_migration = Some (retiring_of mid_migration)) ∧
  (∀ (i : nat) chain node,
     HTable.buckets_ (retiring_of mid_migration) !! i = Some chain →
     node ∈ chain →
     Z.land (hcode_ node) (HTable.mask_ (retiring_of mid_migration)) = Z.of_nat i) ∧
  (retiring_of mid_migration = HTable.default ∨
   Z.of_nat (length (HTable.buckets_ (retiring_of mid_migration)))
   = HTable.capacity (retiring_of mid_migration)).
Proof.
  assert (retiring_of mid_migration = HMap.primary_table_ mid_migration ∨
          HMap.temporary_table_ mid_migration = Some (retiring_of mid_migration))
    as Hwhich by (right; by vm_compute).
  split; [apply mid_migration_reachable |]. split; [done |].
  exact (nodes_in_their_slots mid_migration (retiring_of mid_migration)
           mid_migration_reachable Hwhich).
Defined.

Lemma insert_stores_one_node_witness :
  reachable mid_migration ∧ HMap.size mid_migration + 1 < 2 ^ 64 ∧
  map_counted mid_migration ∧
  HMap.insert 64 mid_migration (key_node 32)
    = Ok (state_after 64 (insert_keys (keys_upto 33))) ∧
  (∀ fuel m', HMap.insert fuel mid_migration (key_node 32) = Ok m' →
     all_entries m' ≡ₚ key_node 32 :: all_entries mid_migration ∧
     HMap.size m' = HMap.size mid_migration + 1 ∧ HMap.empty m' = false) ∧
  (map_counted mid_migration →
   ∃ fuel0, ∀ fuel, (fuel0 ≤ fuel)%nat →
     ∃ m', HMap.insert fuel mid_migration (key_node 32) = Ok m' ∧
           all_entries m' ≡ₚ key_node 32 :: all_entries mid_migration ∧
           HMap.size m' = HMap.size mid_migration + 1).
Proof.
  split; [apply mid_migration_reachable |]. split; [by vm_compute |].
  split; [apply mid_migration_counted |]. split; [by vm_compute |].
  apply (insert_stores_one_node mid_migration (key_node 32)
           mid_migration_reachable).
  by vm_compute.
Defined.

Lemma find_after_insert_witness :
  reachable mid_migration ∧ HMap.size mid_migration + 1 < 2 ^ 64 ∧
  HMap.insert 64 mid_migration (key_node 32)
    = Ok (state_after 64 (insert_keys (keys_upto 33))) ∧
  digest_consistent same_key (key_node 32) ∧
  same_key (key_node 32) (key_node 32) = true ∧
  HMap.find 64 (state_after 64 (insert_keys (keys_upto 33))) (key_node 32) same_key
    = Ok (Some (key_node 32),
          state_after 64 (insert_keys (keys_upto 33)
                          ++ [Find (key_node 32) same_key])) ∧
  ∃ found, Some (key_node 32) = Some found ∧
           same_key found (key_node 32) = true ∧
           found ∈ all_entries (state_after 64 (insert_keys (keys_upto 33))).
Proof.
  split; [apply mid_migration_reachable |]. split; [by vm_compute |].
  split; [by vm_compute |]. split; [apply same_key_consistent |].
  split; [reflexivity |]. split; [by vm_compute |].
  apply (find_after_insert 64 64 mid_migration (key_node 32) (key_node 32) same_key
           (state_after 64 (insert_keys (keys_upto 33)))
           (state_after 64 (insert_keys (keys_upto 33)
                            ++ [Find (key_node 32) same_key]))
           (Some (key_node 32)) mid_migration_reachable);
    [by vm_compute | by vm_compute | apply same_key_consistent | reflexivity
    | by vm_compute].
Defined.

Lemma remove_returns_what_find_returns_witness :
  map_ok mid_migration ∧
  ((∃ m1, HMap.find 64 mid_migration (key_node 3) same_key
          = Ok (Some (key_node 3), m1)) ↔
   (∃ m2, HMap.remove 64 mid_migration (key_node 3) same_key
          = Ok (Some (key_node 3), m2))).
Proof.
  split; [apply mid_migration_ok |].
  apply (remove_returns_what_find_returns 64 mid_migration (key_node 3) same_key
           (Some (key_node 3))), mid_migration_ok.
Defined.

Lemma remove_detaches_one_node_witness :
  reachable mid_migration ∧
  HMap.remove 64 mid_migration (key_node 3) same_key
    = Ok (Some (key_node 3),
          state_after 64 (insert_keys (keys_upto 32)
                          ++ [Remove (key_node 3) same_key])) ∧
  HMap.size (state_after 64 (insert_keys (keys_upto 32)
                             ++ [Remove (key_node 3) same_key]))
    = HMap.size mid_migration ∧
  same_key (key_node 3) (key_node 3) = true ∧
  all_entries mid_migration
    ≡ₚ key_node 3 :: all_entries (state_after 64 (insert_keys (keys_upto 32)
                                                  ++ [Remove (key_node 3) same_key])).
Proof.
  split; [apply mid_migration_reachable |]. split; [by vm_compute |].
  apply (remove_detaches_one_node 64 mid_migration (key_node 3) same_key
           (Some (key_node 3))
           (state_after 64 (insert_keys (keys_upto 32)
                            ++ [Remove (key_node 3) same_key]))
           mid_migration_reachable).
  by vm_compute.
Defined.

Lemma find_after_remove_witness :
  reachable (state_after 64 (insert_keys (keys_upto 5))) ∧
  digest_consistent same_key (key_node 3) ∧
  stored_once (state_after 64 (insert_keys (keys_upto 5))) (key_node 3) same_key ∧
  HMap.temporary_table_ (state_after 64 (insert_keys (keys_upto 5))) = None ∧
  HMap.remove 64 (state_after 64 (insert_keys (keys_upto 5))) (key_node 3) same_key
    = Ok (Some (key_node 3),
          state_after 64 (insert_keys (keys_upto 5)
                          ++ [Remove (key_node 3) same_key])) ∧
  HMap.find 64 (state_after 64 (insert_keys (keys_upto 5)
                               ++ [Remove (key_node 3) same_key]))
            (key_node 3) same_key
    = Ok (None, state_after 64 (insert_keys (keys_upto 5)
                                ++ [Remove (key_node 3) same_key])) ∧
  (∀ fuel r m',
     HMap.remove fuel (state_after 64 (insert_keys (keys_upto 5)))
                 (key_node 3) same_key = Ok (r, m') →
     (∃ node, r = Some node ∧ same_key node (key_node 3) = true) ∧
     ∀ fuel' r' m'',
       HMap.find fuel' m' (key_node 3) same_key = Ok (r', m'') → r' = None) ∧
  (HMap.temporary_table_ (state_after 64 (insert_keys (keys_upto 5))) = None →
   ∀ fuel, ∃ node m',
     HMap.remove fuel (state_after 64 (insert_keys (keys_upto 5)))
                 (key_node 3) same_key = Ok (Some node, m') ∧
     same_key node (key_node 3) = true ∧
     ∀ fuel', HMap.find fuel' m' (key_node 3) same_key = Ok (None, m')).
Proof.
  assert (reachable (state_after 64 (insert_keys (keys_upto 5)))) as Hr.
  { exists 64%nat, (insert_keys (keys_upto 5)). split; by vm_compute. }
  assert (stored_once (state_after 64 (insert_keys (keys_upto 5)))
                      (key_node 3) same_key) as Hone by (by vm_compute).
  split; [done |]. split; [apply same_key_consistent |]. split; [done |].
  split; [by vm_compute |]. split; [by vm_compute |]. split; [by vm_compute |].
  exact (find_after_remove (state_after 64 (insert_keys (keys_upto 5)))
           (key_node 3) same_key Hr (same_key_consistent (key_node 3)) Hone).
Defined.

Lemma calls_have_no_undefined_step_witness :
  map_ok mid_migration ∧
  ((∃ m', call 64 mid_migration (Remove (key_node 3) same_key) = Ok m' ∧ map_ok m') ∨
   call 64 mid_migration (Remove (key_node 3) same_key) = Fail OutOfFuel).
Proof.
  split; [apply mid_migration_ok |].
  apply (calls_have_no_undefined_step 64 mid_migration
           (Remove (key_node 3) same_key)), mid_migration_ok.
Defined.

Lemma start_resize_doubles_witness :
  table_ok (HMap.primary_table_ (HMap.mk (@fresh Z 4) None 0)) ∧
  HMap.temporary_table_ (HMap.mk (@fresh Z 4) None 0) = None ∧
  HTable.capacity (HMap.primary_table_ (HMap.mk (@fresh Z 4) None 0)) ≤ 2 ^ 61 ∧
  ∃ m', HMap.start_resize (HMap.mk (@fresh Z 4) None 0) = Ok m' ∧
        HMap.temporary_table_ m'
          = Some (HMap.primary_table_ (HMap.mk (@fresh Z 4) None 0)) ∧
        HMap.resizing_pos_ m' = 0 ∧
        table_ok (HMap.primary_table_ m') ∧
        entries (HMap.primary_table_ m') = [] ∧
        HTable.size (HMap.primary_table_ m') = 0 ∧
        HTable.capacity (HMap.primary_table_ m')
          = 2 * HTable.capacity (HMap.primary_table_ (HMap.mk (@fresh Z 4) None 0)) ∧
        all_entries m' ≡ₚ all_entries (HMap.mk (@fresh Z 4) None 0) ∧
        HMap.size m' = HMap.size (HMap.mk (@fresh Z 4) None 0).
Proof.
  split; [apply table_ok_fresh_4 |]. split; [reflexivity |].
  split; [by vm_compute |].
  apply (start_resize_doubles (HMap.mk (@fresh Z 4) None 0));
    [apply table_ok_fresh_4 | reflexivity | by vm_compute].
Defined.

Lemma migration_completes_witness :
  map_counted mid_migration ∧
  HMap.temporary_table_ mid_migration = Some (retiring_of mid_migration) ∧
  0 < HTable.size (retiring_of mid_migration) ∧
  forallb is_find [Find (key_node 0) same_key; Find (key_node 40) same_key] = true ∧
  HTable.size (retiring_of mid_migration)
    ≤ 15 * Z.of_nat (length [Find (key_node 0) same_key; Find (key_node 40) same_key]) ∧
  HTable.capacity (retiring_of mid_migration) + 15 ≤ Z.of_nat 64 ∧
  ∃ m', run 64 mid_migration [Find (key_node 0) same_key; Find (key_node 40) same_key]
          = Ok m' ∧
        HMap.temporary_table_ m' = None ∧ HMap.resizing_pos_ m' = 0 ∧
        entries (HMap.primary_table_ m') ≡ₚ all_entries mid_migration ∧
        HMap.size m' = HMap.size mid_migration ∧
        HTable.capacity (HMap.primary_table_ m')
          = HTable.capacity (HMap.primary_table_ mid_migration).
Proof.
  split; [apply mid_migration_counted |]. split; [by vm_compute |].
  split; [by vm_compute |]. split; [reflexivity |]. split; [by vm_compute |].
  split; [by vm_compute |].
  apply (migration_completes 64 [Find (key_node 0) same_key; Find (key_node 40) same_key]
           mid_migration (retiring_of mid_migration) mid_migration_counted);
    [by vm_compute | by vm_compute | reflexivity | by vm_compute | by vm_compute].
Defined.

(** ** What [size()] counts *)

Section Counter.
Context {T : Type}.
Implicit Types (m : HMap.t T).

Lemma run_total fuel (ops : list (op T)) : ∀ m m',
  map_sized m → total_size m + Z.of_nat (length ops) < 2 ^ 64 →
  run fuel m ops = Ok m' →
  map_sized m' ∧
  total_size m' = total_size m + Z.of_nat (length (List.filter is_insert ops)).
Proof.
  induction ops as [|o ops IH]; intros m m' Hs Hsum; cbn [run].
  { intros [= <-]. split; [done |]. simpl. lia. }
  simpl in Hsum. intros (m1 & Hcall & Hrun)%bind_Ok.
  assert (map_sized m1 ∧
          total_size m1 = total_size m + (if is_insert o then 1 else 0))
    as [Hs1 Htot1].
  { destruct o as [node | key comparator | key comparator]; cbn [call is_insert] in *.
    - destruct (insert_sized _ _ _ _ Hs ltac:(lia) Hcall) as (? & ? & _). done.
    - apply bind_Ok in Hcall as ([r m2] & [Hslice _]%find_inv & [= <-]).
      destruct (help_resize_sized _ _ _ Hs Hslice) as (? & ? & _).
      split; [done | lia].
    - apply bind_Ok in Hcall as ([r m2] & Hrem & [= <-]).
      destruct (remove_sized _ _ _ _ _ _ Hs Hrem) as (? & ? & _).
      split; [done | lia]. }
  destruct (IH m1 m' Hs1) as [Hs' Htot']; [destruct (is_insert o); lia | done |].
  split; [done |]. rewrite Htot', Htot1. cbn [List.filter].
  destruct (is_insert o); simpl length; lia.
Qed.

(** X23 — [size()] is the number of insertions made so far: after any
    sequence of fewer than 2^64 calls on a fresh dictionary it equals
    the number of [insert] calls in the sequence. Lookups and the
    migration leave it as it is, and so do removals, which detach a node
    without a decrement. *)
Theorem size_counts_insertions (fuel : nat) (ops : list (op T)) (m : HMap.t T) :
  Z.of_nat (length ops) < 2 ^ 64 → run fuel HMap.default ops = Ok m →
  HMap.size m = Z.of_nat (length (List.filter is_insert ops)).
Proof.
  intros Hlen Hrun.
  destruct (run_total fuel ops HMap.default m map_sized_default) as [Hs Htot];
    [unfold total_size; simpl; lia | done |].
  rewrite (size_total m Hs), Htot. unfold total_size. simpl. lia.
Qed.

End Counter.

Lemma size_counts_insertions_witness :
  Z.of_nat (length (insert_keys (keys_upto 32) ++ [Remove (key_node 3) same_key]))
    < 2 ^ 64 ∧
  run 64 HMap.default (insert_keys (keys_upto 32) ++ [Remove (key_node 3) same_key])
    = Ok (state_after 64 (insert_keys (keys_upto 32)
                          ++ [Remove (key_node 3) same_key])) ∧
  HMap.size (state_after 64 (insert_keys (keys_upto 32)
                             ++ [Remove (key_node 3) same_key]))
    = Z.of_nat (length (List.filter is_insert
                          (insert_keys (keys_upto 32)
                           ++ [Remove (key_node 3) same_key]))).
Proof.
  split; [by vm_compute |]. split; [by vm_compute |].
  apply (size_counts_insertions 64
           (insert_keys (keys_upto 32) ++ [Remove (key_node 3) same_key]));
    by vm_compute.
Defined.
